(** * Load balancer with LRU caches: a model of the C sources and its properties

    The development follows the three layers of the repository:
    - [lru_cache.c]     : a chained hash table with a recency list,
    - [server.c]        : a task queue in front of a cache and a database,
    - [load_balancer.c] : the hash ring, request routing and key migration.

    Unsigned 32-bit quantities are integers of [Z] with the wrap-around
    written out ([u32]).  Strings of C are [string]; a pointer that may be
    NULL is an [option]. *)

From Stdlib Require Import ZArith Lia.
From stdpp Require Import base list strings sorting.

Local Open Scope Z_scope.

(** ** Machine arithmetic *)

Definition UINT_MOD : Z := 2 ^ 32.

(** [unsigned int] arithmetic wraps around. *)
Definition u32 (x : Z) : Z := x mod UINT_MOD.

(** ** lru_cache.h: the data *)

(** The address of a [dll_node_t] obtained from [malloc]. *)
Abbreviation node_ptr := nat.

(** [struct info]: what a bucket entry stores, and what a recency node holds
    a byte copy of. *)
Record info := mk_info {
  key : string;
  value : string;
  pointer_to_node : option node_ptr
}.

(** A node of the doubly linked recency list: its address and its [data].
    The [prev]/[next] links are the neighbours in the sequence below. *)
Record dll_node_t := mk_node {
  node_addr : node_ptr;
  data : info
}.

(** [list_t]: the nodes from [head] to [tail], and the [size] counter the C
    code maintains next to them. *)
Record list_t := mk_list {
  nodes : list dll_node_t;
  lsize : Z
}.

(** [struct lru_cache].  A bucket ([linked_list_t]) is the chain of its
    entries from its head on; the [tail] and [size] fields of a bucket are
    written but never decide anything.  [brk] is the next address [malloc]
    hands out for a recency node. *)
Record lru_cache := mk_cache {
  buckets : list (list info);
  size : Z;
  capacity : Z;
  index : list_t;
  brk : node_ptr
}.

#[global] Instance info_eq_dec : EqDecision info.
Proof. solve_decision. Defined.
#[global] Instance dll_node_eq_dec : EqDecision dll_node_t.
Proof. solve_decision. Defined.

(** ** lru_cache.c: the recency list *)

Definition dll_create : list_t := mk_list [] 0.

Definition dll_head (l : list_t) : option dll_node_t := head (nodes l).
Definition dll_tail (l : list_t) : option dll_node_t := last (nodes l).

(** [dll_get_nth_node]: walk [n % size] links from the head. *)
Definition dll_get_nth_node (l : list_t) (n : Z) : option dll_node_t :=
  nodes l !! Z.to_nat (n mod lsize l).

(** [dll_remove_nth_node]: NULL on an empty list; an index past the end is
    clamped; the node is unlinked and handed to the caller. *)
Definition dll_remove_nth_node (l : list_t) (n : Z) : list_t * option dll_node_t :=
  match nodes l with
  | [] => (l, None)
  | hd :: _ =>
      let n := if lsize l <=? n then u32 (lsize l - 1) else n in
      if lsize l =? 1 then (mk_list [] 0, Some hd)
      else
        let i := Z.to_nat (n mod lsize l) in
        match nodes l !! i with
        | Some curr => (mk_list (delete i (nodes l)) (u32 (lsize l - 1)), Some curr)
        | None => (l, None)
        end
  end.

(** [dll_add_nth_node]: a fresh node at address [a] holding a copy of [d];
    position [n >= size] appends after the last node. *)
Definition dll_add_nth_node (l : list_t) (n : Z) (d : info) (a : node_ptr) : list_t :=
  let new_node := mk_node a d in
  if lsize l =? 0 then mk_list [new_node] (u32 (lsize l + 1))
  else if lsize l <=? n then mk_list (nodes l ++ [new_node]) (u32 (lsize l + 1))
  else
    let i := Z.to_nat (n mod lsize l) in
    mk_list (take i (nodes l) ++ new_node :: drop i (nodes l)) (u32 (lsize l + 1)).

(** The node a pointer designates, if it is linked in the list. *)
Definition dll_deref (l : list_t) (p : node_ptr) : option dll_node_t :=
  snd <$> list_find (λ n, node_addr n = p) (nodes l).

(** [dll_remove_node]: unlink the node at address [p]; the counter is
    decremented whatever the list holds. *)
Definition dll_remove_node (l : list_t) (p : node_ptr) : list_t :=
  mk_list (filter (λ n, node_addr n ≠ p) (nodes l)) (u32 (lsize l - 1)).

(** ** lru_cache.c: the cache *)

Section LRU.

(** [hash_string] of utils.h: an opaque hash over strings. *)
Variable hash_string : string → Z.

Definition init_lru_cache (cache_capacity : Z) : lru_cache :=
  mk_cache (replicate (Z.to_nat cache_capacity) []) 0 cache_capacity dll_create 0%nat.

Definition lru_cache_is_full (cache : lru_cache) : bool :=
  capacity cache <=? size cache.

(** [hash_function(key) % capacity] *)
Definition bucket_of (cache : lru_cache) (k : string) : nat :=
  Z.to_nat (u32 (hash_string k) mod capacity cache).

Definition bucket_at (cache : lru_cache) (i : nat) : list info :=
  default [] (buckets cache !! i).

(** What the search loop of [lru_cache_put] leaves behind: either it
    returned from inside the loop, or it ran to the end of the chain. *)
Inductive put_scan :=
  | PutReturned (chain : list info) (idx : list_t)
  | PutFellThrough (chain : list info) (found : bool).

Definition put_scan_cons (e : info) (f : bool) (r : put_scan) : put_scan :=
  match r with
  | PutReturned chain idx => PutReturned (e :: chain) idx
  | PutFellThrough chain found => PutFellThrough (e :: chain) (f || found)
  end.

(** The loop "checking if the key already exists".  On a match the value
    is replaced; when the recency node behind the entry carries the key
    too, the node is re-created at the tail and the function returns.  A
    back-reference that designates no linked node is undefined in C; the
    model goes on to the next entry. *)
Fixpoint put_scan_chain (idx : list_t) (a : node_ptr) (k v : string)
    (chain : list info) : put_scan :=
  match chain with
  | [] => PutFellThrough [] false
  | node :: rest =>
      if decide (key node = k) then
        let node1 := mk_info (key node) v (pointer_to_node node) in
        match pointer_to_node node ≫= dll_deref idx with
        | Some dll_node =>
            if decide (key (data dll_node) = k) then
              let idx1 := dll_remove_node idx (node_addr dll_node) in
              let idx2 := dll_add_nth_node idx1 (lsize idx1) node1 a in
              PutReturned
                (mk_info (key node) v (node_addr <$> dll_tail idx2) :: rest) idx2
            else put_scan_cons node1 true (put_scan_chain idx a k v rest)
        | None => put_scan_cons node1 true (put_scan_chain idx a k v rest)
        end
      else put_scan_cons node false (put_scan_chain idx a k v rest)
  end.

(** Unlink the first entry of a chain that carries key [k]. *)
Fixpoint chain_unlink (k : string) (chain : list info) : list info :=
  match chain with
  | [] => []
  | node :: rest =>
      if decide (key node = k) then rest else node :: chain_unlink k rest
  end.

Definition set_bucket (cache : lru_cache) (i : nat) (chain : list info) : lru_cache :=
  mk_cache (<[i := chain]> (buckets cache)) (size cache) (capacity cache)
           (index cache) (brk cache).

(** "Removing the least recently used element": the head of the recency
    list is detached, its entry unlinked from its bucket, its key kept. *)
Definition evict_lru (cache : lru_cache) : lru_cache * option string :=
  match dll_remove_nth_node (index cache) 0 with
  | (idx, Some evicted_node) =>
      let evicted_index := bucket_of cache (key (data evicted_node)) in
      let chain := chain_unlink (key (data evicted_node)) (bucket_at cache evicted_index) in
      (mk_cache (<[evicted_index := chain]> (buckets cache)) (u32 (size cache - 1))
                (capacity cache) idx (brk cache),
       Some (key (data evicted_node)))
  | (idx, None) => (cache, None)
  end.

(** "If the key doesn't exist we create it and put in the map and list". *)
Definition insert_new (cache : lru_cache) (k v : string) : lru_cache :=
  let i := bucket_of cache k in
  let new_info := mk_info k v None in
  let idx := dll_add_nth_node (index cache) (lsize (index cache)) new_info (brk cache) in
  let entry := mk_info k v (node_addr <$> dll_tail idx) in
  mk_cache (<[i := entry :: bucket_at cache i]> (buckets cache)) (u32 (size cache + 1))
           (capacity cache) idx (S (brk cache)).

(** [lru_cache_put].  [evicted_key] tells whether the caller passed a
    non-NULL out-parameter; the third component of the result is what the
    call stored through it, [None] when nothing was stored. *)
Definition lru_cache_put (cache : lru_cache) (k v : string) (evicted_key : bool)
    : lru_cache * bool * option string :=
  let i := bucket_of cache k in
  match put_scan_chain (index cache) (brk cache) k v (bucket_at cache i) with
  | PutReturned chain idx =>
      (mk_cache (<[i := chain]> (buckets cache)) (size cache) (capacity cache)
                idx (S (brk cache)), true, None)
  | PutFellThrough chain found =>
      let c1 := set_bucket cache i chain in
      let '(c2, ev) :=
        if capacity c1 <=? size c1 then evict_lru c1 else (c1, None) in
      let c3 := if found then c2 else insert_new c2 k v in
      (c3, true, if evicted_key then ev else None)
  end.

(** [lru_cache_get]: the first entry of the bucket with the key; on a hit
    the recency node is re-created at the tail and the entry moved to the
    front of its chain ([ll_move_to_front]). *)
Definition lru_cache_get (cache : lru_cache) (k : string) : lru_cache * option string :=
  let i := bucket_of cache k in
  match list_find (λ e, key e = k) (bucket_at cache i) with
  | Some (j, node) =>
      match pointer_to_node node ≫= dll_deref (index cache) with
      | Some dll_node =>
          if decide (key (data dll_node) = k) then
            let idx1 := dll_remove_node (index cache) (node_addr dll_node) in
            let idx2 := dll_add_nth_node idx1 (lsize idx1) node (brk cache) in
            let node' := mk_info (key node) (value node) (node_addr <$> dll_tail idx2) in
            (mk_cache (<[i := node' :: delete j (bucket_at cache i)]> (buckets cache))
                      (size cache) (capacity cache) idx2 (S (brk cache)),
             Some (value node))
          else (cache, Some (value node))
      | None => (cache, Some (value node))
      end
  | None => (cache, None)
  end.

(** [lru_cache_remove]: the entry leaves its chain and its node leaves the
    recency list. *)
Definition lru_cache_remove (cache : lru_cache) (k : string) : lru_cache :=
  let i := bucket_of cache k in
  match list_find (λ e, key e = k) (bucket_at cache i) with
  | Some (j, node) =>
      let idx :=
        match pointer_to_node node with
        | Some p => dll_remove_node (index cache) p
        | None => index cache
        end in
      mk_cache (<[i := delete j (bucket_at cache i)]> (buckets cache))
               (u32 (size cache - 1)) (capacity cache) idx (brk cache)
  | None => cache
  end.

End LRU.

(** ** server.h: requests, responses, the task queue *)

(** Modelled from the spec: constants.h is not among the sources.  The two
    request types are the ones server.c distinguishes. *)
Inductive request_type := EDIT_DOCUMENT | GET_DOCUMENT.

#[global] Instance request_type_eq_dec : EqDecision request_type.
Proof. solve_decision. Defined.

(** [struct request].  [doc_content] is only read for an edit. *)
Record request := mk_request {
  type : request_type;
  doc_name : string;
  doc_content : string
}.

(** Modelled from the spec: the log templates LOG_HIT, LOG_MISS, LOG_EVICT,
    LOG_FAULT and LOG_LAZY_EXEC of constants.h, kept as the template
    together with the arguments [snprintf] receives. *)
Inductive log_msg :=
  | LOG_HIT (name : string)
  | LOG_MISS (name : string)
  | LOG_EVICT (name evicted : string)
  | LOG_FAULT (name : string)
  | LOG_LAZY_EXEC (depth : Z).

(** Modelled from the spec: the response templates MSG_A, MSG_B and MSG_C of
    constants.h; [DOC] is a document's content copied as it is. *)
Inductive response_msg :=
  | MSG_A (request_kind name : string)
  | MSG_B (name : string)
  | MSG_C (name : string)
  | DOC (content : string).

(** [struct response]; a NULL [server_response] is [None]. *)
Record response := mk_response {
  server_log : log_msg;
  server_response : option response_msg;
  response_id : Z
}.

(** [struct queue_t]: a circular buffer; a slot holds the copy of the
    request that [q_enqueue] made, or nothing yet. *)
Record queue_t := mk_queue {
  max_size : Z;
  q_size : Z;
  read_idx : Z;
  write_idx : Z;
  buff : list (option request)
}.

Definition MAX_TASK_QUEUE_SIZE : Z := 1000.

Definition q_create (maxsz : Z) : queue_t :=
  mk_queue maxsz 0 0 0 (replicate (Z.to_nat maxsz) None).

(** [q_enqueue]: 0 and no change on a full queue, else 1. *)
Definition q_enqueue (q : queue_t) (new_data : request) : queue_t * Z :=
  if q_size q =? max_size q then (q, 0)
  else
    (mk_queue (max_size q) (u32 (q_size q + 1)) (read_idx q)
              (u32 (write_idx q + 1) mod max_size q)
              (<[Z.to_nat (write_idx q) := Some new_data]> (buff q)),
     1).

Definition q_get_size (q : queue_t) : Z := q_size q.

Definition q_is_empty (q : queue_t) : bool := q_size q =? 0.

(** [q_dequeue]: NULL on an empty queue, else the slot at [read_idx]. *)
Definition q_dequeue (q : queue_t) : queue_t * option request :=
  if q_size q =? 0 then (q, None)
  else
    (mk_queue (max_size q) (u32 (q_size q - 1))
              (u32 (read_idx q + 1) mod max_size q) (write_idx q) (buff q),
     mjoin (buff q !! Z.to_nat (read_idx q))).

(** [q_front]: NULL on an empty queue, else the slot at [read_idx], which
    stays where it is. *)
Definition q_front (q : queue_t) : option request :=
  if q_size q =? 0 then None else mjoin (buff q !! Z.to_nat (read_idx q)).

(** [q_enqueue] for each request of a list, in order. *)
Definition q_enqueue_all (q : queue_t) (l : list request) : queue_t :=
  foldl (λ q r, (q_enqueue q r).1) q l.

(** [q_dequeue] called [n] times, with what each call returned. *)
Fixpoint q_dequeue_n (n : nat) (q : queue_t) : queue_t * list (option request) :=
  match n with
  | O => (q, [])
  | S n' =>
      let '(q1, r) := q_dequeue q in
      let '(q2, rs) := q_dequeue_n n' q1 in
      (q2, r :: rs)
  end.

(** The address of a [struct server]. *)
Abbreviation server_ptr := nat.

(** [struct server]. *)
Record server := mk_server {
  cache : lru_cache;
  task_queue : queue_t;
  local_db : lru_cache;
  server_id : Z;
  hash : Z;
  original_server : option server_ptr
}.

Definition set_cache (s : server) (c : lru_cache) : server :=
  mk_server c (task_queue s) (local_db s) (server_id s) (hash s) (original_server s).
Definition set_local_db (s : server) (c : lru_cache) : server :=
  mk_server (cache s) (task_queue s) c (server_id s) (hash s) (original_server s).
Definition set_task_queue (s : server) (q : queue_t) : server :=
  mk_server (cache s) q (local_db s) (server_id s) (hash s) (original_server s).

(** ** server.c *)

Section Server.

Variable hash_string : string → Z.

Local Abbreviation lru_cache_get := (lru_cache_get hash_string).
Local Abbreviation lru_cache_put := (lru_cache_put hash_string).

(** [init_server]; the id, the hash and the back-reference are filled in by
    the load balancer. *)
Definition init_server (cache_size : Z) : server :=
  mk_server (init_lru_cache cache_size) (q_create MAX_TASK_QUEUE_SIZE)
            (init_lru_cache (u32 (cache_size * 1000))) 0 0 None.

Definition create_response (log : log_msg) (resp : option response_msg) (id : Z)
    : response :=
  mk_response log resp id.

(** [server_edit_document].  Here and below [s] is the server the C
    function works on after its first lines (the original of a replica,
    else the server itself) and [id] is [serv->server_id]. *)
Definition server_edit_document (s : server) (id : Z) (name content : string)
    : server * response :=
  let '(c1, doc_in_cache) := lru_cache_get (cache s) name in
  match doc_in_cache with
  | None =>
      let '(d1, doc_in_db) := lru_cache_get (local_db s) name in
      match doc_in_db with
      | Some _ =>
          let '(c2, _, evicted_content) := lru_cache_put c1 name content true in
          let '(d2, _, _) := lru_cache_put d1 name content false in
          let s' := set_local_db (set_cache s c2) d2 in
          match evicted_content with
          | Some ev =>
              (s', create_response (LOG_EVICT name ev) (Some (MSG_B name)) id)
          | None =>
              (s', create_response (LOG_MISS name) (Some (MSG_B name)) id)
          end
      | None =>
          let '(d2, _, _) := lru_cache_put d1 name content false in
          let '(c2, _, evicted_content) := lru_cache_put c1 name content true in
          let s' := set_local_db (set_cache s c2) d2 in
          match evicted_content with
          | Some ev =>
              (s', create_response (LOG_EVICT name ev) (Some (MSG_C name)) id)
          | None =>
              (s', create_response (LOG_MISS name) (Some (MSG_C name)) id)
          end
      end
  | Some _ =>
      let '(c2, _, _) := lru_cache_put c1 name content true in
      let '(d2, _, _) := lru_cache_put (local_db s) name content false in
      (set_local_db (set_cache s c2) d2,
       create_response (LOG_HIT name) (Some (MSG_B name)) id)
  end.

(** [server_get_document] *)
Definition server_get_document (s : server) (id : Z) (name : string)
    : server * response :=
  let '(c1, document) := lru_cache_get (cache s) name in
  match document with
  | None =>
      let '(d1, reply) := lru_cache_get (local_db s) name in
      match reply with
      | Some r =>
          let '(c2, _, evicted_content) := lru_cache_put c1 name r true in
          let s' := set_local_db (set_cache s c2) d1 in
          match evicted_content with
          | Some ev => (s', create_response (LOG_EVICT name ev) (Some (DOC r)) id)
          | None => (s', create_response (LOG_MISS name) (Some (DOC r)) id)
          end
      | None =>
          (set_local_db (set_cache s c1) d1,
           create_response (LOG_FAULT name) None id)
      end
  | Some d =>
      (set_cache s c1, create_response (LOG_HIT name) (Some (DOC d)) id)
  end.

(** The loop of [execute_edit_tasks_for_document]: one turn per task while
    [task_queue->size] is not zero.  [n] bounds the number of turns; the
    function below starts it with the size of the queue, which the loop
    never exceeds.  A slot that holds no request is a NULL dereference in
    C; the model stops there. *)
Fixpoint execute_edit_tasks_loop (n : nat) (s : server) (id : Z)
    : server * list response :=
  match n with
  | O => (s, [])
  | S n' =>
      if q_size (task_queue s) =? 0 then (s, [])
      else
        match q_dequeue (task_queue s) with
        | (q', Some req) =>
            let '(s1, resp) :=
              server_edit_document (set_task_queue s q') id (doc_name req)
                                   (doc_content req) in
            let '(s2, printed) := execute_edit_tasks_loop n' s1 id in
            (s2, resp :: printed)
        | (q', None) => (set_task_queue s q', [])
        end
  end.

(** [execute_edit_tasks_for_document]: the responses are the ones handed
    to PRINT_RESPONSE, in the order they are printed. *)
Definition execute_edit_tasks_for_document (s : server) (id : Z)
    : server * list response :=
  execute_edit_tasks_loop (Z.to_nat (q_size (task_queue s))) s id.

(** [server_handle_request]: the new state, what was printed meanwhile, and
    the response returned. *)
Definition server_handle_request (s : server) (id : Z) (req : request)
    : server * list response * response :=
  match type req with
  | EDIT_DOCUMENT =>
      let '(q, _) := q_enqueue (task_queue s) req in
      (set_task_queue s q, [],
       create_response (LOG_LAZY_EXEC (q_get_size q))
                       (Some (MSG_A "EDIT" (doc_name req))) id)
  | GET_DOCUMENT =>
      let '(s1, printed) := execute_edit_tasks_for_document s id in
      let '(s2, res) := server_get_document s1 id (doc_name req) in
      (s2, printed, res)
  end.

End Server.

(** ** load_balancer.c: the data *)

(** The memory the server structs live in: a cell per [malloc]'ed server,
    emptied by [free_server]. *)
Abbreviation heap := (list (option server)).

Definition deref (h : heap) (p : server_ptr) : option server := mjoin (h !! p).
Definition store (h : heap) (p : server_ptr) (s : server) : heap := <[p := Some s]> h.
Definition alloc (h : heap) (s : server) : heap * server_ptr := (h ++ [Some s], length h).
Definition free_server (h : heap) (p : server_ptr) : heap := <[p := None]> h.

(** [struct load_balancer] (load_balancer.h is not among the sources; the
    fields are the ones load_balancer.c uses).  [servers] holds the entries
    of the ring array that are in use; [mem] is the memory its pointers
    refer to and [printed] what PRINT_RESPONSE has written. *)
Record load_balancer := mk_lb {
  servers : list server_ptr;
  nr_servers : Z;
  max_servers : Z;
  enable_vnodes : bool;
  mem : heap;
  printed : list response
}.

Definition set_mem (lb : load_balancer) (h : heap) : load_balancer :=
  mk_lb (servers lb) (nr_servers lb) (max_servers lb) (enable_vnodes lb) h (printed lb).
Definition set_servers (lb : load_balancer) (l : list server_ptr) : load_balancer :=
  mk_lb l (nr_servers lb) (max_servers lb) (enable_vnodes lb) (mem lb) (printed lb).
Definition set_nr_servers (lb : load_balancer) (n : Z) : load_balancer :=
  mk_lb (servers lb) n (max_servers lb) (enable_vnodes lb) (mem lb) (printed lb).
Definition set_max_servers (lb : load_balancer) (n : Z) : load_balancer :=
  mk_lb (servers lb) (nr_servers lb) n (enable_vnodes lb) (mem lb) (printed lb).
Definition print_responses (lb : load_balancer) (l : list response) : load_balancer :=
  mk_lb (servers lb) (nr_servers lb) (max_servers lb) (enable_vnodes lb) (mem lb)
        (printed lb ++ l).

(** [main->servers[i]]: reading outside the array is undefined. *)
Definition server_at (lb : load_balancer) (i : Z) : option server_ptr :=
  if 0 <=? i then servers lb !! Z.to_nat i else None.

(** [*main->servers[i]] *)
Definition entry_at (lb : load_balancer) (i : Z) : option server :=
  server_at lb i ≫= deref (mem lb).

(** The first [nr_servers] entries of the ring, dereferenced. *)
Definition ring_entries (lb : load_balancer) : option (list server) :=
  mapM (deref (mem lb)) (take (Z.to_nat (nr_servers lb)) (servers lb)).

(** [server_id % 100000]: the family of a ring entry. *)
Definition family (id : Z) : Z := id mod 100000.

(** ** load_balancer.c: the operations

    A result [None] stands for undefined behaviour of the C code: a NULL,
    dangling or uninitialised pointer is dereferenced, or an array is read
    out of bounds. *)

Section LoadBalancer.

Variable hash_string : string → Z.
Variable hash_uint : Z → Z.
(** MAX_SERVERS of load_balancer.h. *)
Variable MAX_SERVERS : Z.

Local Abbreviation lru_cache_get := (lru_cache_get hash_string).
Local Abbreviation lru_cache_put := (lru_cache_put hash_string).
Local Abbreviation lru_cache_remove := (lru_cache_remove hash_string).

Definition init_load_balancer (vnodes : bool) : load_balancer :=
  mk_lb [] 0 MAX_SERVERS vnodes [] [].

(** The search loop of [get_insert_poz] from index [i] on. *)
Fixpoint get_insert_poz_loop (l : list server) (i prev_hash h id : Z) : Z :=
  match l with
  | [] => -1
  | sv :: rest =>
      if (h <? hash sv) && (prev_hash <? h) then i
      else if hash sv =? h then (if server_id sv <? id then i else i + 1)
      else get_insert_poz_loop rest (i + 1) (hash sv) h id
  end.

(** [get_insert_poz] *)
Definition get_insert_poz (lb : load_balancer) (h id : Z) : option Z :=
  last_sv ← entry_at lb (nr_servers lb - 1);
  if hash last_sv <? h then Some (-1)
  else if hash last_sv =? h then
    (if server_id last_sv <? id then Some (-1) else Some (nr_servers lb - 1))
  else
    l ← ring_entries lb;
    Some (get_insert_poz_loop l 0 0 h id).

(** [get_all_keys]: the keys of the local database, bucket after bucket. *)
Definition get_all_keys (s : server) : list string :=
  key <$> concat (buckets (local_db s)).

(** [should_redistribute] *)
Definition should_redistribute (new_server next_server : server) (pos h : Z) : bool :=
  if (pos =? 0) && ((hash next_server <? h) || (h <=? hash new_server)) then true
  else if negb (pos =? 0) && negb (pos =? -1) && (h <=? hash new_server) then true
  else if (pos =? -1) && (hash next_server <? h) && (h <=? hash new_server) then true
  else false.

(** The server a structure's storage lives in: its original if it is a
    replica, else itself. *)
Definition primary_of (h : heap) (p : server_ptr) : option server_ptr :=
  sv ← deref h p;
  Some (default p (original_server sv)).

(** First position of the ring whose entry passes [f]. *)
Definition find_entry (lb : load_balancer) (f : server → bool) : option (option server_ptr) :=
  l ← ring_entries lb;
  Some ((λ r, r.2.1) <$> list_find (λ x, f x.2 = true) (zip (servers lb) l)).

(** The entry [redistribute_keys] computes in [serv]: the owner of hash [h]
    among the entries outside the family of the new server. *)
Definition redistribute_owner (lb : load_balancer) (new_s : server) (h : Z)
    : option (option server_ptr) :=
  last_sv ← entry_at lb (nr_servers lb - 1);
  if (hash last_sv <=? h)
     && negb (family (server_id last_sv) =? family (server_id new_s))
  then Some <$> server_at lb 0
  else
    find_entry lb (λ sv, (h <=? hash sv)
                  && negb (family (server_id sv) =? family (server_id new_s))).

(** One turn of the loop of [redistribute_keys], for the key [k]. *)
Definition redistribute_key (lb : load_balancer) (k : string)
    (new_p next_p : server_ptr) (poz : Z) : option load_balancer :=
  new_s ← deref (mem lb) new_p;
  next_s ← deref (mem lb) next_p;
  let h := u32 (hash_string k) in
  serv ← redistribute_owner lb new_s h;
  let ok := should_redistribute new_s next_s poz h in
  if ok && (negb (enable_vnodes lb) || bool_decide (serv = Some next_p)) then
    let next := default next_p (original_server next_s) in
    let new := default new_p (original_server new_s) in
    next_sv ← deref (mem lb) next;
    let '(db1, value) := lru_cache_get (local_db next_sv) k in
    v ← value;
    let m1 := store (mem lb) next (set_local_db next_sv db1) in
    new_sv ← deref m1 new;
    let '(db2, _, _) := lru_cache_put (local_db new_sv) k v false in
    let m2 := store m1 new (set_local_db new_sv db2) in
    next_sv2 ← deref m2 next;
    let m3 := store m2 next (set_cache next_sv2 (lru_cache_remove (cache next_sv2) k)) in
    next_sv3 ← deref m3 next;
    let m4 := store m3 next
                (set_local_db next_sv3 (lru_cache_remove (local_db next_sv3) k)) in
    Some (set_mem lb m4)
  else Some lb.

(** The loop of [redistribute_keys] over [key_list[i]], [i < nr_keys]. *)
Fixpoint redistribute_keys_loop (lb : load_balancer) (key_list : list string)
    (n : nat) (i : nat) (new_p next_p : server_ptr) (poz : Z) : option load_balancer :=
  match n with
  | O => Some lb
  | S n' =>
      k ← key_list !! i;
      lb1 ← redistribute_key lb k new_p next_p poz;
      redistribute_keys_loop lb1 key_list n' (S i) new_p next_p poz
  end.

(** [redistribute_keys] *)
Definition redistribute_keys (lb : load_balancer) (key_list : list string)
    (new_p next_p : server_ptr) (poz : Z) : option load_balancer :=
  next_s ← deref (mem lb) next_p;
  next_sv ← deref (mem lb) (default next_p (original_server next_s));
  let nr_keys := size (local_db next_sv) in
  redistribute_keys_loop lb key_list (Z.to_nat nr_keys) 0 new_p next_p poz.

(** [find_server_index]: -1 when no entry has the id. *)
Definition find_server_index (lb : load_balancer) (id : Z) : option Z :=
  l ← ring_entries lb;
  Some (from_option (λ r, Z.of_nat r.1) (-1)
          (list_find (λ sv, server_id sv = id) l)).

(** The loop of [find_next_server]: [index] advances around the ring until
    it meets an entry of another family or comes back to [current_index]. *)
Fixpoint find_next_server_loop (lb : load_balancer) (n : nat)
    (index current_index : Z) : option (option server_ptr) :=
  match n with
  | O => None
  | S n' =>
      if index =? current_index then Some None
      else
        sv ← entry_at lb index;
        cur ← entry_at lb current_index;
        if negb (family (server_id sv) =? family (server_id cur))
        then Some <$> server_at lb index
        else find_next_server_loop lb n' ((index + 1) `rem` nr_servers lb) current_index
  end.

(** [find_next_server]; the division by [nr_servers] is undefined for an
    empty ring.  A search that never meets [current_index] again does not
    return, which is [None] here too. *)
Definition find_next_server (lb : load_balancer) (current_index : Z)
    : option (option server_ptr) :=
  if nr_servers lb =? 0 then None
  else find_next_server_loop lb (S (Z.to_nat (nr_servers lb)))
         ((current_index + 1) `rem` nr_servers lb) current_index.

(** [execute_edit_tasks_for_document] on the server at [serv]. *)
Definition flush_tasks (lb : load_balancer) (serv : server_ptr) : option load_balancer :=
  sv ← deref (mem lb) serv;
  let p := default serv (original_server sv) in
  s ← deref (mem lb) p;
  let '(s', out) := execute_edit_tasks_for_document hash_string s (server_id sv) in
  Some (print_responses (set_mem lb (store (mem lb) p s')) out).

(** The migration [insert_server] runs from the donor [next_p].  With
    virtual nodes the keys are listed from the donor's original, without
    them from the donor itself. *)
Definition migrate_from (lb : load_balancer) (s next_p : server_ptr) (poz : Z)
    : option load_balancer :=
  lb1 ← flush_tasks lb next_p;
  next_s ← deref (mem lb1) next_p;
  holder ← deref (mem lb1)
    (if enable_vnodes lb then default next_p (original_server next_s) else next_p);
  redistribute_keys lb1 (get_all_keys holder) s next_p poz.

(** [insert_server] *)
Definition insert_server (lb : load_balancer) (s : server_ptr) : option load_balancer :=
  sv ← deref (mem lb) s;
  poz ← get_insert_poz lb (hash sv) (server_id sv);
  lb2 ←
    (if poz =? -1 then
       let lb1 := set_servers lb (take (Z.to_nat (nr_servers lb)) (servers lb) ++ [s]) in
       if negb (enable_vnodes lb) then
         first ← server_at lb1 0;
         migrate_from lb1 s first poz
       else
         next_server ← find_entry lb1 (λ x, negb (family (server_id x) =? family (server_id sv)));
         match next_server with
         | Some next_p => migrate_from lb1 s next_p poz
         | None => Some lb1
         end
     else
       let i := Z.to_nat poz in
       let lb1 := set_servers lb (take i (servers lb) ++ s :: drop i (servers lb)) in
       if negb (enable_vnodes lb) then
         next_p ← server_at lb1 (poz + 1);
         migrate_from lb1 s next_p poz
       else
         next_server ← find_next_server lb1 poz;
         match next_server with
         | Some next_p => migrate_from lb1 s next_p poz
         | None => Some lb1
         end);
  Some (set_nr_servers lb2 (nr_servers lb2 + 1)).

(** A server as [loader_add_server] sets it up. *)
Definition new_server (cache_size id : Z) (orig : option server_ptr) : server :=
  let s := init_server cache_size in
  mk_server (cache s) (task_queue s) (local_db s) id (u32 (hash_uint id)) orig.

(** [loader_add_server] *)
Definition loader_add_server (lb : load_balancer) (id cache_size : Z)
    : option load_balancer :=
  let '(m1, s) := alloc (mem lb) (new_server cache_size id None) in
  let '(m2, copy1) :=
    if enable_vnodes lb
    then alloc m1 (new_server cache_size (u32 (id + 100000)) (Some s))
    else (m1, s) in
  let '(m3, copy2) :=
    if enable_vnodes lb
    then alloc m2 (new_server cache_size (u32 (id + 2 * 100000)) (Some s))
    else (m2, s) in
  let lb0 := set_mem lb m3 in
  if nr_servers lb0 =? 0 then
    let lb1 := set_servers (set_nr_servers lb0 (nr_servers lb0 + 1)) [s] in
    if enable_vnodes lb then
      lb2 ← insert_server lb1 copy1;
      insert_server lb2 copy2
    else Some lb1
  else
    let lb1 :=
      if max_servers lb0 <=? nr_servers lb0 + 3
      then set_max_servers lb0 (max_servers lb0 * 2) else lb0 in
    if enable_vnodes lb then
      lb2 ← insert_server lb1 s;
      lb3 ← insert_server lb2 copy1;
      insert_server lb3 copy2
    else insert_server lb1 s.

(** The loops of [remove_replicas] and [loader_remove_server] that copy the
    keys of the server at [target] into a neighbour: turn [j] runs while
    [j < target->local_db->size], a bound read again at every turn.  With
    [resolve] the neighbour's original receives the pairs, with [remove]
    the key leaves the target's database after it was copied.  [n] bounds
    the number of turns. *)
Fixpoint copy_keys_loop (n : nat) (lb : load_balancer) (keys : list string)
    (j : nat) (target : server_ptr) (next_server : option server_ptr)
    (resolve remove : bool) : option load_balancer :=
  match n with
  | O => None
  | S n' =>
      t ← deref (mem lb) target;
      if Z.of_nat j <? size (local_db t) then
        k ← keys !! j;
        let '(db1, value) := lru_cache_get (local_db t) k in
        v ← value;
        let m1 := store (mem lb) target (set_local_db t db1) in
        next_p ← next_server;
        next_s ← deref m1 next_p;
        let dest := if resolve then default next_p (original_server next_s) else next_p in
        d ← deref m1 dest;
        let '(db2, _, _) := lru_cache_put (local_db d) k v false in
        let m2 := store m1 dest (set_local_db d db2) in
        m3 ← (if remove then
                t2 ← deref m2 target;
                Some (store m2 target
                        (set_local_db t2 (lru_cache_remove (local_db t2) k)))
              else Some m2);
        copy_keys_loop n' (set_mem lb m3) keys (S j) target next_server resolve remove
      else Some lb
  end.

Definition copy_keys (lb : load_balancer) (target : server_ptr)
    (next_server : option server_ptr) (resolve remove : bool) : option load_balancer :=
  t ← deref (mem lb) target;
  copy_keys_loop (S (Z.to_nat (size (local_db t)))) lb (get_all_keys t) 0
                 target next_server resolve remove.

(** One turn of the loop over the replicas in [remove_replicas]. *)
Definition remove_replica (lb : load_balancer) (target : server_ptr) (id i : Z)
    : option load_balancer :=
  replica_idx ← find_server_index lb (u32 (id + i * 100000));
  if replica_idx =? -1 then Some lb
  else
    next_server ← find_next_server lb replica_idx;
    copy_keys lb target next_server true false.

(** [remove_replicas] *)
Definition remove_replicas (lb : load_balancer) (id : Z) : option load_balancer :=
  idx ← find_server_index lb (family id);
  if idx =? -1 then Some lb
  else
    target_server ← server_at lb idx;
    lb1 ← remove_replica lb target_server (family id) 1;
    lb2 ← remove_replica lb1 target_server (family id) 2;
    next_server ← find_next_server lb2 idx;
    copy_keys lb2 target_server next_server true true.

(** The loop of [loader_remove_server] from index [i] on; [ok] is the
    cell [ok[server_id]].  Every turn either moves [i] forward or removes
    an entry, so [nr_servers] turns reach the end of the ring. *)
Fixpoint loader_remove_server_loop (n : nat) (lb : load_balancer) (id i : Z)
    (ok : bool) : option load_balancer :=
  match n with
  | O => None
  | S n' =>
      if i <? nr_servers lb then
        p ← server_at lb i;
        sv ← deref (mem lb) p;
        if family (server_id sv) =? id then
          next_s ← (if i =? nr_servers lb - 1 then server_at lb 0
                    else server_at lb (i + 1));
          lb1 ←
            (if enable_vnodes lb && negb ok then
               match original_server sv with
               | Some serv =>
                   lb' ← flush_tasks lb serv;
                   o ← deref (mem lb') serv;
                   remove_replicas lb' (server_id o)
               | None => Some lb
               end
             else if negb (enable_vnodes lb) then
               lb' ← flush_tasks lb p;
               copy_keys lb' p (Some next_s) false false
             else Some lb);
          let lb2 := set_mem lb1 (free_server (mem lb1) p) in
          let lb3 := set_servers lb2 (delete (Z.to_nat i) (servers lb2)) in
          loader_remove_server_loop n' (set_nr_servers lb3 (nr_servers lb3 - 1)) id i true
        else loader_remove_server_loop n' lb id (i + 1) ok
      else Some lb
  end.

(** [loader_remove_server] *)
Definition loader_remove_server (lb : load_balancer) (id : Z) : option load_balancer :=
  lb1 ← loader_remove_server_loop (S (Z.to_nat (nr_servers lb))) lb id 0 false;
  Some (if nr_servers lb1 <? max_servers lb1 `quot` 2
        then set_max_servers lb1 (max_servers lb1 `quot` 2) else lb1).

(** The choice of [target_server] in [loader_forward_request]; [None] is a
    variable that was never assigned. *)
Definition forward_target (lb : load_balancer) (h : Z) : option (option server_ptr) :=
  last_sv ← entry_at lb (nr_servers lb - 1);
  if hash last_sv <? h then Some <$> server_at lb 0
  else find_entry lb (λ sv, h <? hash sv).

(** [loader_forward_request]: the response returned; what the servers
    printed meanwhile is added to [printed]. *)
Definition loader_forward_request (lb : load_balancer) (req : request)
    : option (load_balancer * response) :=
  let h := u32 (hash_string (doc_name req)) in
  t ← forward_target lb h;
  target0 ← t;
  tsv ← deref (mem lb) target0;
  let id := family (server_id tsv) in
  target_server ←
    (if bool_decide (type req = GET_DOCUMENT) && enable_vnodes lb then
       r ← find_entry lb (λ sv, (family (server_id sv) =? id)
                                 && (h <? u32 (hash_uint (server_id sv))));
       Some (default target0 r)
     else Some target0);
  serv ← deref (mem lb) target_server;
  let p := default target_server (original_server serv) in
  s ← deref (mem lb) p;
  let '(s', out, res) := server_handle_request hash_string s (server_id serv) req in
  Some (print_responses (set_mem lb (store (mem lb) p s')) out, res).

End LoadBalancer.

(** ** The representation invariant of a cache *)

(** The entry a recency node stands for: its key, its value, and the
    node's own address as back-reference. *)
Definition node_view (n : dll_node_t) : info :=
  mk_info (key (data n)) (value (data n)) (Some (node_addr n)).

(** All bucket entries, bucket after bucket. *)
Definition entries (c : lru_cache) : list info := concat (buckets c).

(** The pairs of the cache from least to most recently used. *)
Definition kv (n : dll_node_t) : string * string := (key (data n), value (data n)).

Definition contents (c : lru_cache) : list (string * string) :=
  kv <$> nodes (index c).

Definition recency_keys (c : lru_cache) : list string :=
  (λ n, key (data n)) <$> nodes (index c).

Section Invariant.

Variable hash_string : string → Z.

Record wf_cache (c : lru_cache) : Prop := mk_wf {
  wf_capacity : 0 < capacity c < UINT_MOD;
  wf_buckets : length (buckets c) = Z.to_nat (capacity c);
  wf_size : size c = Z.of_nat (length (nodes (index c)));
  wf_lsize : lsize (index c) = size c;
  wf_bound : size c ≤ capacity c;
  wf_addr : NoDup (node_addr <$> nodes (index c));
  wf_brk : Forall (λ n, (node_addr n < brk c)%nat) (nodes (index c));
  wf_keys : NoDup (recency_keys c);
  wf_home : ∀ i chain e,
      buckets c !! i = Some chain → e ∈ chain → bucket_of hash_string c (key e) = i;
  wf_link : entries c ≡ₚ node_view <$> nodes (index c)
}.

End Invariant.

(** ** Sequences of cache operations *)

Inductive cache_op :=
  | OpPut (k v : string) (evicted_key : bool)
  | OpGet (k : string)
  | OpRemove (k : string).

Section CacheRuns.

Variable hash_string : string → Z.

Definition run_op (c : lru_cache) (op : cache_op) : lru_cache :=
  match op with
  | OpPut k v evicted_key => (lru_cache_put hash_string c k v evicted_key).1.1
  | OpGet k => (lru_cache_get hash_string c k).1
  | OpRemove k => lru_cache_remove hash_string c k
  end.

Definition run_ops (c : lru_cache) (ops : list cache_op) : lru_cache :=
  foldl run_op c ops.

End CacheRuns.

(** What the specification asks of a cache: the size stays within the
    capacity; bucket entries and recency nodes are as many, no key occurs
    twice on either side, and the back-reference of every entry designates
    a recency node that carries the entry's key. *)
Record lru_invariant (c : lru_cache) : Prop := mk_lru_invariant {
  inv_size : size c ≤ capacity c;
  inv_count : length (entries c) = length (nodes (index c));
  inv_entry_keys : NoDup (key <$> entries c);
  inv_node_keys : NoDup (recency_keys c);
  inv_node_addrs : NoDup (node_addr <$> nodes (index c));
  inv_back_reference : ∀ e, e ∈ entries c →
    ∃ n, n ∈ nodes (index c) ∧ pointer_to_node e = Some (node_addr n)
         ∧ key (data n) = key e;
  inv_onto : ∀ n, n ∈ nodes (index c) →
    ∃ e, e ∈ entries c ∧ pointer_to_node e = Some (node_addr n)
         ∧ key e = key (data n)
}.

(** ** The task queue as a sequence *)

(** The slot [j] places after [read_idx]. *)
Definition q_slot (q : queue_t) (j : nat) : option request :=
  mjoin (buff q !! Z.to_nat ((read_idx q + Z.of_nat j) mod max_size q)).

(** The requests waiting in the queue, oldest first. *)
Definition pending (q : queue_t) : list request :=
  omap (q_slot q) (seq 0 (Z.to_nat (q_size q))).

Record wf_queue (q : queue_t) : Prop := mk_wf_queue {
  wfq_max : 0 < max_size q < UINT_MOD;
  wfq_buff : length (buff q) = Z.to_nat (max_size q);
  wfq_size : 0 ≤ q_size q ≤ max_size q;
  wfq_read : 0 ≤ read_idx q < max_size q;
  wfq_write : write_idx q = (read_idx q + q_size q) mod max_size q;
  wfq_slots : ∀ j, (j < Z.to_nat (q_size q))%nat → is_Some (q_slot q j)
}.

(** The queue once every request has been taken out. *)
Definition drained (q : queue_t) : queue_t :=
  mk_queue (max_size q) 0 (write_idx q) (write_idx q) (buff q).

Section Edits.

Variable hash_string : string → Z.

(** Applying a sequence of edits, one after the other. *)
Fixpoint apply_edits (l : list request) (s : server) (id : Z)
    : server * list response :=
  match l with
  | [] => (s, [])
  | req :: l' =>
      let '(s1, resp) :=
        server_edit_document hash_string s id (doc_name req) (doc_content req) in
      let '(s2, out) := apply_edits l' s1 id in
      (s2, resp :: out)
  end.

(** A server handling a sequence of requests, one after the other. *)
Definition handle_requests (s : server) (id : Z) (reqs : list request) : server :=
  foldl (λ s r, (server_handle_request hash_string s id r).1.1) s reqs.

End Edits.

(** ** Servers in a consistent state *)

Section ServerInvariant.

Variable hash_string : string → Z.

(** What [init_server] sets up and the requests maintain. *)
Record wf_server (s : server) : Prop := mk_wf_server {
  wfs_cache : wf_cache hash_string (cache s);
  wfs_db : wf_cache hash_string (local_db s);
  wfs_queue : wf_queue (task_queue s);
  wfs_queue_max : max_size (task_queue s) = MAX_TASK_QUEUE_SIZE;
  wfs_db_capacity : capacity (local_db s) = u32 (capacity (cache s) * 1000)
}.

End ServerInvariant.

(** The pair [(k, v)] is in the cache and every pair used more recently
    has its key in [T]. *)
Definition recent (c : lru_cache) (k v : string) (T : list string) : Prop :=
  ∃ p1 p2, contents c = p1 ++ (k, v) :: p2 ∧ Forall (λ x, x.1 ∈ T) p2.

(** If the cache holds [k] at all, it holds it with value [v]. *)
Definition agrees (c : lru_cache) (k v : string) : Prop :=
  ∀ v', (k, v') ∈ contents c → v' = v.

Section TrackedDocument.

Variable hash_string : string → Z.
Variables (k v : string).

(** [tracked c T]: the cache never holds [k] with another value than [v],
    and it holds the pair as long as [T], the keys written since, are
    fewer than its capacity. *)
Definition tracked (c : lru_cache) (T : list string) : Prop :=
  wf_cache hash_string c ∧ agrees c k v
  ∧ (Z.of_nat (length T) ≤ capacity c - 1 → recent c k v T).

(** The same while the key [k'] is being written. *)
Definition touching (c : lru_cache) (k' : string) (T : list string) : Prop :=
  wf_cache hash_string c ∧ agrees c k v
  ∧ (Z.of_nat (length T) < capacity c - 1 → recent c k v (k' :: T)).

End TrackedDocument.

(** ** The ring order and the placement of documents *)

(** Hash and id of the ring entries, in ring order. *)
Definition ring_keys (lb : load_balancer) : option (list (Z * Z)) :=
  match ring_entries lb with
  | Some l => Some ((λ sv, (hash sv, server_id sv)) <$> l)
  | None => None
  end.

(** "hash ascending, ties broken by server id ascending" *)
Definition ring_le (a b : Z * Z) : Prop :=
  a.1 < b.1 ∨ (a.1 = b.1 ∧ a.2 ≤ b.2).

Definition ring_sorted (l : list (Z * Z)) : Prop := Sorted ring_le l.

#[global] Instance ring_le_trans : Transitive ring_le.
Proof. intros [a1 a2] [b1 b2] [c1 c2]. unfold ring_le. simpl. lia. Qed.

(** The entry the specification routes hash [h] to: the first one whose
    hash strictly exceeds [h], the entry at index 0 when there is none. *)
Definition ring_owner (lb : load_balancer) (l : list server) (h : Z)
    : option server_ptr :=
  match list_find (λ x, h < hash x.2) (zip (servers lb) l) with
  | Some (_, x) => Some x.1
  | None => server_at lb 0
  end.

(** The primary at [p] has key [k] in its local database. *)
Definition db_holds (lb : load_balancer) (p : server_ptr) (k : string) : Prop :=
  ∃ s, deref (mem lb) p = Some s ∧ original_server s = None ∧ k ∈ get_all_keys s.

(** No key is in the local databases of two primaries of the ring. *)
Definition db_disjoint (lb : load_balancer) : Prop :=
  ∀ k p1 p2, p1 ∈ servers lb → p2 ∈ servers lb →
    db_holds lb p1 k → db_holds lb p2 k → p1 = p2.

(** The keys a server is responsible for: those of its database and those
    of the edits waiting in its queue. *)
Definition held_keys (s : server) : list string :=
  get_all_keys s ++ (doc_name <$> pending (task_queue s)).

(** No key is held by two servers of the ring. *)
Definition held_once (lb : load_balancer) : Prop :=
  ∀ k p1 p2 s1 s2, p1 ∈ servers lb → p2 ∈ servers lb →
    deref (mem lb) p1 = Some s1 → deref (mem lb) p2 = Some s2 →
    k ∈ held_keys s1 → k ∈ held_keys s2 → p1 = p2.

Section BalancerInvariant.

Variable hash_string : string → Z.

(** The entries of the ring array are distinct pointers to servers in a
    consistent state, each its own original. *)
Definition servers_ok (lb : load_balancer) : Prop :=
  NoDup (servers lb)
  ∧ ∀ p, p ∈ servers lb →
      ∃ s, deref (mem lb) p = Some s ∧ wf_server hash_string s
           ∧ original_server s = None.

(** A balancer without virtual nodes in a consistent state. *)
Record wf_balancer (lb : load_balancer) : Prop := mk_wf_balancer {
  wfb_vnodes : enable_vnodes lb = false;
  wfb_nr : nr_servers lb = Z.of_nat (length (servers lb));
  wfb_servers : servers_ok lb
}.

(** The state in the middle of [insert_server]: the new entry is in the
    array already, [nr_servers] may not count it yet. *)
Definition migrating (lb : load_balancer) : Prop :=
  enable_vnodes lb = false ∧ servers_ok lb
  ∧ 1 ≤ nr_servers lb ≤ Z.of_nat (length (servers lb)).

End BalancerInvariant.

(** Two states with the same ring array over memories of the same size. *)
Definition same_ring (lb lb' : load_balancer) : Prop :=
  servers lb' = servers lb ∧ nr_servers lb' = nr_servers lb
  ∧ max_servers lb' = max_servers lb ∧ enable_vnodes lb' = enable_vnodes lb
  ∧ length (mem lb') = length (mem lb).

(** Between two states only the servers at [D] and [N] changed. *)
Definition only_changed (lb lb' : load_balancer) (D N : server_ptr) : Prop :=
  same_ring lb lb'
  ∧ ∀ p, p ≠ D → p ≠ N → deref (mem lb') p = deref (mem lb) p.

Section Copying.

Variable hash_string : string → Z.

(** What the copy loop of a removal maintains: the departing server, at
    [p], keeps the keys of [t0]; the neighbour, at [next], holds nothing
    but the keys of [x0] and copied ones. *)
Definition copying (lb0 lb : load_balancer) (p next : server_ptr)
    (t0 x0 : server) : Prop :=
  only_changed lb0 lb p next
  ∧ ∃ t x, deref (mem lb) p = Some t ∧ wf_server hash_string t
      ∧ original_server t = None
      ∧ size (local_db t) = size (local_db t0)
      ∧ (∀ k, k ∈ get_all_keys t0 → k ∈ get_all_keys t)
      ∧ deref (mem lb) next = Some x ∧ wf_server hash_string x
      ∧ original_server x = None
      ∧ task_queue x = task_queue x0
      ∧ (∀ k, k ∈ get_all_keys x → k ∈ get_all_keys x0 ∨ k ∈ get_all_keys t0).

End Copying.

(** Two states of one server. *)
Definition same_identity (s s' : server) : Prop :=
  server_id s' = server_id s ∧ hash s' = hash s
  ∧ original_server s' = original_server s.

(** Hash and id of the server a pointer designates. *)
Definition key_at (h : heap) (p : server_ptr) : option (Z * Z) :=
  (λ s, (hash s, server_id s)) <$> deref h p.

(** What the ring reads of a server: its hash, its id, its original. *)
Definition identity (s : server) : Z * Z * option server_ptr :=
  (hash s, server_id s, original_server s).

(** Two memories whose servers have the same identities. *)
Definition same_ids (h h' : heap) : Prop :=
  ∀ p, identity <$> deref h' p = identity <$> deref h p.

(** Two states with the same ring array over servers of the same
    identities. *)
Definition same_entries (lb lb' : load_balancer) : Prop :=
  servers lb' = servers lb ∧ nr_servers lb' = nr_servers lb
  ∧ max_servers lb' = max_servers lb ∧ enable_vnodes lb' = enable_vnodes lb
  ∧ same_ids (mem lb) (mem lb').

(** ** Concrete balancers

    The hash functions are injected; the runs below use two simple ones. *)

(** A string hash: the code of the first byte. *)
Definition first_byte_hash (s : string) : Z :=
  match s with
  | EmptyString => 0
  | String a _ => Z.of_N (Ascii.N_of_ascii a)
  end.

(** An integer hash: the identity. *)
Definition identity_hash (id : Z) : Z := id.

(** An integer hash given by a table, for a ring of three servers with
    their replicas. *)
Definition table_hash (id : Z) : Z :=
  if id =? 100001 then 10 else if id =? 2 then 20 else if id =? 1 then 30
  else if id =? 3 then 40 else if id =? 200001 then 50
  else if id =? 100003 then 60 else if id =? 100002 then 70
  else if id =? 200002 then 80 else 90.

Definition add_server (hu : Z → Z) (id : Z) (lb : load_balancer) : option load_balancer :=
  loader_add_server first_byte_hash hu lb id 2.

Definition remove_server (id : Z) (lb : load_balancer) : option load_balancer :=
  loader_remove_server first_byte_hash lb id.

Definition forward (hu : Z → Z) (t : request_type) (name content : string)
    (lb : load_balancer) : option (load_balancer * response) :=
  loader_forward_request first_byte_hash hu lb (mk_request t name content).

(** Two servers, the second with hash 0. *)
Definition ring_5_0 : option load_balancer :=
  add_server identity_hash 5 (init_load_balancer 8 false) ≫= add_server identity_hash 0.

(** One server whose hash is the hash of the document "d". *)
Definition ring_100 : option load_balancer :=
  add_server identity_hash 100 (init_load_balancer 8 false).

(** Four servers, the document "d" edited and read. *)
Definition ring_before_remove : option (load_balancer * response) :=
  lb ← add_server identity_hash 90 (init_load_balancer 8 false);
  lb ← add_server identity_hash 110 lb;
  lb ← add_server identity_hash 0 lb;
  lb ← add_server identity_hash 130 lb;
  r ← forward identity_hash EDIT_DOCUMENT "d" "v" lb;
  forward identity_hash GET_DOCUMENT "d" "" r.1.

Definition ring_after_remove : option (load_balancer * response) :=
  r ← ring_before_remove;
  lb ← remove_server 110 r.1;
  forward identity_hash GET_DOCUMENT "d" "" lb.

(** Three servers with virtual nodes, a document stored, the first
    server removed. *)
Definition vnodes_after_remove : option load_balancer :=
  lb ← add_server table_hash 1 (init_load_balancer 16 true);
  lb ← add_server table_hash 2 lb;
  lb ← add_server table_hash 3 lb;
  r ← forward table_hash EDIT_DOCUMENT "key" "v" lb;
  r ← forward table_hash GET_DOCUMENT "key" "" r.1;
  remove_server 1 r.1.

(** A cache of capacity 2 holding "A" then "B". *)
Definition cache_ab : lru_cache :=
  run_ops first_byte_hash (init_lru_cache 2)
          [OpPut "A" "1" true; OpPut "B" "2" true].

(** A server with two edits of one document waiting. *)
Definition server_two_edits : server :=
  let s0 := init_server 2 in
  let s1 := (server_handle_request first_byte_hash s0 7
               (mk_request EDIT_DOCUMENT "doc" "hi")).1.1 in
  (server_handle_request first_byte_hash s1 7
     (mk_request EDIT_DOCUMENT "doc" "bye")).1.1.

(** A server whose task queue is full. *)
Definition server_full_queue : server :=
  set_task_queue (init_server 2)
    (mk_queue 1000 1000 0 0 (replicate 1000 (Some (mk_request EDIT_DOCUMENT "a" "b")))).

(** The balancer of [ring_100]. *)
Definition balancer_100 : load_balancer :=
  default (init_load_balancer 8 false) ring_100.

(** A cache of capacity 2 holding "A" only. *)
Definition cache_a : lru_cache :=
  run_ops first_byte_hash (init_lru_cache 2) [OpPut "A" "1" true].

(** A server with a cache for one document after two edits and a read:
    the cache holds "b", the database "a" and "b". *)
Definition server_ab : server :=
  handle_requests first_byte_hash (init_server 1) 7
    [mk_request EDIT_DOCUMENT "a" "x"; mk_request EDIT_DOCUMENT "b" "y";
     mk_request GET_DOCUMENT "b" ""].

(** Servers 100 and 50 under the identity hash. *)
Definition balancer_two : load_balancer :=
  default (init_load_balancer 8 false) (ring_100 ≫= add_server identity_hash 50).

Lemma u32_small x : 0 ≤ x < UINT_MOD → u32 x = x.
Proof. intros H. unfold u32. by apply Z.mod_small. Qed.

(** * Lists: splitting at an element with a unique tag *)

Section Unique.
Context {A B : Type} `{EqDecision B} (tag : A → B).

Lemma filter_tag_absent (l : list A) (b : B) :
  b ∉ tag <$> l → filter (λ x, (tag x ≠ b)) l = l.
Proof.
  induction l as [|x l IH]; simpl; intros H; [done|].
  rewrite not_elem_of_cons in H. destruct H as [H1 H2].
  rewrite filter_cons_True by congruence. by rewrite IH.
Qed.

Lemma unique_split (l : list A) (x : A) :
  NoDup (tag <$> l) → x ∈ l →
  ∃ l1 l2, l = l1 ++ x :: l2 ∧ (tag x ∉ tag <$> l1) ∧ (tag x ∉ tag <$> l2).
Proof.
  intros Hnd Hx. apply list_elem_of_split in Hx as (l1 & l2 & ->).
  exists l1, l2. split; [done|].
  rewrite fmap_app, fmap_cons in Hnd.
  apply NoDup_app in Hnd as (_ & H1 & H2).
  apply NoDup_cons in H2 as [H2 _]. split; [|done].
  intros H. apply (H1 _ H). left.
Qed.

Lemma filter_tag_split (l1 l2 : list A) (x : A) (b : B) :
  tag x = b → b ∉ (tag <$> l1) → b ∉ (tag <$> l2) →
  filter (λ y, tag y ≠ b) (l1 ++ x :: l2) = l1 ++ l2.
Proof.
  intros <- H1 H2. rewrite filter_app, filter_cons_False by (intros H; by apply H).
  by rewrite !filter_tag_absent.
Qed.

Lemma list_find_tag_split (l1 l2 : list A) (x : A) (b : B) :
  tag x = b → b ∉ (tag <$> l1) →
  list_find (λ y, tag y = b) (l1 ++ x :: l2) = Some (length l1, x).
Proof.
  intros <- H1. apply list_find_Some. split_and!.
  - by rewrite list_lookup_middle.
  - done.
  - intros j y Hj Hlt Heq. rewrite lookup_app_l in Hj by done.
    apply H1. rewrite <- Heq. apply list_elem_of_fmap. exists y. split; [done|].
    by eapply list_elem_of_lookup_2.
Qed.

Lemma list_find_tag_None (l : list A) (b : B) :
  b ∉ tag <$> l → list_find (λ y, tag y = b) l = None.
Proof.
  intros H. apply list_find_None. apply Forall_forall. intros y Hy Heq.
  apply H. rewrite <- Heq. apply list_elem_of_fmap. eauto.
Qed.

End Unique.

(** * Buckets *)

Lemma concat_bucket (bs : list (list info)) i ch :
  bs !! i = Some ch → concat bs ≡ₚ ch ++ concat (<[i := []]> bs).
Proof.
  intros H. rewrite <- (take_drop_middle bs i ch H) at 1.
  rewrite insert_take_drop by (by eapply lookup_lt_Some).
  rewrite !concat_app, !concat_cons. simpl.
  by rewrite Permutation_app_swap_app.
Qed.

Lemma concat_insert_bucket (bs : list (list info)) i ch :
  (i < length bs)%nat → concat (<[i := ch]> bs) ≡ₚ ch ++ concat (<[i := []]> bs).
Proof.
  intros H. rewrite !insert_take_drop by done.
  rewrite !concat_app, !concat_cons. simpl.
  by rewrite Permutation_app_swap_app.
Qed.

Lemma elem_of_concat_insert (bs : list (list info)) i ch e :
  e ∈ concat (<[i := ch]> bs) →
  e ∈ ch ∨ ∃ j chain, j ≠ i ∧ bs !! j = Some chain ∧ e ∈ chain.
Proof.
  intros H. apply list_elem_of_In, in_concat in H as (chain & Hc & He).
  apply list_elem_of_In in Hc, He.
  apply list_elem_of_lookup in Hc as [j Hj].
  destruct (decide (j = i)) as [->|Hne].
  - rewrite list_lookup_insert_eq in Hj by (apply lookup_lt_Some in Hj; by rewrite length_insert in Hj).
    left. congruence.
  - rewrite list_lookup_insert_ne in Hj by done. right. eauto.
Qed.

(** * The recency list *)

Lemma dll_deref_split (l : list_t) m1 m2 n :
  nodes l = m1 ++ n :: m2 → node_addr n ∉ node_addr <$> m1 →
  dll_deref l (node_addr n) = Some n.
Proof.
  intros Hn H1. unfold dll_deref. rewrite Hn.
  by rewrite (list_find_tag_split node_addr _ _ _ (node_addr n)).
Qed.

Lemma dll_remove_node_split (l : list_t) m1 m2 n :
  nodes l = m1 ++ n :: m2 →
  node_addr n ∉ node_addr <$> m1 → node_addr n ∉ node_addr <$> m2 →
  dll_remove_node l (node_addr n) = mk_list (m1 ++ m2) (u32 (lsize l - 1)).
Proof.
  intros Hn H1 H2. unfold dll_remove_node. rewrite Hn.
  by rewrite (filter_tag_split node_addr _ _ _ (node_addr n)).
Qed.

Lemma dll_add_tail (ns : list dll_node_t) (sz : Z) d a :
  sz = Z.of_nat (length ns) → sz + 1 < UINT_MOD →
  dll_add_nth_node (mk_list ns sz) sz d a = mk_list (ns ++ [mk_node a d]) (sz + 1).
Proof.
  intros Hsz Hlt. unfold dll_add_nth_node. simpl.
  rewrite u32_small by lia.
  destruct (Z.eqb_spec sz 0) as [H0|H0].
  - destruct ns; [done|simpl in *; lia].
  - by rewrite Z.leb_refl.
Qed.

Lemma dll_tail_snoc ns sz x : dll_tail (mk_list (ns ++ [x]) sz) = Some x.
Proof. unfold dll_tail. simpl. apply last_snoc. Qed.

Lemma dll_remove_head (n : dll_node_t) rest (sz : Z) :
  sz = Z.of_nat (length (n :: rest)) → sz < UINT_MOD →
  dll_remove_nth_node (mk_list (n :: rest) sz) 0 = (mk_list rest (sz - 1), Some n).
Proof.
  intros Hsz Hlt. unfold dll_remove_nth_node. simpl nodes. simpl lsize.
  simpl in Hsz.
  destruct (Z.leb_spec sz 0); [lia|].
  destruct (Z.eqb_spec sz 1) as [H1|H1].
  - destruct rest; [|simpl in *; lia]. by subst.
  - rewrite Z.mod_0_l by lia. simpl. rewrite u32_small by lia. done.
Qed.

(** * Chains *)

Lemma chain_unlink_split (l1 l2 : list info) e k :
  key e = k → k ∉ (key <$> l1) → chain_unlink k (l1 ++ e :: l2) = l1 ++ l2.
Proof.
  intros <-. induction l1 as [|x l1 IH]; simpl; intros H.
  - by rewrite decide_True.
  - rewrite not_elem_of_cons in H. destruct H as [H1 H2].
    rewrite decide_False by congruence. by rewrite IH.
Qed.

Section CacheLemmas.

Variable hash_string : string → Z.

Local Abbreviation wf_cache := (wf_cache hash_string).
Local Abbreviation bucket_of := (bucket_of hash_string).
Local Abbreviation lru_cache_get := (lru_cache_get hash_string).
Local Abbreviation lru_cache_put := (lru_cache_put hash_string).
Local Abbreviation lru_cache_remove := (lru_cache_remove hash_string).
Local Abbreviation evict_lru := (evict_lru hash_string).
Local Abbreviation insert_new := (insert_new hash_string).

Lemma put_scan_absent idx a k v chain :
  k ∉ key <$> chain → put_scan_chain idx a k v chain = PutFellThrough chain false.
Proof.
  induction chain as [|x chain IH]; simpl; intros H; [done|].
  rewrite not_elem_of_cons in H. destruct H as [H1 H2].
  rewrite decide_False by congruence. by rewrite IH.
Qed.

Lemma put_scan_hit idx a k v l1 l2 e n :
  key e = k → k ∉ key <$> l1 →
  pointer_to_node e = Some (node_addr n) →
  dll_deref idx (node_addr n) = Some n → key (data n) = k →
  put_scan_chain idx a k v (l1 ++ e :: l2) =
    let idx1 := dll_remove_node idx (node_addr n) in
    let idx2 := dll_add_nth_node idx1 (lsize idx1) (mk_info k v (pointer_to_node e)) a in
    PutReturned (l1 ++ mk_info k v (node_addr <$> dll_tail idx2) :: l2) idx2.
Proof.
  intros He H1 Hp Hd Hk.
  induction l1 as [|x l1 IH]; simpl.
  - rewrite decide_True by done. rewrite Hp. simpl. rewrite Hd.
    rewrite decide_True by done. by rewrite He.
  - rewrite fmap_cons, not_elem_of_cons in H1. destruct H1 as [H1 H2].
    rewrite decide_False by congruence. by rewrite IH.
Qed.

Lemma bucket_of_lt c k :
  wf_cache c → (bucket_of c k < length (buckets c))%nat.
Proof.
  intros Hwf. rewrite (wf_buckets _ _ Hwf). unfold bucket_of.
  pose proof (wf_capacity _ _ Hwf).
  pose proof (Z.mod_pos_bound (u32 (hash_string k)) (capacity c)). lia.
Qed.

Lemma bucket_at_lookup c i :
  (i < length (buckets c))%nat → buckets c !! i = Some (bucket_at c i).
Proof.
  intros H. unfold bucket_at. destruct (lookup_lt_is_Some_2 _ _ H) as [x ->]. done.
Qed.

Lemma entries_split c i :
  (i < length (buckets c))%nat →
  entries c ≡ₚ bucket_at c i ++ concat (<[i := []]> (buckets c)).
Proof. intros H. apply concat_bucket. by apply bucket_at_lookup. Qed.

Lemma wf_entry_node c e :
  wf_cache c → e ∈ entries c → ∃ n, n ∈ nodes (index c) ∧ e = node_view n.
Proof.
  intros Hwf He. rewrite (wf_link _ _ Hwf) in He.
  apply list_elem_of_fmap in He as (n & -> & Hn). eauto.
Qed.

Lemma bucket_at_entries c i e : e ∈ bucket_at c i → e ∈ entries c.
Proof.
  unfold bucket_at. destruct (buckets c !! i) as [ch|] eqn:E; simpl; [|by intros ?%elem_of_nil].
  intros He. apply list_elem_of_In, in_concat. exists ch. split; apply list_elem_of_In; [|done].
  by eapply list_elem_of_lookup_2.
Qed.

Lemma entries_keys c :
  wf_cache c → key <$> entries c ≡ₚ recency_keys c.
Proof.
  intros Hwf. rewrite (wf_link _ _ Hwf). unfold recency_keys.
  by rewrite <- list_fmap_compose.
Qed.

Lemma wf_node_entry c n :
  wf_cache c → n ∈ nodes (index c) →
  node_view n ∈ bucket_at c (bucket_of c (key (data n))).
Proof.
  intros Hwf Hn.
  assert (He : node_view n ∈ entries c).
  { rewrite (wf_link _ _ Hwf). apply list_elem_of_fmap. eauto. }
  apply list_elem_of_In, in_concat in He as (ch & Hc & He).
  apply list_elem_of_In in Hc, He.
  apply list_elem_of_lookup in Hc as [j Hj].
  pose proof (wf_home _ _ Hwf j ch _ Hj He) as Hb. simpl in Hb.
  unfold bucket_at. by rewrite Hb, Hj.
Qed.

Lemma bucket_keys_NoDup c i :
  wf_cache c → NoDup (key <$> bucket_at c i).
Proof.
  intros Hwf. destruct (decide (i < length (buckets c))%nat) as [Hi|Hi].
  - pose proof (wf_keys _ _ Hwf) as Hnd.
    rewrite <- (entries_keys c Hwf), (entries_split c i Hi), fmap_app in Hnd.
    by apply NoDup_app in Hnd as (? & _ & _).
  - unfold bucket_at. rewrite lookup_ge_None_2 by lia. constructor.
Qed.

(** The entry of a linked node sits in the chain of its key, and nowhere
    else in that chain is the key. *)
Lemma wf_chain_split c n :
  wf_cache c → n ∈ nodes (index c) →
  ∃ l1 l2, bucket_at c (bucket_of c (key (data n))) = l1 ++ node_view n :: l2
           ∧ (key (data n) ∉ key <$> l1) ∧ (key (data n) ∉ key <$> l2).
Proof.
  intros Hwf Hn.
  apply (unique_split key _ (node_view n)).
  - by apply bucket_keys_NoDup.
  - by apply wf_node_entry.
Qed.

Lemma wf_nodes_split c n :
  wf_cache c → n ∈ nodes (index c) →
  ∃ m1 m2, nodes (index c) = m1 ++ n :: m2
           ∧ (node_addr n ∉ node_addr <$> m1) ∧ (node_addr n ∉ node_addr <$> m2)
           ∧ (key (data n) ∉ (λ x, key (data x)) <$> m1)
           ∧ key (data n) ∉ (λ x, key (data x)) <$> m2.
Proof.
  intros Hwf Hn.
  destruct (unique_split node_addr _ n (wf_addr _ _ Hwf) Hn) as (m1 & m2 & E & H1 & H2).
  exists m1, m2. split_and!; try done.
  - pose proof (wf_keys _ _ Hwf) as Hnd. unfold recency_keys in Hnd. rewrite E in Hnd.
    rewrite fmap_app, fmap_cons in Hnd. apply NoDup_app in Hnd as (_ & Hd & _).
    intros H. apply (Hd _ H). left.
  - pose proof (wf_keys _ _ Hwf) as Hnd. unfold recency_keys in Hnd. rewrite E in Hnd.
    rewrite fmap_app, fmap_cons in Hnd. apply NoDup_app in Hnd as (_ & _ & Hd).
    by apply NoDup_cons in Hd as [? _].
Qed.

Lemma wf_absent_chain c k i :
  wf_cache c → k ∉ recency_keys c → k ∉ key <$> bucket_at c i.
Proof.
  intros Hwf Hk He. apply Hk. rewrite <- (entries_keys c Hwf).
  apply list_elem_of_fmap in He as (e & -> & He).
  apply list_elem_of_fmap. exists e. split; [done|]. by eapply bucket_at_entries.
Qed.

(** Rebuilding the invariant after one chain and the recency list changed. *)
Lemma wf_rebuild c i ch' ns' b' :
  wf_cache c → (i < length (buckets c))%nat →
  (∀ e, e ∈ ch' → bucket_of c (key e) = i) →
  ch' ++ concat (<[i := []]> (buckets c)) ≡ₚ node_view <$> ns' →
  NoDup (node_addr <$> ns') →
  NoDup ((λ n, key (data n)) <$> ns') →
  Forall (λ n, (node_addr n < b')%nat) ns' →
  Z.of_nat (length ns') ≤ capacity c →
  wf_cache (mk_cache (<[i := ch']> (buckets c)) (Z.of_nat (length ns'))
                     (capacity c) (mk_list ns' (Z.of_nat (length ns'))) b').
Proof.
  intros Hwf Hi Hhome Hperm Ha Hk Hb Hcap.
  constructor; simpl; try done.
  - apply (wf_capacity _ _ Hwf).
  - rewrite length_insert. apply (wf_buckets _ _ Hwf).
  - intros j chain e Hj He.
    destruct (decide (j = i)) as [->|Hne].
    + rewrite list_lookup_insert_eq in Hj by done.
      injection Hj as <-. by apply Hhome.
    + rewrite list_lookup_insert_ne in Hj by done.
      by apply (wf_home _ _ Hwf j chain e).
  - unfold entries. simpl. by rewrite concat_insert_bucket.
Qed.

End CacheLemmas.

Section CacheOps.

Variable hash_string : string → Z.

Local Abbreviation wf_cache := (wf_cache hash_string).
Local Abbreviation bucket_of := (bucket_of hash_string).
Local Abbreviation lru_cache_get := (lru_cache_get hash_string).
Local Abbreviation lru_cache_put := (lru_cache_put hash_string).
Local Abbreviation lru_cache_remove := (lru_cache_remove hash_string).
Local Abbreviation evict_lru := (evict_lru hash_string).
Local Abbreviation insert_new := (insert_new hash_string).

Lemma contents_split c p1 p2 k v :
  contents c = p1 ++ (k, v) :: p2 →
  ∃ m1 n m2, nodes (index c) = m1 ++ n :: m2 ∧ kv <$> m1 = p1 ∧ kv <$> m2 = p2
             ∧ key (data n) = k ∧ value (data n) = v.
Proof.
  unfold contents. intros H.
  apply fmap_app_inv in H as (m1 & m' & -> & H & ->).
  symmetry in H. apply fmap_cons_inv in H as (n & m2 & Hn & -> & ->).
  exists m1, n, m2. injection Hn as -> ->. done.
Qed.

Lemma wf_len c : wf_cache c → size c = Z.of_nat (length (nodes (index c)))
  ∧ lsize (index c) = Z.of_nat (length (nodes (index c)))
  ∧ Z.of_nat (length (nodes (index c))) ≤ capacity c
  ∧ capacity c < UINT_MOD.
Proof.
  intros Hwf. pose proof (wf_size _ _ Hwf). pose proof (wf_lsize _ _ Hwf).
  pose proof (wf_bound _ _ Hwf). pose proof (wf_capacity _ _ Hwf). lia.
Qed.

(** The unlinked rest of the recency list and of the chain still match. *)
Lemma wf_rest_link c n m1 m2 l1 l2 :
  wf_cache c →
  nodes (index c) = m1 ++ n :: m2 →
  bucket_at c (bucket_of c (key (data n))) = l1 ++ node_view n :: l2 →
  (l1 ++ l2) ++ concat (<[bucket_of c (key (data n)) := []]> (buckets c))
    ≡ₚ node_view <$> (m1 ++ m2).
Proof.
  intros Hwf Hn Hc.
  pose proof (wf_link _ _ Hwf) as Hl.
  rewrite (entries_split c _ (bucket_of_lt hash_string c (key (data n)) Hwf)) in Hl.
  rewrite Hc, Hn in Hl. rewrite !fmap_app, fmap_cons in Hl.
  rewrite <- !app_assoc in Hl. simpl in Hl.
  rewrite <- !Permutation_middle in Hl.
  apply Permutation_cons_inv in Hl.
  by rewrite fmap_app, <- app_assoc.
Qed.

Lemma wf_rest_addr c n m1 m2 :
  wf_cache c → nodes (index c) = m1 ++ n :: m2 →
  NoDup (node_addr <$> (m1 ++ m2))
  ∧ NoDup ((λ x, key (data x)) <$> (m1 ++ m2))
  ∧ Forall (λ x, (node_addr x < brk c)%nat) (m1 ++ m2)
  ∧ key (data n) ∉ (λ x, key (data x)) <$> (m1 ++ m2).
Proof.
  intros Hwf Hn.
  pose proof (wf_addr _ _ Hwf) as Ha. pose proof (wf_keys _ _ Hwf) as Hk.
  pose proof (wf_brk _ _ Hwf) as Hb. unfold recency_keys in Hk.
  rewrite Hn in Ha, Hk, Hb.
  rewrite <- Permutation_middle in Ha, Hk, Hb.
  rewrite fmap_cons in Ha. rewrite fmap_cons in Hk.
  apply NoDup_cons in Ha as [_ Ha]. apply NoDup_cons in Hk as [Hk1 Hk].
  apply Forall_cons in Hb as [_ Hb].
  done.
Qed.

(** Re-creating the node of key [k] at the tail, with its entry somewhere
    in the chain, keeps the invariant. *)
Lemma wf_promote c n m1 m2 l1 l2 ch' v d :
  wf_cache c →
  nodes (index c) = m1 ++ n :: m2 →
  bucket_at c (bucket_of c (key (data n))) = l1 ++ node_view n :: l2 →
  ch' ≡ₚ mk_info (key (data n)) v (Some (brk c)) :: l1 ++ l2 →
  key d = key (data n) → value d = v →
  wf_cache (mk_cache (<[bucket_of c (key (data n)) := ch']> (buckets c)) (size c)
              (capacity c)
              (mk_list ((m1 ++ m2) ++ [mk_node (brk c) d]) (size c))
              (S (brk c))).
Proof.
  intros Hwf Hn Hc Hch Hkd Hvd.
  destruct (wf_len c Hwf) as (Hs & _ & Hcap & _).
  destruct (wf_rest_addr c n m1 m2 Hwf Hn) as (Ha & Hk & Hb & Hkn).
  assert (Hlen : size c = Z.of_nat (length ((m1 ++ m2) ++ [mk_node (brk c) d]))).
  { rewrite Hs, Hn. rewrite !length_app. simpl. lia. }
  rewrite Hlen.
  apply wf_rebuild.
  - done.
  - by apply bucket_of_lt.
  - intros e He. rewrite Hch in He.
    apply elem_of_cons in He as [->|He]; [done|].
    apply (wf_home _ _ Hwf _ (bucket_at c (bucket_of c (key (data n))))).
    + apply bucket_at_lookup. by apply bucket_of_lt.
    + rewrite Hc. apply elem_of_app in He as [He|He]; apply elem_of_app; [by left|].
      right. by right.
  - rewrite Hch. rewrite fmap_app. simpl.
    rewrite <- (wf_rest_link c n m1 m2 l1 l2 Hwf Hn Hc).
    unfold node_view at 1. simpl. rewrite Hkd, Hvd.
    rewrite <- Permutation_cons_append. done.
  - rewrite fmap_app. simpl. rewrite <- Permutation_cons_append.
    apply NoDup_cons. split; [|done].
    intros Hin. apply list_elem_of_fmap in Hin as (x & Hx & Hin).
    rewrite Forall_forall in Hb. specialize (Hb x Hin). lia.
  - rewrite fmap_app. simpl. rewrite <- Permutation_cons_append.
    apply NoDup_cons. split; [|done]. by rewrite Hkd.
  - apply Forall_app. split.
    + eapply Forall_impl; [exact Hb|]. simpl. intros. lia.
    + apply Forall_singleton. simpl. lia.
  - rewrite <- Hlen. pose proof (wf_bound _ _ Hwf). lia.
Qed.

(** [lru_cache_get] on a key of the cache. *)
Lemma lru_cache_get_hit c p1 p2 k v :
  wf_cache c → contents c = p1 ++ (k, v) :: p2 →
  ∃ c', lru_cache_get c k = (c', Some v) ∧ wf_cache c'
        ∧ contents c' = p1 ++ p2 ++ [(k, v)]
        ∧ capacity c' = capacity c ∧ size c' = size c.
Proof.
  intros Hwf Hc.
  destruct (contents_split c p1 p2 k v Hc) as (m1 & n & m2 & Hn & <- & <- & <- & <-).
  assert (Hin : n ∈ nodes (index c)) by (rewrite Hn; apply elem_of_app; right; left).
  destruct (wf_chain_split hash_string c n Hwf Hin) as (l1 & l2 & Hch & Hl1 & Hl2).
  destruct (wf_nodes_split hash_string c n Hwf Hin) as (m1' & m2' & Hn' & Ha1 & Ha2 & _ & _).
  destruct (wf_len c Hwf) as (Hs & Hls & Hcap & Hmax).
  unfold lru_cache_get. rewrite Hch.
  rewrite (list_find_tag_split key _ _ _ (key (data n))) by done. simpl.
  rewrite (dll_deref_split _ m1' m2' n Hn' Ha1).
  rewrite decide_True by done.
  rewrite (dll_remove_node_split _ m1' m2' n Hn' Ha1 Ha2). simpl.
  assert (Hm : m1' ++ m2' = m1 ++ m2).
  { rewrite <- (filter_tag_split node_addr m1' m2' n _ eq_refl Ha1 Ha2), <- Hn', Hn.
    destruct (wf_rest_addr c n m1 m2 Hwf Hn) as (Ha & _).
    pose proof (wf_addr _ _ Hwf) as Hnd. rewrite Hn in Hnd.
    rewrite fmap_app, fmap_cons in Hnd. apply NoDup_app in Hnd as (_ & Hd1 & Hd2).
    apply NoDup_cons in Hd2 as [Hd2 _].
    apply (filter_tag_split node_addr); [done| |done]. intros H. apply (Hd1 _ H). left. }
  rewrite Hm.
  assert (Hlen0 : Z.of_nat (length (nodes (index c))) = Z.of_nat (length (m1 ++ m2)) + 1).
  { rewrite Hn, !length_app. simpl. lia. }
  assert (Hlen : u32 (lsize (index c) - 1) = Z.of_nat (length (m1 ++ m2))).
  { rewrite Hls. rewrite u32_small; lia. }
  rewrite Hlen.
  rewrite dll_add_tail by (try done; lia).
  rewrite dll_tail_snoc. simpl.
  rewrite delete_middle.
  eexists. split; [reflexivity|].
  assert (Hsz : Z.of_nat (length (m1 ++ m2)) + 1 = size c) by lia.
  rewrite Hsz. split_and!; try done.
  - apply (wf_promote c n m1 m2 l1 l2 _ (value (data n))); try done.
  - unfold contents. simpl. rewrite !fmap_app. simpl. by rewrite <- app_assoc.
Qed.

End CacheOps.

Section CacheOps2.

Variable hash_string : string → Z.

Local Abbreviation wf_cache := (wf_cache hash_string).
Local Abbreviation bucket_of := (bucket_of hash_string).
Local Abbreviation lru_cache_get := (lru_cache_get hash_string).
Local Abbreviation lru_cache_put := (lru_cache_put hash_string).
Local Abbreviation lru_cache_remove := (lru_cache_remove hash_string).
Local Abbreviation evict_lru := (evict_lru hash_string).
Local Abbreviation insert_new := (insert_new hash_string).

Lemma recency_keys_contents c : recency_keys c = fst <$> contents c.
Proof. unfold recency_keys, contents. by rewrite <- list_fmap_compose. Qed.

(** A key that no chain holds is not found. *)
Lemma lru_cache_get_absent c k :
  k ∉ (key <$> entries c) → lru_cache_get c k = (c, None).
Proof.
  intros H. unfold lru_cache_get.
  rewrite (list_find_tag_None key); [done|].
  intros Hin. apply H. apply list_elem_of_fmap in Hin as (e & -> & He).
  apply list_elem_of_fmap. exists e. split; [done|]. by eapply bucket_at_entries.
Qed.

Lemma lru_cache_get_miss c k :
  wf_cache c → k ∉ recency_keys c → lru_cache_get c k = (c, None).
Proof.
  intros Hwf H. apply lru_cache_get_absent. by rewrite (entries_keys hash_string c Hwf).
Qed.

(** [lru_cache_put] on a key of the cache. *)
Lemma lru_cache_put_hit c p1 p2 k v0 v b :
  wf_cache c → contents c = p1 ++ (k, v0) :: p2 →
  ∃ c', lru_cache_put c k v b = (c', true, None) ∧ wf_cache c'
        ∧ contents c' = p1 ++ p2 ++ [(k, v)]
        ∧ capacity c' = capacity c ∧ size c' = size c.
Proof.
  intros Hwf Hc.
  destruct (contents_split c p1 p2 k v0 Hc) as (m1 & n & m2 & Hn & <- & <- & <- & <-).
  assert (Hin : n ∈ nodes (index c)) by (rewrite Hn; apply elem_of_app; right; left).
  destruct (wf_chain_split hash_string c n Hwf Hin) as (l1 & l2 & Hch & Hl1 & Hl2).
  destruct (wf_nodes_split hash_string c n Hwf Hin) as (m1' & m2' & Hn' & Ha1 & Ha2 & _ & _).
  destruct (wf_len hash_string c Hwf) as (Hs & Hls & Hcap & Hmax).
  unfold lru_cache_put. rewrite Hch.
  rewrite (put_scan_hit _ _ _ _ l1 l2 (node_view n) n); try done;
    [|by apply (dll_deref_split _ m1' m2')].
  cbv zeta.
  rewrite (dll_remove_node_split _ m1' m2' n Hn' Ha1 Ha2). simpl lsize.
  assert (Hm : m1' ++ m2' = m1 ++ m2).
  { rewrite <- (filter_tag_split node_addr m1' m2' n _ eq_refl Ha1 Ha2), <- Hn', Hn.
    pose proof (wf_addr _ _ Hwf) as Hnd. rewrite Hn in Hnd.
    rewrite fmap_app, fmap_cons in Hnd. apply NoDup_app in Hnd as (_ & Hd1 & Hd2).
    apply NoDup_cons in Hd2 as [Hd2 _].
    apply (filter_tag_split node_addr); [done| |done]. intros H. apply (Hd1 _ H). left. }
  rewrite Hm.
  assert (Hlen0 : Z.of_nat (length (nodes (index c))) = Z.of_nat (length (m1 ++ m2)) + 1).
  { rewrite Hn, !length_app. simpl. lia. }
  assert (Hlen : u32 (lsize (index c) - 1) = Z.of_nat (length (m1 ++ m2))).
  { rewrite Hls. rewrite u32_small; lia. }
  rewrite Hlen.
  rewrite dll_add_tail by (try done; lia).
  rewrite dll_tail_snoc. simpl.
  eexists. split; [reflexivity|].
  assert (Hsz : Z.of_nat (length (m1 ++ m2)) + 1 = size c) by lia.
  rewrite Hsz. split_and!; try done.
  - apply (wf_promote hash_string c n m1 m2 l1 l2 _ v); try done.
    by rewrite <- Permutation_middle.
  - unfold contents. simpl. rewrite !fmap_app. simpl. by rewrite <- app_assoc.
Qed.

Lemma set_bucket_id c i : set_bucket c i (bucket_at c i) = c.
Proof.
  unfold set_bucket, bucket_at. destruct c as [bs sz cap idx b]. simpl. f_equal.
  destruct (bs !! i) as [ch|] eqn:E; simpl.
  - by apply list_insert_id.
  - apply list_insert_ge. by apply lookup_ge_None.
Qed.

(** Evicting from a cache that holds something. *)
Lemma evict_lru_head c n rest :
  wf_cache c → nodes (index c) = n :: rest →
  ∃ c', evict_lru c = (c', Some (key (data n))) ∧ wf_cache c'
        ∧ nodes (index c') = rest ∧ capacity c' = capacity c
        ∧ size c' = size c - 1 ∧ brk c' = brk c.
Proof.
  intros Hwf Hn.
  assert (Hin : n ∈ nodes (index c)) by (rewrite Hn; left).
  destruct (wf_chain_split hash_string c n Hwf Hin) as (l1 & l2 & Hch & Hl1 & Hl2).
  destruct (wf_len hash_string c Hwf) as (Hs & Hls & Hcap & Hmax).
  unfold evict_lru. destruct (index c) as [ns ls] eqn:Hidx. simpl in *. subst ns.
  rewrite dll_remove_head by (simpl in *; lia).
  rewrite Hch, (chain_unlink_split l1 l2 (node_view n) (key (data n))) by done.
  eexists. split; [reflexivity|]. simpl.
  assert (Hsz : u32 (size c - 1) = Z.of_nat (length rest)).
  { rewrite u32_small; simpl in *; lia. }
  assert (Hls' : ls - 1 = Z.of_nat (length rest)) by (simpl in *; lia).
  rewrite Hsz, Hls'. split_and!; try done; [|simpl in *; lia].
  pose proof (wf_rest_addr hash_string c n [] rest Hwf) as Hr. rewrite Hidx in Hr.
  destruct (Hr eq_refl) as (Ha & Hk & Hb & _). simpl in Ha, Hk, Hb.
  apply wf_rebuild; try done.
  - by apply bucket_of_lt.
  - intros e He.
    apply (wf_home _ _ Hwf _ (bucket_at c (bucket_of c (key (data n))))).
    + apply bucket_at_lookup. by apply bucket_of_lt.
    + rewrite Hch. apply elem_of_app in He as [He|He]; apply elem_of_app; [by left|].
      right. by right.
  - pose proof (wf_rest_link hash_string c n [] rest l1 l2 Hwf) as Hl. rewrite Hidx in Hl.
    by apply Hl.
  - simpl in *. lia.
Qed.

(** Adding a key the cache does not hold, when there is room. *)
Lemma insert_new_wf c k v :
  wf_cache c → k ∉ recency_keys c → size c < capacity c →
  wf_cache (insert_new c k v)
  ∧ nodes (index (insert_new c k v)) = nodes (index c) ++ [mk_node (brk c) (mk_info k v None)]
  ∧ capacity (insert_new c k v) = capacity c
  ∧ size (insert_new c k v) = size c + 1.
Proof.
  intros Hwf Hk Hlt.
  destruct (wf_len hash_string c Hwf) as (Hs & Hls & Hcap & Hmax).
  unfold insert_new. destruct (index c) as [ns ls] eqn:Hidx. simpl in Hs, Hls, Hcap.
  simpl lsize. subst ls.
  rewrite dll_add_tail by (try done; lia). rewrite dll_tail_snoc. simpl.
  rewrite u32_small by lia.
  split_and!; try done.
  replace (size c + 1) with (Z.of_nat (length (ns ++ [mk_node (brk c) (mk_info k v None)])))
    by (rewrite length_app; simpl; lia).
  replace (Z.of_nat (length ns) + 1)
    with (Z.of_nat (length (ns ++ [mk_node (brk c) (mk_info k v None)])))
    by (rewrite length_app; simpl; lia).
  pose proof (wf_addr _ _ Hwf) as Ha. pose proof (wf_keys _ _ Hwf) as Hnk.
  pose proof (wf_brk _ _ Hwf) as Hb. unfold recency_keys in Hnk, Hk.
  rewrite Hidx in Ha, Hnk, Hb, Hk. simpl in Ha, Hnk, Hb, Hk.
  apply wf_rebuild.
  - done.
  - by apply bucket_of_lt.
  - intros e He. apply elem_of_cons in He as [->|He]; [done|].
    apply (wf_home _ _ Hwf _ (bucket_at c (bucket_of c k))); [|done].
    apply bucket_at_lookup. by apply bucket_of_lt.
  - rewrite fmap_app. simpl. rewrite <- Permutation_cons_append.
    unfold node_view at 1. simpl. apply Permutation_skip.
    rewrite <- (entries_split c _ (bucket_of_lt hash_string c k Hwf)).
    rewrite (wf_link _ _ Hwf). by rewrite Hidx.
  - rewrite fmap_app. simpl. rewrite <- Permutation_cons_append.
    apply NoDup_cons. split; [|done].
    intros Hin. apply list_elem_of_fmap in Hin as (x & Hx & Hin).
    rewrite Forall_forall in Hb. specialize (Hb x Hin). lia.
  - rewrite fmap_app. simpl. rewrite <- Permutation_cons_append.
    apply NoDup_cons. split; done.
  - apply Forall_app. split.
    + eapply Forall_impl; [exact Hb|]. simpl. intros. lia.
    + apply Forall_singleton. simpl. lia.
  - rewrite length_app. simpl. lia.
Qed.

End CacheOps2.

Section CacheOps3.

Variable hash_string : string → Z.

Local Abbreviation wf_cache := (wf_cache hash_string).
Local Abbreviation bucket_of := (bucket_of hash_string).
Local Abbreviation lru_cache_get := (lru_cache_get hash_string).
Local Abbreviation lru_cache_put := (lru_cache_put hash_string).
Local Abbreviation lru_cache_remove := (lru_cache_remove hash_string).
Local Abbreviation evict_lru := (evict_lru hash_string).
Local Abbreviation insert_new := (insert_new hash_string).

Lemma contents_insert_new c k v :
  wf_cache c → k ∉ recency_keys c → size c < capacity c →
  contents (insert_new c k v) = contents c ++ [(k, v)].
Proof.
  intros Hwf Hk Hlt. destruct (insert_new_wf hash_string c k v Hwf Hk Hlt) as (_ & Hn & _).
  unfold contents. rewrite Hn, fmap_app. done.
Qed.

(** [lru_cache_put] of a new key into a cache with room. *)
Lemma lru_cache_put_new c k v b :
  wf_cache c → k ∉ recency_keys c → size c < capacity c →
  ∃ c', lru_cache_put c k v b = (c', true, None) ∧ wf_cache c'
        ∧ contents c' = contents c ++ [(k, v)]
        ∧ capacity c' = capacity c ∧ size c' = size c + 1.
Proof.
  intros Hwf Hk Hlt. unfold lru_cache_put.
  rewrite put_scan_absent by (by apply (wf_absent_chain hash_string)).
  rewrite set_bucket_id.
  destruct (Z.leb_spec (capacity c) (size c)); [lia|].
  destruct (insert_new_wf hash_string c k v Hwf Hk Hlt) as (Hw & Hn & Hc & Hs).
  exists (insert_new c k v). split_and!; try done.
  - by destruct b.
  - by apply contents_insert_new.
Qed.

(** [lru_cache_put] of a new key into a full cache: the head leaves. *)
Lemma lru_cache_put_full c k v b k0 v0 rest :
  wf_cache c → k ∉ recency_keys c → size c = capacity c →
  contents c = (k0, v0) :: rest →
  ∃ c', lru_cache_put c k v b = (c', true, if b then Some k0 else None)
        ∧ wf_cache c'
        ∧ contents c' = rest ++ [(k, v)]
        ∧ capacity c' = capacity c ∧ size c' = size c.
Proof.
  intros Hwf Hk Hfull Hc. unfold lru_cache_put.
  rewrite put_scan_absent by (by apply (wf_absent_chain hash_string)).
  rewrite set_bucket_id.
  destruct (Z.leb_spec (capacity c) (size c)); [|lia].
  destruct (contents_split c [] rest k0 v0 Hc) as (m1 & n & m2 & Hn & Hm1 & <- & <- & <-).
  apply fmap_nil_inv in Hm1 as ->. simpl in Hn.
  destruct (evict_lru_head hash_string c n m2 Hwf Hn) as (c1 & -> & Hw1 & Hn1 & Hc1 & Hs1 & Hb1).
  assert (Hk1 : k ∉ recency_keys c1).
  { unfold recency_keys in *. rewrite Hn1. rewrite Hn in Hk.
    rewrite fmap_cons, not_elem_of_cons in Hk. tauto. }
  assert (Hlt : size c1 < capacity c1) by lia.
  destruct (insert_new_wf hash_string c1 k v Hw1 Hk1 Hlt) as (Hw & Hn2 & Hc2 & Hs2).
  exists (insert_new c1 k v). split_and!; try done; try lia.
  rewrite contents_insert_new by done. unfold contents. by rewrite Hn1.
Qed.

(** [lru_cache_remove] *)
Lemma lru_cache_remove_hit c p1 p2 k v :
  wf_cache c → contents c = p1 ++ (k, v) :: p2 →
  wf_cache (lru_cache_remove c k)
  ∧ contents (lru_cache_remove c k) = p1 ++ p2
  ∧ capacity (lru_cache_remove c k) = capacity c
  ∧ size (lru_cache_remove c k) = size c - 1.
Proof.
  intros Hwf Hc.
  destruct (contents_split c p1 p2 k v Hc) as (m1 & n & m2 & Hn & <- & <- & <- & <-).
  assert (Hin : n ∈ nodes (index c)) by (rewrite Hn; apply elem_of_app; right; left).
  destruct (wf_chain_split hash_string c n Hwf Hin) as (l1 & l2 & Hch & Hl1 & Hl2).
  destruct (wf_nodes_split hash_string c n Hwf Hin) as (m1' & m2' & Hn' & Ha1 & Ha2 & _ & _).
  destruct (wf_len hash_string c Hwf) as (Hs & Hls & Hcap & Hmax).
  unfold lru_cache_remove. rewrite Hch.
  rewrite (list_find_tag_split key _ _ _ (key (data n))) by done. simpl.
  rewrite (dll_remove_node_split _ m1' m2' n Hn' Ha1 Ha2).
  assert (Hm : m1' ++ m2' = m1 ++ m2).
  { rewrite <- (filter_tag_split node_addr m1' m2' n _ eq_refl Ha1 Ha2), <- Hn', Hn.
    pose proof (wf_addr _ _ Hwf) as Hnd. rewrite Hn in Hnd.
    rewrite fmap_app, fmap_cons in Hnd. apply NoDup_app in Hnd as (_ & Hd1 & Hd2).
    apply NoDup_cons in Hd2 as [Hd2 _].
    apply (filter_tag_split node_addr); [done| |done]. intros H. apply (Hd1 _ H). left. }
  rewrite Hm, delete_middle.
  assert (Hlen0 : Z.of_nat (length (nodes (index c))) = Z.of_nat (length (m1 ++ m2)) + 1).
  { rewrite Hn, !length_app. simpl. lia. }
  assert (Hlen : u32 (lsize (index c) - 1) = Z.of_nat (length (m1 ++ m2))).
  { rewrite Hls. rewrite u32_small; lia. }
  assert (Hlen' : u32 (size c - 1) = Z.of_nat (length (m1 ++ m2))).
  { rewrite Hs. rewrite u32_small; lia. }
  rewrite Hlen, Hlen'. split_and!; try done; [| |lia].
  - destruct (wf_rest_addr hash_string c n m1 m2 Hwf Hn) as (Ha & Hk & Hb & Hkn).
    apply wf_rebuild; try done.
    + by apply bucket_of_lt.
    + intros e He.
      apply (wf_home _ _ Hwf _ (bucket_at c (bucket_of c (key (data n))))).
      * apply bucket_at_lookup. by apply bucket_of_lt.
      * rewrite Hch. apply elem_of_app in He as [He|He]; apply elem_of_app; [by left|].
        right. by right.
    + by apply (wf_rest_link hash_string c n m1 m2 l1 l2).
    + lia.
  - unfold contents. simpl. by rewrite fmap_app.
Qed.

Lemma lru_cache_remove_miss c k :
  wf_cache c → k ∉ recency_keys c → lru_cache_remove c k = c.
Proof.
  intros Hwf Hk. unfold lru_cache_remove.
  rewrite (list_find_tag_None key); [done|]. by apply (wf_absent_chain hash_string).
Qed.

Lemma init_lru_cache_wf cap :
  0 < cap < UINT_MOD → wf_cache (init_lru_cache cap).
Proof.
  intros Hcap. constructor; simpl; try done; try lia.
  - by rewrite length_replicate.
  - constructor.
  - constructor.
  - intros i chain e Hi He. apply lookup_replicate in Hi as [-> _].
    by apply elem_of_nil in He.
  - unfold entries. simpl.
    induction (Z.to_nat cap) as [|n IH]; simpl; [done|]. exact IH.
Qed.

(** Keys of the recency list are either at a split point or absent. *)
Lemma contents_lookup_cases c k :
  (∃ p1 v p2, contents c = p1 ++ (k, v) :: p2) ∨ k ∉ recency_keys c.
Proof.
  destruct (decide (k ∈ recency_keys c)) as [Hin|Hnin]; [left|by right].
  rewrite recency_keys_contents in Hin.
  apply list_elem_of_fmap in Hin as ([k' v] & -> & Hin).
  apply list_elem_of_split in Hin as (p1 & p2 & ->). eauto.
Qed.

Lemma lru_cache_get_wf c k :
  wf_cache c → wf_cache (lru_cache_get c k).1
  ∧ capacity (lru_cache_get c k).1 = capacity c
  ∧ size (lru_cache_get c k).1 = size c
  ∧ contents (lru_cache_get c k).1 ≡ₚ contents c.
Proof.
  intros Hwf. destruct (contents_lookup_cases c k) as [(p1 & v & p2 & Hc)|Hk].
  - destruct (lru_cache_get_hit hash_string c p1 p2 k v Hwf Hc) as (c' & -> & Hw & Hc' & ? & ?).
    simpl. split_and!; try done. rewrite Hc', Hc.
    rewrite <- Permutation_middle, (Permutation_app_comm p2). simpl.
    by rewrite <- Permutation_middle.
  - by rewrite lru_cache_get_miss.
Qed.

Lemma lru_cache_put_wf c k v b :
  wf_cache c → wf_cache (lru_cache_put c k v b).1.1
  ∧ capacity (lru_cache_put c k v b).1.1 = capacity c.
Proof.
  intros Hwf. destruct (contents_lookup_cases c k) as [(p1 & v0 & p2 & Hc)|Hk].
  - destruct (lru_cache_put_hit hash_string c p1 p2 k v0 v b Hwf Hc) as (c' & -> & Hw & _ & ? & _).
    done.
  - destruct (decide (size c < capacity c)) as [Hlt|Hge].
    + destruct (lru_cache_put_new c k v b Hwf Hk Hlt) as (c' & -> & Hw & _ & ? & _). done.
    + pose proof (wf_bound _ _ Hwf). assert (Hfull : size c = capacity c) by lia.
      destruct (contents c) as [|[k0 v0] rest] eqn:Hc.
      * pose proof (wf_size _ _ Hwf) as Hs. pose proof (wf_capacity _ _ Hwf).
        unfold contents in Hc. apply fmap_nil_inv in Hc. rewrite Hc in Hs. simpl in Hs. lia.
      * destruct (lru_cache_put_full c k v b k0 v0 rest Hwf Hk Hfull Hc)
          as (c' & -> & Hw & _ & ? & _). done.
Qed.

Lemma lru_cache_remove_wf c k :
  wf_cache c → wf_cache (lru_cache_remove c k)
  ∧ capacity (lru_cache_remove c k) = capacity c.
Proof.
  intros Hwf. destruct (contents_lookup_cases c k) as [(p1 & v & p2 & Hc)|Hk].
  - destruct (lru_cache_remove_hit c p1 p2 k v Hwf Hc) as (? & _ & ? & _). done.
  - by rewrite lru_cache_remove_miss.
Qed.

End CacheOps3.

Section CacheClaims.

Variable hash_string : string → Z.

Local Abbreviation wf_cache := (wf_cache hash_string).
Local Abbreviation lru_cache_get := (lru_cache_get hash_string).
Local Abbreviation lru_cache_put := (lru_cache_put hash_string).
Local Abbreviation lru_cache_remove := (lru_cache_remove hash_string).
Local Abbreviation run_ops := (run_ops hash_string).
Local Abbreviation run_op := (run_op hash_string).

Lemma run_op_wf c op : wf_cache c → wf_cache (run_op c op).
Proof.
  intros Hwf. destruct op as [k v b|k|k]; simpl.
  - by apply lru_cache_put_wf.
  - by apply lru_cache_get_wf.
  - by apply lru_cache_remove_wf.
Qed.

Lemma run_ops_wf ops : ∀ c, wf_cache c → wf_cache (run_ops c ops).
Proof.
  induction ops as [|op ops IH]; intros c Hwf; simpl; [done|].
  apply IH. by apply run_op_wf.
Qed.

Lemma wf_lru_invariant c : wf_cache c → lru_invariant c.
Proof.
  intros Hwf. constructor.
  - apply (wf_bound _ _ Hwf).
  - rewrite (wf_link _ _ Hwf). by rewrite length_fmap.
  - rewrite (entries_keys hash_string c Hwf). apply (wf_keys _ _ Hwf).
  - apply (wf_keys _ _ Hwf).
  - apply (wf_addr _ _ Hwf).
  - intros e He. destruct (wf_entry_node hash_string c e Hwf He) as (n & Hn & ->).
    exists n. done.
  - intros n Hn. exists (node_view n). split_and!; try done.
    rewrite (wf_link _ _ Hwf). apply list_elem_of_fmap. eauto.
Qed.

(** Claim C7.  From a fresh cache of positive capacity, after any sequence of
    put, get and remove operations: the size is at most the capacity and
    counts the entries of the bucket chains; the keys of the entries are
    pairwise distinct, and so are the keys and the addresses of the nodes of
    the recency list; every entry's back-reference is the address of a node
    of the recency list that carries the entry's own key and value; and
    every node of the recency list is the node of an entry.  Entries and
    nodes are therefore in bijection. *)
Theorem lru_invariant_always (cap : Z) (ops : list cache_op) :
  0 < cap < UINT_MOD →
  lru_invariant (run_ops (init_lru_cache cap) ops).
Proof.
  intros Hcap. apply wf_lru_invariant, run_ops_wf. by apply init_lru_cache_wf.
Qed.

(** Claim C5.  [lru_cache_put] of an absent key into a full cache evicts the
    head of the recency list, and only it: the evicted key is handed back,
    the other entries keep their order, the new key is at the
    most-recently-used end, and the size still equals the capacity. *)
Theorem lru_cache_put_full_evicts_lru (c : lru_cache) (k v : string) :
  wf_cache c → size c = capacity c → k ∉ (key <$> entries c) →
  ∃ k0 v0 rest c',
    contents c = (k0, v0) :: rest
    ∧ lru_cache_put c k v true = (c', true, Some k0)
    ∧ contents c' = rest ++ [(k, v)]
    ∧ key <$> entries c' ≡ₚ (fst <$> rest) ++ [k]
    ∧ (k0 ∉ key <$> entries c')
    ∧ size c' = capacity c' ∧ capacity c' = capacity c
    ∧ wf_cache c'.
Proof.
  intros Hwf Hfull Hk. rewrite (entries_keys hash_string c Hwf) in Hk.
  destruct (contents c) as [|[k0 v0] rest] eqn:Hc.
  { pose proof (wf_size _ _ Hwf) as Hs. pose proof (wf_capacity _ _ Hwf).
    unfold contents in Hc. apply fmap_nil_inv in Hc. rewrite Hc in Hs. simpl in Hs. lia. }
  destruct (lru_cache_put_full hash_string c k v true k0 v0 rest Hwf Hk Hfull Hc)
    as (c' & Hput & Hw & Hc' & Hcap & Hs).
  exists k0, v0, rest, c'. split_and!; try done; try lia.
  - rewrite (entries_keys hash_string c' Hw), recency_keys_contents, Hc'.
    by rewrite fmap_app.
  - rewrite (entries_keys hash_string c' Hw), recency_keys_contents, Hc'.
    pose proof (wf_keys _ _ Hwf) as Hnd. rewrite recency_keys_contents, Hc in Hnd.
    rewrite recency_keys_contents, Hc in Hk. simpl in Hnd, Hk.
    apply NoDup_cons in Hnd as [Hnd _]. rewrite not_elem_of_cons in Hk.
    rewrite fmap_app. simpl. rewrite elem_of_app, list_elem_of_singleton. intros [?|?]; [done|].
    destruct Hk as [Hk _]. by apply Hk.
Qed.

(** Claim C6.  [lru_cache_put] of a key the cache already holds replaces the
    value, moves the key to the most-recently-used end, evicts nothing and
    leaves the size as it was; a following [lru_cache_get] reads the new
    value.  The value returned is [true], where the claim says false: the
    branch that finds the key ends in [return true]. *)
Theorem lru_cache_put_existing_returns_true (c : lru_cache) (k v2 : string) :
  wf_cache c → k ∈ (key <$> entries c) →
  ∃ p1 v1 p2 c',
    contents c = p1 ++ (k, v1) :: p2
    ∧ lru_cache_put c k v2 true = (c', true, None)
    ∧ contents c' = p1 ++ p2 ++ [(k, v2)]
    ∧ size c' = size c
    ∧ (lru_cache_get c' k).2 = Some v2.
Proof.
  intros Hwf Hk. rewrite (entries_keys hash_string c Hwf) in Hk.
  destruct (contents_lookup_cases c k) as [(p1 & v1 & p2 & Hc)|Hn]; [|done].
  destruct (lru_cache_put_hit hash_string c p1 p2 k v1 v2 true Hwf Hc)
    as (c' & Hput & Hw & Hc' & Hcap & Hs).
  exists p1, v1, p2, c'. split_and!; try done.
  rewrite app_assoc in Hc'.
  destruct (lru_cache_get_hit hash_string c' (p1 ++ p2) [] k v2 Hw Hc') as (c'' & -> & _).
  done.
Qed.


End CacheClaims.

(** * The task queue *)

Lemma omap_seq_shift {B} (f : nat → option B) n : ∀ start,
  omap f (seq (S start) n) = omap (λ j, f (S j)) (seq start n).
Proof.
  induction n as [|n IH]; intros start; [done|].
  csimpl. rewrite IH. done.
Qed.

Lemma omap_pointwise {A B} (f g : A → option B) (l : list A) :
  (∀ x, x ∈ l → f x = g x) → omap f l = omap g l.
Proof.
  induction l as [|x l IH]; intros H; [done|]. csimpl.
  rewrite (H x) by left. rewrite IH; [done|]. intros y Hy. apply H. by right.
Qed.

Lemma q_create_wf maxsz : 0 < maxsz < UINT_MOD → wf_queue (q_create maxsz).
Proof.
  intros H. constructor; simpl; try lia.
  - by rewrite length_replicate.
  - rewrite Z.add_0_r. by rewrite Z.mod_small by lia.
Qed.

Lemma q_create_pending maxsz : pending (q_create maxsz) = [].
Proof. done. Qed.

Lemma q_enqueue_full q r : q_size q = max_size q → q_enqueue q r = (q, 0).
Proof. intros H. unfold q_enqueue. by rewrite H, Z.eqb_refl. Qed.

Lemma pending_length q : wf_queue q → length (pending q) = Z.to_nat (q_size q).
Proof.
  intros Hwf. unfold pending.
  assert (H : ∀ n, (n ≤ Z.to_nat (q_size q))%nat →
              length (omap (q_slot q) (seq 0 n)) = n).
  { induction n as [|n IH]; intros Hn; [done|].
    rewrite seq_S, omap_app, length_app, IH by lia. simpl.
    destruct (wfq_slots _ Hwf n) as [x ->]; [lia|]. simpl. lia. }
  by apply H.
Qed.

Lemma slot_index q j :
  wf_queue q → 0 ≤ (read_idx q + Z.of_nat j) mod max_size q < max_size q.
Proof. intros Hwf. apply Z.mod_pos_bound. pose proof (wfq_max _ Hwf). lia. Qed.

Lemma q_dequeue_pending q :
  wf_queue q → 0 < q_size q →
  ∃ r rest q', pending q = r :: rest ∧ q_dequeue q = (q', Some r)
               ∧ wf_queue q' ∧ pending q' = rest ∧ drained q' = drained q
               ∧ q_size q' = q_size q - 1.
Proof.
  intros Hwf Hpos.
  pose proof (wfq_max _ Hwf) as Hmax. pose proof (wfq_size _ Hwf) as Hsz.
  pose proof (wfq_read _ Hwf) as Hrd.
  destruct (wfq_slots _ Hwf 0%nat) as [r Hr]; [lia|].
  assert (Hslot : ∀ j, q_slot (mk_queue (max_size q) (u32 (q_size q - 1))
                          (u32 (read_idx q + 1) mod max_size q) (write_idx q) (buff q)) j
                       = q_slot q (S j)).
  { intros j. unfold q_slot. simpl. do 3 f_equal.
    rewrite u32_small by lia. rewrite Zplus_mod_idemp_l. f_equal. lia. }
  exists r, (omap (q_slot q) (seq 1 (Z.to_nat (q_size q - 1)))),
    (mk_queue (max_size q) (u32 (q_size q - 1))
              (u32 (read_idx q + 1) mod max_size q) (write_idx q) (buff q)).
  split_and!.
  - unfold pending. replace (Z.to_nat (q_size q)) with (S (Z.to_nat (q_size q - 1))) by lia.
    simpl. by rewrite Hr.
  - unfold q_dequeue. destruct (Z.eqb_spec (q_size q) 0); [lia|].
    f_equal. unfold q_slot in Hr. simpl in Hr.
    rewrite Z.add_0_r, Z.mod_small in Hr by lia. done.
  - constructor; simpl; try done.
    + apply (wfq_buff _ Hwf).
    + rewrite u32_small; lia.
    + apply Z.mod_pos_bound. lia.
    + rewrite !u32_small by lia. rewrite Zplus_mod_idemp_l.
      rewrite (wfq_write _ Hwf). f_equal. lia.
    + intros j Hj. rewrite Hslot. apply (wfq_slots _ Hwf).
      rewrite u32_small in Hj; lia.
  - unfold pending. cbn [q_size].
    rewrite (omap_pointwise _ (λ j, q_slot q (S j))) by (intros j _; apply Hslot).
    rewrite u32_small by lia. by rewrite omap_seq_shift.
  - done.
  - simpl. rewrite u32_small; lia.
Qed.

Lemma q_enqueue_pending q r :
  wf_queue q → q_size q < max_size q →
  ∃ q', q_enqueue q r = (q', 1) ∧ wf_queue q'
        ∧ pending q' = pending q ++ [r] ∧ q_size q' = q_size q + 1
        ∧ max_size q' = max_size q.
Proof.
  intros Hwf Hlt.
  pose proof (wfq_max _ Hwf) as Hmax. pose proof (wfq_size _ Hwf) as Hsz.
  pose proof (wfq_read _ Hwf) as Hrd. pose proof (wfq_write _ Hwf) as Hwr.
  pose proof (wfq_buff _ Hwf) as Hbuf.
  set (q' := mk_queue (max_size q) (u32 (q_size q + 1)) (read_idx q)
                      (u32 (write_idx q + 1) mod max_size q)
                      (<[Z.to_nat (write_idx q) := Some r]> (buff q))).
  assert (Hw : 0 ≤ write_idx q < max_size q).
  { rewrite Hwr. apply Z.mod_pos_bound. lia. }
  assert (Hold : ∀ j, (j < Z.to_nat (q_size q))%nat → q_slot q' j = q_slot q j).
  { intros j Hj. unfold q_slot. simpl. f_equal.
    apply list_lookup_insert_ne. intros Heq.
    apply Z2Nat.inj in Heq; [|lia|apply Z.mod_pos_bound; lia].
    rewrite Hwr in Heq.
    destruct (Z_lt_le_dec (read_idx q + q_size q) (max_size q)) as [H1|H1].
    - rewrite Z.mod_small in Heq by lia.
      rewrite Z.mod_small in Heq by lia. lia.
    - assert (E1 : (read_idx q + q_size q) mod max_size q
                   = read_idx q + q_size q - max_size q).
      { symmetry. apply (Z.mod_unique _ _ 1); lia. }
      rewrite E1 in Heq.
      destruct (Z_lt_le_dec (read_idx q + Z.of_nat j) (max_size q)) as [H2|H2].
      + rewrite Z.mod_small in Heq by lia. lia.
      + assert (E2 : (read_idx q + Z.of_nat j) mod max_size q
                     = read_idx q + Z.of_nat j - max_size q).
        { symmetry. apply (Z.mod_unique _ _ 1); lia. }
        rewrite E2 in Heq. lia. }
  assert (Hnew : q_slot q' (Z.to_nat (q_size q)) = Some r).
  { unfold q_slot. simpl. rewrite Z2Nat.id by lia. rewrite <- Hwr.
    rewrite list_lookup_insert_eq by lia. done. }
  exists q'. split_and!.
  - unfold q_enqueue. destruct (Z.eqb_spec (q_size q) (max_size q)); [lia|]. done.
  - constructor; simpl; try done.
    + by rewrite length_insert.
    + rewrite u32_small; lia.
    + rewrite !u32_small by lia. rewrite Hwr, Zplus_mod_idemp_l. f_equal. lia.
    + intros j Hj. rewrite u32_small in Hj by lia.
      destruct (decide (j < Z.to_nat (q_size q))%nat) as [Hjl|Hjl].
      * rewrite Hold by done. by apply (wfq_slots _ Hwf).
      * replace j with (Z.to_nat (q_size q)) by lia. by rewrite Hnew.
  - unfold pending. change (q_size q') with (u32 (q_size q + 1)).
    rewrite u32_small by lia.
    replace (Z.to_nat (q_size q + 1)) with (S (Z.to_nat (q_size q))) by lia.
    rewrite seq_S, omap_app. cbn [omap list_omap]. simpl plus. rewrite Hnew. f_equal.
    apply omap_pointwise. intros j Hj.
    apply elem_of_seq in Hj. apply Hold. lia.
  - simpl. rewrite u32_small; lia.
  - done.
Qed.

Lemma drained_empty q : wf_queue q → q_size q = 0 → drained q = q.
Proof.
  intros Hwf H0. pose proof (wfq_write _ Hwf) as Hw. pose proof (wfq_read _ Hwf).
  rewrite H0, Z.add_0_r, Z.mod_small in Hw by lia.
  unfold drained. destruct q; simpl in *. by subst.
Qed.

Section ServerLemmas.

Variable hash_string : string → Z.

Local Abbreviation server_edit_document := (server_edit_document hash_string).
Local Abbreviation server_get_document := (server_get_document hash_string).
Local Abbreviation execute_edit_tasks_loop := (execute_edit_tasks_loop hash_string).
Local Abbreviation execute_edit_tasks_for_document := (execute_edit_tasks_for_document hash_string).
Local Abbreviation server_handle_request := (server_handle_request hash_string).
Local Abbreviation apply_edits := (apply_edits hash_string).

(** Editing and reading do not look at the task queue. *)
Lemma server_edit_document_queue s q id name content :
  server_edit_document (set_task_queue s q) id name content =
  (set_task_queue (server_edit_document s id name content).1 q,
   (server_edit_document s id name content).2).
Proof.
  unfold server_edit_document. simpl.
  repeat (match goal with
          | |- context [let '(_, _) := ?x in _] => destruct x
          | |- context [match ?x with Some _ => _ | None => _ end] => destruct x
          end; simpl); done.
Qed.

Lemma server_edit_document_task_queue s id name content :
  task_queue (server_edit_document s id name content).1 = task_queue s.
Proof.
  unfold server_edit_document.
  repeat (match goal with
          | |- context [let '(_, _) := ?x in _] => destruct x
          | |- context [match ?x with Some _ => _ | None => _ end] => destruct x
          end; simpl); done.
Qed.

Lemma server_get_document_task_queue s id name :
  task_queue (server_get_document s id name).1 = task_queue s.
Proof.
  unfold server_get_document.
  repeat (match goal with
          | |- context [let '(_, _) := ?x in _] => destruct x
          | |- context [match ?x with Some _ => _ | None => _ end] => destruct x
          end; simpl); done.
Qed.

Lemma apply_edits_queue l : ∀ s q id,
  apply_edits l (set_task_queue s q) id =
  (set_task_queue (apply_edits l s id).1 q, (apply_edits l s id).2).
Proof.
  induction l as [|r l IH]; intros s q id; simpl; [done|].
  rewrite server_edit_document_queue.
  destruct (server_edit_document s id (doc_name r) (doc_content r)) as [s1 resp]. simpl.
  rewrite IH. by destruct (apply_edits l s1 id).
Qed.

Lemma apply_edits_task_queue l : ∀ s id,
  task_queue (apply_edits l s id).1 = task_queue s.
Proof.
  induction l as [|r l IH]; intros s id; simpl; [done|].
  pose proof (server_edit_document_task_queue s id (doc_name r) (doc_content r)) as H.
  destruct (server_edit_document s id (doc_name r) (doc_content r)) as [s1 resp]. simpl in *.
  specialize (IH s1 id). destruct (apply_edits l s1 id). simpl in *. congruence.
Qed.

Lemma apply_edits_length l : ∀ s id, length (apply_edits l s id).2 = length l.
Proof.
  induction l as [|r l IH]; intros s id; simpl; [done|].
  destruct (server_edit_document s id (doc_name r) (doc_content r)) as [s1 resp].
  specialize (IH s1 id). destruct (apply_edits l s1 id). simpl in *. lia.
Qed.

Lemma set_task_queue_id s : set_task_queue s (task_queue s) = s.
Proof. by destruct s. Qed.

Lemma set_task_queue_twice s q q' :
  set_task_queue (set_task_queue s q) q' = set_task_queue s q'.
Proof. done. Qed.

(** The loop takes the pending requests out one by one, oldest first, and
    edits with each of them. *)
Lemma execute_edit_tasks_loop_spec n : ∀ s id,
  wf_queue (task_queue s) → (Z.to_nat (q_size (task_queue s)) ≤ n)%nat →
  execute_edit_tasks_loop n s id =
  apply_edits (pending (task_queue s)) (set_task_queue s (drained (task_queue s))) id.
Proof.
  induction n as [|n IH]; intros s id Hwf Hn.
  - pose proof (wfq_size _ Hwf). assert (H0 : q_size (task_queue s) = 0) by lia.
    simpl. unfold pending. rewrite H0. simpl.
    by rewrite drained_empty, set_task_queue_id.
  - simpl. destruct (Z.eqb_spec (q_size (task_queue s)) 0) as [H0|H0].
    + unfold pending. rewrite H0. simpl. by rewrite drained_empty, set_task_queue_id.
    + pose proof (wfq_size _ Hwf).
      destruct (q_dequeue_pending (task_queue s) Hwf) as (r & rest & q' & Hp & -> & Hwf' & Hp' & Hd & Hs);
        [lia|].
      rewrite Hp. simpl.
      rewrite !server_edit_document_queue.
      destruct (server_edit_document s id (doc_name r) (doc_content r)) as [s1 resp] eqn:He.
      simpl.
      rewrite IH; simpl; try done; [|lia].
      rewrite Hp', Hd. by destruct (apply_edits rest _ id).
Qed.

Lemma execute_edit_tasks_spec s id :
  wf_queue (task_queue s) →
  execute_edit_tasks_for_document s id =
  apply_edits (pending (task_queue s)) (set_task_queue s (drained (task_queue s))) id.
Proof. intros Hwf. by apply execute_edit_tasks_loop_spec. Qed.

(** Claim C9.  An EDIT that reaches a server whose task queue holds 1000
    requests leaves the server, and so its queue, as it was: the pending
    requests are the same, nothing is printed, and the call returns the usual
    acknowledgement of a queued edit. *)
Theorem edit_on_full_queue_dropped (s : server) (id : Z) (name content : string) :
  max_size (task_queue s) = MAX_TASK_QUEUE_SIZE →
  q_size (task_queue s) = 1000 →
  server_handle_request s id (mk_request EDIT_DOCUMENT name content) =
    (s, [], mk_response (LOG_LAZY_EXEC 1000) (Some (MSG_A "EDIT" name)) id)
  ∧ pending (task_queue (server_handle_request s id
                           (mk_request EDIT_DOCUMENT name content)).1.1)
    = pending (task_queue s).
Proof.
  intros Hmax Hsz. unfold server_handle_request. simpl.
  rewrite q_enqueue_full by (rewrite Hmax; done).
  rewrite set_task_queue_id. unfold q_get_size. rewrite Hsz. done.
Qed.

End ServerLemmas.

Section Recency.

Variable hash_string : string → Z.

Local Abbreviation wf_cache := (wf_cache hash_string).
Local Abbreviation lru_cache_get := (lru_cache_get hash_string).
Local Abbreviation lru_cache_put := (lru_cache_put hash_string).

Lemma wf_contents_keys c : wf_cache c → NoDup (fst <$> contents c).
Proof. intros Hwf. rewrite <- recency_keys_contents. apply (wf_keys _ _ Hwf). Qed.

Lemma contents_filter_split c p1 p2 k v :
  wf_cache c → contents c = p1 ++ (k, v) :: p2 →
  filter (λ x, x.1 ≠ k) (contents c) = p1 ++ p2.
Proof.
  intros Hwf Hc. pose proof (wf_contents_keys c Hwf) as Hnd. rewrite Hc in *.
  rewrite fmap_app, fmap_cons in Hnd. apply NoDup_app in Hnd as (_ & H1 & H2).
  apply NoDup_cons in H2 as [H2 _].
  apply (filter_tag_split fst); [done| |done]. intros H. apply (H1 _ H). left.
Qed.

Lemma contents_filter_absent c k :
  k ∉ recency_keys c → filter (λ x, x.1 ≠ k) (contents c) = contents c.
Proof. rewrite recency_keys_contents. apply (filter_tag_absent fst). Qed.

Lemma contents_length c : wf_cache c → size c = Z.of_nat (length (contents c)).
Proof. intros Hwf. unfold contents. rewrite length_fmap. apply (wf_size _ _ Hwf). Qed.

(** The pairs after a [get]: the pair found moves to the end. *)
Lemma lru_cache_get_contents c k :
  wf_cache c →
  contents (lru_cache_get c k).1 =
    match (lru_cache_get c k).2 with
    | Some v => filter (λ x, x.1 ≠ k) (contents c) ++ [(k, v)]
    | None => contents c
    end
  ∧ ((lru_cache_get c k).2 = None ↔ k ∉ recency_keys c)
  ∧ (∀ v, (lru_cache_get c k).2 = Some v ↔ (k, v) ∈ contents c).
Proof.
  intros Hwf. pose proof (wf_contents_keys c Hwf) as Hnd.
  destruct (contents_lookup_cases c k) as [(p1 & v & p2 & Hc)|Hk].
  - destruct (lru_cache_get_hit hash_string c p1 p2 k v Hwf Hc) as (c' & -> & Hw & Hc' & ? & ?).
    cbn [fst snd]. rewrite Hc', (contents_filter_split c p1 p2 k v Hwf Hc), <- app_assoc.
    split_and!; [done| |].
    + split; [done|]. intros Hn. exfalso. apply Hn. rewrite recency_keys_contents, Hc.
      rewrite fmap_app, fmap_cons. apply elem_of_app. right. left.
    + intros v'. split.
      * intros [= <-]. rewrite Hc. apply elem_of_app. right. left.
      * intros Hin. f_equal. rewrite Hc in Hin, Hnd.
        rewrite fmap_app, fmap_cons in Hnd. apply NoDup_app in Hnd as (_ & H1 & H2).
        apply NoDup_cons in H2 as [H2 _].
        apply elem_of_app in Hin as [Hin|Hin].
        { exfalso. apply (H1 k); [|left]. apply list_elem_of_fmap. by exists (k, v'). }
        apply elem_of_cons in Hin as [Hin|Hin]; [congruence|].
        exfalso. apply H2. apply list_elem_of_fmap. by exists (k, v').
  - rewrite lru_cache_get_miss by done. simpl. split_and!; [done|done|].
    intros v. split; [done|]. intros Hin. exfalso. apply Hk.
    rewrite recency_keys_contents. apply list_elem_of_fmap. by exists (k, v).
Qed.

(** The pairs after a [put]: the pair written is at the end; a full cache
    that did not hold the key lost its first pair. *)
Lemma lru_cache_put_contents c k v b :
  wf_cache c →
  contents (lru_cache_put c k v b).1.1 =
    (if decide (k ∈ recency_keys c) then filter (λ x, x.1 ≠ k) (contents c)
     else if decide (size c < capacity c) then contents c
     else tail (contents c)) ++ [(k, v)].
Proof.
  intros Hwf. destruct (contents_lookup_cases c k) as [(p1 & v0 & p2 & Hc)|Hk].
  - destruct (lru_cache_put_hit hash_string c p1 p2 k v0 v b Hwf Hc) as (c' & -> & Hw & Hc' & _).
    cbn [fst]. rewrite decide_True.
    + rewrite Hc'. rewrite (contents_filter_split c p1 p2 k v0 Hwf Hc). by rewrite <- app_assoc.
    + rewrite recency_keys_contents, Hc, fmap_app, fmap_cons. apply elem_of_app. right. left.
  - rewrite decide_False by done.
    destruct (decide (size c < capacity c)) as [Hlt|Hge].
    + destruct (lru_cache_put_new hash_string c k v b Hwf Hk Hlt) as (c' & -> & Hw & Hc' & _).
      cbn [fst]. by rewrite Hc'.
    + pose proof (wf_bound _ _ Hwf). assert (Hfull : size c = capacity c) by lia.
      destruct (contents c) as [|[k0 v0] rest] eqn:Hc.
      * pose proof (contents_length c Hwf) as Hs. pose proof (wf_capacity _ _ Hwf).
        rewrite Hc in Hs. simpl in Hs. lia.
      * destruct (lru_cache_put_full hash_string c k v b k0 v0 rest Hwf Hk Hfull Hc)
          as (c' & -> & Hw & Hc' & _).
        cbn [fst]. by rewrite Hc'.
Qed.

Section Tracking.

Variables (k v : string).

Lemma recent_weaken c T T' :
  recent c k v T → T ⊆ T' → recent c k v T'.
Proof.
  intros (p1 & p2 & Hc & Hf) Hsub. exists p1, p2. split; [done|].
  eapply Forall_impl; [exact Hf|]. simpl. intros x Hx. by apply Hsub.
Qed.

Lemma recent_agrees c T : wf_cache c → recent c k v T → agrees c k v.
Proof.
  intros Hwf (p1 & p2 & Hc & _) v' Hin.
  destruct (lru_cache_get_contents c k Hwf) as (_ & _ & Hv).
  apply Hv in Hin. assert (Hin2 : (k, v) ∈ contents c).
  { rewrite Hc. apply elem_of_app. right. left. }
  apply Hv in Hin2. congruence.
Qed.

Lemma recent_length c T p1 p2 :
  wf_cache c → contents c = p1 ++ (k, v) :: p2 → Forall (λ x, x.1 ∈ T) p2 →
  (length p2 ≤ length T)%nat.
Proof.
  intros Hwf Hc Hf. pose proof (wf_contents_keys c Hwf) as Hnd. rewrite Hc in Hnd.
  rewrite fmap_app, fmap_cons in Hnd. apply NoDup_app in Hnd as (_ & _ & Hnd).
  apply NoDup_cons in Hnd as [_ Hnd].
  rewrite <- (length_fmap fst p2). apply submseteq_length, NoDup_submseteq; [done|].
  intros x Hx. apply list_elem_of_fmap in Hx as (y & -> & Hy).
  rewrite Forall_forall in Hf. by apply Hf.
Qed.

Lemma filter_recent (l : list (string * string)) (k' : string) (T : list string) :
  Forall (λ x, x.1 ∈ T) l → Forall (λ x, x.1 ∈ T) (filter (λ x, x.1 ≠ k') l).
Proof.
  intros H. apply Forall_forall. intros x Hx.
  apply list_elem_of_filter in Hx as [_ Hx]. rewrite Forall_forall in H. by apply H.
Qed.

Lemma get_recent c k' T :
  wf_cache c → k' ≠ k → recent c k v (k' :: T) →
  recent (lru_cache_get c k').1 k v (k' :: T).
Proof.
  intros Hwf Hne (p1 & p2 & Hc & Hf).
  destruct (lru_cache_get_contents c k' Hwf) as (Hc' & _ & _).
  destruct (lru_cache_get c k').2 as [v'|].
  - exists (filter (λ x, x.1 ≠ k') p1), (filter (λ x, x.1 ≠ k') p2 ++ [(k', v')]).
    split.
    + rewrite Hc', Hc, filter_app, filter_cons_True by (simpl; congruence).
      by rewrite <- app_assoc.
    + apply Forall_app. split; [by apply filter_recent|].
      apply Forall_singleton. left.
  - exists p1, p2. by rewrite Hc'.
Qed.

Lemma put_recent c k' v' b T :
  wf_cache c → k' ≠ k → recent c k v (k' :: T) →
  Z.of_nat (length T) < capacity c - 1 →
  recent (lru_cache_put c k' v' b).1.1 k v (k' :: T).
Proof.
  intros Hwf Hne (p1 & p2 & Hc & Hf) Hlen.
  unfold recent. rewrite (lru_cache_put_contents c k' v' b Hwf).
  destruct (decide (k' ∈ recency_keys c)) as [Hin|Hnin].
  - exists (filter (λ x, x.1 ≠ k') p1), (filter (λ x, x.1 ≠ k') p2 ++ [(k', v')]).
    split.
    + rewrite Hc, filter_app, filter_cons_True by (simpl; congruence).
      by rewrite <- app_assoc.
    + apply Forall_app. split; [by apply filter_recent|].
      apply Forall_singleton. left.
  - destruct (decide (size c < capacity c)) as [Hlt|Hge].
    + exists p1, (p2 ++ [(k', v')]). split.
      * by rewrite Hc, <- app_assoc.
      * apply Forall_app. split; [done|]. apply Forall_singleton. left.
    + destruct p1 as [|x p1].
      * exfalso.
        assert (Hf' : Forall (λ x, x.1 ∈ T) p2).
        { rewrite Forall_forall in Hf. apply Forall_forall. intros x Hx.
          specialize (Hf x Hx). apply elem_of_cons in Hf as [Heq|?]; [|done].
          exfalso. apply Hnin. rewrite recency_keys_contents, Hc. simpl.
          right. rewrite <- Heq. apply list_elem_of_fmap. by exists x. }
        pose proof (recent_length c T [] p2 Hwf Hc Hf').
        pose proof (contents_length c Hwf) as Hs. rewrite Hc in Hs. simpl in Hs. lia.
      * exists p1, (p2 ++ [(k', v')]). split.
        -- rewrite Hc. simpl. by rewrite <- app_assoc.
        -- apply Forall_app. split; [done|]. apply Forall_singleton. left.
Qed.

Lemma get_agrees c k' :
  wf_cache c → agrees c k v → agrees (lru_cache_get c k').1 k v.
Proof.
  intros Hwf Ha v' Hin. apply Ha.
  destruct (lru_cache_get_wf hash_string c k' Hwf) as (_ & _ & _ & Hp). by rewrite <- Hp.
Qed.

Lemma put_agrees c k' v' b :
  wf_cache c → k' ≠ k → agrees c k v → agrees (lru_cache_put c k' v' b).1.1 k v.
Proof.
  intros Hwf Hne Ha v'' Hin. apply Ha.
  rewrite (lru_cache_put_contents c k' v' b Hwf) in Hin.
  apply elem_of_app in Hin as [Hin|Hin]; [|apply list_elem_of_singleton in Hin; congruence].
  destruct (decide (k' ∈ recency_keys c)).
  - by apply list_elem_of_filter in Hin as [_ ?].
  - destruct (decide (size c < capacity c)); [done|].
    destruct (contents c); [done|]. simpl in Hin. by right.
Qed.

(** After [put] the pair is the most recent one. *)
Lemma put_recent_new c b : wf_cache c → recent (lru_cache_put c k v b).1.1 k v [].
Proof.
  intros Hwf. unfold recent. rewrite (lru_cache_put_contents c k v b Hwf).
  eexists _, []. split; [reflexivity|constructor].
Qed.

Local Abbreviation tracked := (tracked hash_string k v).
Local Abbreviation touching := (touching hash_string k v).

Lemma tracked_touching c k' T : tracked c T → touching c k' T.
Proof.
  intros (Hwf & Ha & Hr). split_and!; try done.
  intros Hlen. apply (recent_weaken c T); [apply Hr; lia|]. intros x Hx. by right.
Qed.

Lemma touching_tracked c k' T : touching c k' T → tracked c (k' :: T).
Proof.
  intros (Hwf & Ha & Hr). split_and!; try done.
  intros Hlen. apply Hr. simpl in Hlen. lia.
Qed.

Lemma touching_get c k' T :
  k' ≠ k → touching c k' T → touching (lru_cache_get c k').1 k' T.
Proof.
  intros Hne (Hwf & Ha & Hr).
  destruct (lru_cache_get_wf hash_string c k' Hwf) as (Hw & Hcap & _).
  split_and!; [done|by apply get_agrees|].
  rewrite Hcap. intros Hlen. apply get_recent; auto.
Qed.

Lemma touching_put c k' v' b T :
  k' ≠ k → touching c k' T → touching (lru_cache_put c k' v' b).1.1 k' T.
Proof.
  intros Hne (Hwf & Ha & Hr).
  destruct (lru_cache_put_wf hash_string c k' v' b Hwf) as (Hw & Hcap).
  split_and!; [done|by apply put_agrees|].
  rewrite Hcap. intros Hlen. apply put_recent; auto.
Qed.

Lemma tracked_put_new c b : wf_cache c → tracked (lru_cache_put c k v b).1.1 [].
Proof.
  intros Hwf. destruct (lru_cache_put_wf hash_string c k v b Hwf) as (Hw & _).
  pose proof (put_recent_new c b Hwf). split_and!; try done.
  by eapply recent_agrees.
Qed.

End Tracking.

End Recency.

Lemma drained_wf q : wf_queue q → wf_queue (drained q).
Proof.
  intros Hwf.
  pose proof (wfq_max _ Hwf) as Hmax. pose proof (wfq_write _ Hwf) as Hw.
  assert (Hr : 0 ≤ write_idx q < max_size q).
  { rewrite Hw. apply Z.mod_pos_bound. lia. }
  constructor; simpl.
  - done.
  - apply (wfq_buff _ Hwf).
  - lia.
  - done.
  - rewrite Z.add_0_r. by rewrite Z.mod_small.
  - intros j Hj. lia.
Qed.

Section ServerTracking.

Variable hash_string : string → Z.

Local Abbreviation wf_cache := (wf_cache hash_string).
Local Abbreviation wf_server := (wf_server hash_string).
Local Abbreviation lru_cache_get := (lru_cache_get hash_string).
Local Abbreviation lru_cache_put := (lru_cache_put hash_string).
Local Abbreviation server_edit_document := (server_edit_document hash_string).
Local Abbreviation server_get_document := (server_get_document hash_string).
Local Abbreviation execute_edit_tasks_for_document := (execute_edit_tasks_for_document hash_string).
Local Abbreviation server_handle_request := (server_handle_request hash_string).
Local Abbreviation apply_edits := (apply_edits hash_string).
Local Abbreviation tracked := (tracked hash_string).
Local Abbreviation touching := (touching hash_string).

(** An edit works on the cache and on the database with [get] and [put]
    of the edited name only, and ends with a [put] on either. *)
Lemma server_edit_document_caches (P : lru_cache → Prop) s id name content :
  (∀ c, P c → P (lru_cache_get c name).1) →
  (∀ c b, P c → P (lru_cache_put c name content b).1.1) →
  (P (cache s) → P (cache (server_edit_document s id name content).1))
  ∧ (P (local_db s) → P (local_db (server_edit_document s id name content).1)).
Proof.
  intros Hget Hput. unfold server_edit_document.
  pose proof (Hget (cache s)) as Hc1.
  destruct (lru_cache_get (cache s) name) as [c1 [x|]]; simpl in Hc1.
  - pose proof (Hput c1 true) as Hc2.
    destruct (lru_cache_put c1 name content true) as [[c2 ?] ?]. simpl in Hc2.
    pose proof (Hput (local_db s) false) as Hd2.
    destruct (lru_cache_put (local_db s) name content false) as [[d2 ?] ?]. simpl in *.
    auto.
  - pose proof (Hget (local_db s)) as Hd1.
    destruct (lru_cache_get (local_db s) name) as [d1 [y|]]; simpl in Hd1.
    + pose proof (Hput c1 true) as Hc2.
      destruct (lru_cache_put c1 name content true) as [[c2 ?] [ev|]]; simpl in Hc2;
      pose proof (Hput d1 false) as Hd2;
      destruct (lru_cache_put d1 name content false) as [[d2 ?] ?]; simpl in *; auto.
    + pose proof (Hput d1 false) as Hd2.
      destruct (lru_cache_put d1 name content false) as [[d2 ?] ?]. simpl in Hd2.
      pose proof (Hput c1 true) as Hc2.
      destruct (lru_cache_put c1 name content true) as [[c2 ?] [ev|]]; simpl in *; auto.
Qed.

Lemma server_edit_document_last (P : lru_cache → Prop) s id name content :
  (∀ c, P c → P (lru_cache_get c name).1) →
  (P (cache s) →
     ∃ c b, P c ∧ cache (server_edit_document s id name content).1
                  = (lru_cache_put c name content b).1.1)
  ∧ (P (local_db s) →
     ∃ d b, P d ∧ local_db (server_edit_document s id name content).1
                  = (lru_cache_put d name content b).1.1).
Proof.
  intros Hget. unfold server_edit_document.
  pose proof (Hget (cache s)) as Hc1.
  destruct (lru_cache_get (cache s) name) as [c1 [x|]]; simpl in Hc1.
  - destruct (lru_cache_put c1 name content true) as [[c2 ?] ?] eqn:E1.
    destruct (lru_cache_put (local_db s) name content false) as [[d2 ?] ?] eqn:E2. simpl.
    split; intros H.
    + exists c1, true. rewrite E1. auto.
    + exists (local_db s), false. rewrite E2. auto.
  - pose proof (Hget (local_db s)) as Hd1.
    destruct (lru_cache_get (local_db s) name) as [d1 [y|]]; simpl in Hd1.
    + destruct (lru_cache_put c1 name content true) as [[c2 ?] [ev|]] eqn:E1;
      destruct (lru_cache_put d1 name content false) as [[d2 ?] ?] eqn:E2; simpl;
      (split; intros H; [exists c1, true; rewrite E1; auto|exists d1, false; rewrite E2; auto]).
    + destruct (lru_cache_put d1 name content false) as [[d2 ?] ?] eqn:E2.
      destruct (lru_cache_put c1 name content true) as [[c2 ?] [ev|]] eqn:E1; simpl;
      (split; intros H; [exists c1, true; rewrite E1; auto|exists d1, false; rewrite E2; auto]).
Qed.

Lemma server_edit_document_wf s id name content :
  wf_server s → wf_server (server_edit_document s id name content).1.
Proof.
  intros Hwf.
  assert (Hget : ∀ cap c, wf_cache c ∧ capacity c = cap →
                 wf_cache (lru_cache_get c name).1 ∧ capacity (lru_cache_get c name).1 = cap).
  { intros cap c [H1 H2]. destruct (lru_cache_get_wf hash_string c name H1) as (? & ? & _).
    split; [done|congruence]. }
  assert (Hput : ∀ cap c b, wf_cache c ∧ capacity c = cap →
                 wf_cache (lru_cache_put c name content b).1.1
                 ∧ capacity (lru_cache_put c name content b).1.1 = cap).
  { intros cap c b [H1 H2].
    destruct (lru_cache_put_wf hash_string c name content b H1) as (? & ?).
    split; [done|congruence]. }
  destruct (server_edit_document_caches
              (λ c, wf_cache c ∧ capacity c = capacity (cache s)) s id name content
              (Hget _) (Hput _)) as [Hc _].
  destruct (server_edit_document_caches
              (λ c, wf_cache c ∧ capacity c = capacity (local_db s)) s id name content
              (Hget _) (Hput _)) as [_ Hd].
  destruct Hc as [Hc1 Hc2]; [split; [apply (wfs_cache _ _ Hwf)|done]|].
  destruct Hd as [Hd1 Hd2]; [split; [apply (wfs_db _ _ Hwf)|done]|].
  constructor; try done.
  - rewrite server_edit_document_task_queue. apply (wfs_queue _ _ Hwf).
  - rewrite server_edit_document_task_queue. apply (wfs_queue_max _ _ Hwf).
  - rewrite Hd2, Hc2. apply (wfs_db_capacity _ _ Hwf).
Qed.

Lemma apply_edits_wf l : ∀ s id, wf_server s → wf_server (apply_edits l s id).1.
Proof.
  induction l as [|r l IH]; intros s id Hwf; simpl; [done|].
  pose proof (server_edit_document_wf s id (doc_name r) (doc_content r) Hwf) as H1.
  destruct (server_edit_document s id (doc_name r) (doc_content r)) as [s1 resp]. simpl in H1.
  specialize (IH s1 id H1). by destruct (apply_edits l s1 id).
Qed.

Section Tracked.

Variables (k v : string).

Lemma server_edit_document_tracked s id k' v' T :
  k' ≠ k → tracked k v (cache s) T → tracked k v (local_db s) T →
  tracked k v (cache (server_edit_document s id k' v').1) (k' :: T)
  ∧ tracked k v (local_db (server_edit_document s id k' v').1) (k' :: T).
Proof.
  intros Hne Hc Hd.
  destruct (server_edit_document_caches (λ c, touching k v c k' T) s id k' v') as [H1 H2].
  { intros c. by apply touching_get. }
  { intros c b. by apply touching_put. }
  split; apply touching_tracked; [apply H1|apply H2]; by apply tracked_touching.
Qed.

Lemma server_edit_document_fresh s id :
  wf_server s →
  tracked k v (cache (server_edit_document s id k v).1) []
  ∧ tracked k v (local_db (server_edit_document s id k v).1) [].
Proof.
  intros Hwf.
  destruct (server_edit_document_last wf_cache s id k v) as [H1 H2].
  { intros c Hc. by apply lru_cache_get_wf. }
  destruct (H1 (wfs_cache _ _ Hwf)) as (c & b & Hc & ->).
  destruct (H2 (wfs_db _ _ Hwf)) as (d & b' & Hd & ->).
  split; by apply tracked_put_new.
Qed.

Lemma apply_edits_tracked l : ∀ s id T,
  (∀ r, r ∈ l → doc_name r ≠ k) →
  tracked k v (cache s) T → tracked k v (local_db s) T →
  ∃ T', length T' = (length l + length T)%nat
        ∧ tracked k v (cache (apply_edits l s id).1) T'
        ∧ tracked k v (local_db (apply_edits l s id).1) T'.
Proof.
  induction l as [|r l IH]; intros s id T Hl Hc Hd; simpl.
  - exists T. done.
  - destruct (server_edit_document_tracked s id (doc_name r) (doc_content r) T)
      as [Hc1 Hd1]; try done.
    { apply Hl. left. }
    destruct (server_edit_document s id (doc_name r) (doc_content r)) as [s1 resp].
    simpl in Hc1, Hd1.
    destruct (IH s1 id (doc_name r :: T)) as (T' & Hlen & Hc2 & Hd2); try done.
    { intros r' Hr'. apply Hl. by right. }
    exists T'. destruct (apply_edits l s1 id). simpl in *. split; [lia|done].
Qed.

(** Reading a tracked document gives its value as long as fewer than a
    thousand other names were written since. *)
Lemma server_get_document_tracked s id T :
  wf_server s → (length T ≤ 999)%nat →
  tracked k v (cache s) T → tracked k v (local_db s) T →
  server_response (server_get_document s id k).2 = Some (DOC v).
Proof.
  intros Hwf Hlen (Hwc & Hac & Hrc) (Hwd & Had & Hrd).
  unfold server_get_document.
  destruct (lru_cache_get_contents hash_string (cache s) k Hwc) as (_ & Hnone & Hsome).
  destruct (lru_cache_get (cache s) k) as [c1 [x|]] eqn:E1; simpl in *.
  - f_equal. f_equal. apply Hac. by apply Hsome.
  - assert (Hk : k ∉ recency_keys (cache s)) by (by apply Hnone).
    assert (Hcap : capacity (cache s) < 1000).
    { destruct (Z_lt_le_dec (capacity (cache s)) 1000) as [?|Hge]; [done|]. exfalso.
      destruct Hrc as (p1 & p2 & Hc & _); [lia|].
      apply Hk. rewrite recency_keys_contents, Hc, fmap_app, fmap_cons.
      apply elem_of_app. right. left. }
    pose proof (wf_capacity _ _ Hwc) as Hpos.
    pose proof (wfs_db_capacity _ _ Hwf) as Hdb.
    rewrite u32_small in Hdb by (unfold UINT_MOD; lia).
    destruct Hrd as (p1 & p2 & Hc & _); [lia|].
    destruct (lru_cache_get_contents hash_string (local_db s) k Hwd) as (_ & _ & Hsome').
    assert (Hget : (lru_cache_get (local_db s) k).2 = Some v).
    { apply Hsome'. rewrite Hc. apply elem_of_app. right. left. }
    destruct (lru_cache_get (local_db s) k) as [d1 r]. simpl in Hget. subst r.
    destruct (lru_cache_put c1 k v true) as [[c2 ?] [ev|]]; done.
Qed.

End Tracked.


End ServerTracking.

(** * The memory of servers *)

Lemma deref_lt (h : heap) p s : deref h p = Some s → (p < length h)%nat.
Proof.
  unfold deref. intros H. destruct (h !! p) eqn:E; [|done]. by eapply lookup_lt_Some.
Qed.

Lemma deref_store_eq (h : heap) p s :
  (p < length h)%nat → deref (store h p s) p = Some s.
Proof. intros H. unfold deref, store. by rewrite list_lookup_insert_eq. Qed.

Lemma deref_store_ne (h : heap) p q s :
  p ≠ q → deref (store h p s) q = deref h q.
Proof. intros H. unfold deref, store. by rewrite list_lookup_insert_ne. Qed.

Lemma length_store (h : heap) p s : length (store h p s) = length h.
Proof. apply length_insert. Qed.

Lemma deref_alloc_new (h : heap) s : deref (h ++ [Some s]) (length h) = Some s.
Proof. unfold deref. by rewrite list_lookup_middle. Qed.

Lemma deref_alloc_old (h : heap) x p s :
  deref h p = Some s → deref (h ++ [x]) p = Some s.
Proof.
  intros H. pose proof (deref_lt h p s H). unfold deref in *. by rewrite lookup_app_l.
Qed.

Lemma deref_free_eq (h : heap) p : deref (free_server h p) p = None.
Proof.
  unfold deref, free_server. destruct (decide (p < length h)%nat).
  - by rewrite list_lookup_insert_eq.
  - rewrite list_insert_ge by lia. by rewrite lookup_ge_None_2 by lia.
Qed.

Lemma deref_free_ne (h : heap) p q :
  p ≠ q → deref (free_server h p) q = deref h q.
Proof. intros H. unfold deref, free_server. by rewrite list_lookup_insert_ne. Qed.

(** * Key sets of caches *)

Section KeySets.

Variable hash_string : string → Z.

Local Abbreviation wf_cache := (wf_cache hash_string).
Local Abbreviation wf_server := (wf_server hash_string).
Local Abbreviation lru_cache_get := (lru_cache_get hash_string).
Local Abbreviation lru_cache_put := (lru_cache_put hash_string).
Local Abbreviation lru_cache_remove := (lru_cache_remove hash_string).
Local Abbreviation server_edit_document := (server_edit_document hash_string).
Local Abbreviation execute_edit_tasks_for_document := (execute_edit_tasks_for_document hash_string).
Local Abbreviation apply_edits := (apply_edits hash_string).

Lemma get_all_keys_recency s k :
  wf_cache (local_db s) → k ∈ get_all_keys s ↔ k ∈ recency_keys (local_db s).
Proof.
  intros Hwf. unfold get_all_keys. fold (entries (local_db s)).
  by rewrite (entries_keys hash_string _ Hwf).
Qed.

Lemma get_all_keys_length s :
  wf_cache (local_db s) → Z.of_nat (length (get_all_keys s)) = size (local_db s).
Proof.
  intros Hwf. unfold get_all_keys. fold (entries (local_db s)).
  rewrite length_fmap, (wf_link _ _ Hwf), length_fmap. symmetry. apply (wf_size _ _ Hwf).
Qed.

Lemma get_all_keys_NoDup s : wf_cache (local_db s) → NoDup (get_all_keys s).
Proof.
  intros Hwf. unfold get_all_keys. fold (entries (local_db s)).
  rewrite (entries_keys hash_string _ Hwf). apply (wf_keys _ _ Hwf).
Qed.

Lemma get_keys c k k' :
  wf_cache c → k' ∈ recency_keys (lru_cache_get c k).1 ↔ k' ∈ recency_keys c.
Proof.
  intros Hwf. destruct (lru_cache_get_wf hash_string c k Hwf) as (_ & _ & _ & Hp).
  rewrite !recency_keys_contents. by rewrite Hp.
Qed.

Lemma get_Some c k :
  wf_cache c → k ∈ recency_keys c → ∃ v, (lru_cache_get c k).2 = Some v.
Proof.
  intros Hwf Hk. destruct (lru_cache_get_contents hash_string c k Hwf) as (_ & Hn & _).
  destruct (lru_cache_get c k).2 as [v|]; [eauto|]. exfalso. by apply Hn.
Qed.

Lemma put_keys c k v b k' :
  wf_cache c → k' ∈ recency_keys (lru_cache_put c k v b).1.1 →
  k' ∈ recency_keys c ∨ k' = k.
Proof.
  intros Hwf. rewrite !recency_keys_contents, (lru_cache_put_contents hash_string c k v b Hwf).
  rewrite fmap_app, elem_of_app. simpl. rewrite list_elem_of_singleton.
  intros [Hin|?]; [left|by right].
  apply list_elem_of_fmap in Hin as (x & -> & Hin). apply list_elem_of_fmap. exists x.
  split; [done|].
  destruct (decide (k ∈ recency_keys c)).
  - by apply list_elem_of_filter in Hin as [_ ?].
  - destruct (decide (size c < capacity c)); [done|].
    destruct (contents c); [done|]. by right.
Qed.

Lemma remove_keys c k k' :
  wf_cache c →
  k' ∈ recency_keys (lru_cache_remove c k) ↔ k' ∈ recency_keys c ∧ k' ≠ k.
Proof.
  intros Hwf. pose proof (wf_contents_keys hash_string c Hwf) as Hnd.
  destruct (contents_lookup_cases c k) as [(p1 & v & p2 & Hc)|Hk].
  - destruct (lru_cache_remove_hit hash_string c p1 p2 k v Hwf Hc) as (_ & Hc' & _).
    rewrite !recency_keys_contents, Hc', Hc.
    rewrite Hc, fmap_app, fmap_cons in Hnd. simpl in Hnd.
    apply NoDup_app in Hnd as (_ & H1 & H2). apply NoDup_cons in H2 as [H2 _].
    rewrite !fmap_app, fmap_cons, !elem_of_app, elem_of_cons. simpl.
    split.
    + intros [H|H]; (split; [tauto|]); intros ->; [by apply (H1 k); [|left]|done].
    + intros [[H|[H|H]] Hne]; tauto.
  - rewrite lru_cache_remove_miss by done. split; [|tauto].
    intros H. split; [done|]. by intros ->.
Qed.

(** An edit adds at most the edited name to the database. *)
Lemma server_edit_document_keys s id name content k :
  wf_server s →
  k ∈ get_all_keys (server_edit_document s id name content).1 →
  k ∈ get_all_keys s ∨ k = name.
Proof.
  intros Hwf.
  destruct (server_edit_document_caches hash_string
              (λ c, wf_cache c ∧ (k ∈ recency_keys c → k ∈ get_all_keys s ∨ k = name))
              s id name content) as [_ Hd].
  { intros c [H1 H2]. split; [by apply lru_cache_get_wf|]. rewrite get_keys by done. done. }
  { intros c b [H1 H2]. split; [by apply lru_cache_put_wf|].
    intros Hin. apply put_keys in Hin as [?|?]; auto. }
  destruct Hd as [Hw Hk].
  { split; [apply (wfs_db _ _ Hwf)|]. intros Hin. left.
    by apply get_all_keys_recency; [apply (wfs_db _ _ Hwf)|]. }
  intros Hin. apply Hk. by apply get_all_keys_recency.
Qed.

Lemma apply_edits_keys l : ∀ s id k,
  wf_server s → k ∈ get_all_keys (apply_edits l s id).1 →
  k ∈ get_all_keys s ∨ k ∈ doc_name <$> l.
Proof.
  induction l as [|r l IH]; intros s id k Hwf; simpl; [by left|].
  pose proof (server_edit_document_wf hash_string s id (doc_name r) (doc_content r) Hwf) as Hwf1.
  pose proof (server_edit_document_keys s id (doc_name r) (doc_content r) k Hwf) as Hk1.
  destruct (server_edit_document s id (doc_name r) (doc_content r)) as [s1 resp].
  simpl in Hwf1, Hk1. specialize (IH s1 id k Hwf1).
  destruct (apply_edits l s1 id) as [s2 out]. simpl in *.
  intros Hin. destruct (IH Hin) as [H|H].
  - destruct (Hk1 H) as [?| ->]; [by left|right; left].
  - right. by right.
Qed.

Lemma server_edit_document_original s id name content :
  original_server (server_edit_document s id name content).1 = original_server s
  ∧ server_id (server_edit_document s id name content).1 = server_id s
  ∧ hash (server_edit_document s id name content).1 = hash s.
Proof.
  unfold server_edit_document.
  repeat (match goal with
          | |- context [let '(_, _) := ?x in _] => destruct x
          | |- context [match ?x with Some _ => _ | None => _ end] => destruct x
          end; simpl); done.
Qed.

Lemma apply_edits_original l : ∀ s id,
  original_server (apply_edits l s id).1 = original_server s
  ∧ server_id (apply_edits l s id).1 = server_id s
  ∧ hash (apply_edits l s id).1 = hash s.
Proof.
  induction l as [|r l IH]; intros s id; simpl; [done|].
  pose proof (server_edit_document_original s id (doc_name r) (doc_content r)) as Ho.
  destruct (server_edit_document s id (doc_name r) (doc_content r)) as [s1 resp].
  simpl in Ho. specialize (IH s1 id). destruct (apply_edits l s1 id). simpl in *.
  destruct Ho as (<- & <- & <-). done.
Qed.

(** Flushing the queue: the queue is empty afterwards and the database
    holds nothing the server did not hold before. *)
Lemma execute_edit_tasks_held s id :
  wf_server s →
  wf_server (execute_edit_tasks_for_document s id).1
  ∧ pending (task_queue (execute_edit_tasks_for_document s id).1) = []
  ∧ (original_server (execute_edit_tasks_for_document s id).1 = original_server s
     ∧ server_id (execute_edit_tasks_for_document s id).1 = server_id s
     ∧ hash (execute_edit_tasks_for_document s id).1 = hash s)
  ∧ (∀ k, k ∈ held_keys (execute_edit_tasks_for_document s id).1 → k ∈ held_keys s).
Proof.
  intros Hwf. rewrite execute_edit_tasks_spec by apply (wfs_queue _ _ Hwf).
  assert (Hwf0 : wf_server (set_task_queue s (drained (task_queue s)))).
  { destruct Hwf. constructor; try done. by apply drained_wf. }
  pose proof (apply_edits_wf hash_string (pending (task_queue s)) _ id Hwf0) as Hwf1.
  assert (Hq : task_queue (apply_edits (pending (task_queue s))
                 (set_task_queue s (drained (task_queue s))) id).1 = drained (task_queue s)).
  { by rewrite apply_edits_task_queue. }
  split; [done|]. split; [by rewrite Hq|]. split.
  - destruct (apply_edits_original (pending (task_queue s))
                (set_task_queue s (drained (task_queue s))) id) as (H1 & H2 & H3).
    by rewrite H1, H2, H3.
  - intros k. unfold held_keys. rewrite Hq. simpl.
    rewrite !elem_of_app. intros [Hin|Hin]; [|by apply elem_of_nil in Hin].
    apply apply_edits_keys in Hin as [?|?]; auto.
Qed.

End KeySets.

Section ServerReachable.

Variable hash_string : string → Z.

Local Abbreviation wf_cache := (wf_cache hash_string).
Local Abbreviation wf_server := (wf_server hash_string).
Local Abbreviation lru_cache_get := (lru_cache_get hash_string).
Local Abbreviation lru_cache_put := (lru_cache_put hash_string).
Local Abbreviation server_get_document := (server_get_document hash_string).
Local Abbreviation server_handle_request := (server_handle_request hash_string).
Local Abbreviation execute_edit_tasks_for_document := (execute_edit_tasks_for_document hash_string).

Lemma init_server_wf cache_size :
  0 < cache_size < UINT_MOD → 0 < u32 (cache_size * 1000) →
  wf_server (init_server cache_size).
Proof.
  intros Hc Hd. constructor; simpl.
  - by apply init_lru_cache_wf.
  - apply init_lru_cache_wf. split; [done|]. unfold u32. apply Z.mod_pos_bound.
    by unfold UINT_MOD.
  - apply q_create_wf. by unfold MAX_TASK_QUEUE_SIZE, UINT_MOD.
  - done.
  - done.
Qed.

Lemma server_get_document_wf s id name :
  wf_server s → wf_server (server_get_document s id name).1.
Proof.
  intros Hwf. unfold server_get_document.
  destruct (lru_cache_get_wf hash_string (cache s) name (wfs_cache _ _ Hwf)) as (Hw1 & Hc1 & _).
  destruct (lru_cache_get (cache s) name) as [c1 [d|]]; simpl in *.
  - destruct Hwf. constructor; simpl; try done. congruence.
  - destruct (lru_cache_get_wf hash_string (local_db s) name (wfs_db _ _ Hwf)) as (Hw2 & Hc2 & _).
    destruct (lru_cache_get (local_db s) name) as [d1 [r|]]; simpl in *.
    + destruct (lru_cache_put_wf hash_string c1 name r true Hw1) as (Hw3 & Hc3).
      destruct (lru_cache_put c1 name r true) as [[c2 ?] [ev|]]; simpl in *;
        destruct Hwf; constructor; simpl; try done; congruence.
    + destruct Hwf; constructor; simpl; try done; congruence.
Qed.

(** Requests keep a server consistent. *)
Lemma server_handle_request_wf s id req :
  wf_server s → wf_server (server_handle_request s id req).1.1.
Proof.
  intros Hwf. unfold server_handle_request.
  destruct (type req).
  - pose proof (wfs_queue _ _ Hwf) as Hq. pose proof (wfq_size _ Hq) as Hs.
    destruct (decide (q_size (task_queue s) = max_size (task_queue s))) as [Hfull|Hroom].
    + rewrite q_enqueue_full by done. simpl. by rewrite set_task_queue_id.
    + destruct (q_enqueue_pending (task_queue s) req Hq) as (q' & -> & Hq' & _ & _ & Hm); [lia|].
      simpl. destruct Hwf. constructor; simpl; try done. congruence.
  - destruct (execute_edit_tasks_held hash_string s id Hwf) as (Hwf1 & _).
    destruct (execute_edit_tasks_for_document s id) as [s1 out]. simpl in *.
    pose proof (server_get_document_wf s1 id (doc_name req) Hwf1).
    by destruct (server_get_document s1 id (doc_name req)).
Qed.

End ServerReachable.

(** * Reading the ring *)

Lemma ring_entries_last lb l sv :
  ring_entries lb = Some l → entry_at lb (nr_servers lb - 1) = Some sv →
  last l = Some sv.
Proof.
  unfold ring_entries, entry_at, server_at. intros Hl He.
  destruct (Z.leb_spec 0 (nr_servers lb - 1)) as [Hn|Hn]; [|done].
  destruct (servers lb !! Z.to_nat (nr_servers lb - 1)) as [p|] eqn:Hp; [|done].
  simpl in He. apply mapM_Some_1 in Hl.
  pose proof (Forall2_length _ _ _ Hl) as Hlen.
  pose proof (lookup_lt_Some _ _ _ Hp) as Hlt.
  rewrite length_take_le in Hlen by lia.
  assert (Ht : take (Z.to_nat (nr_servers lb)) (servers lb) !! Z.to_nat (nr_servers lb - 1)
               = Some p).
  { rewrite lookup_take_lt by lia. done. }
  destruct (Forall2_lookup_l _ _ _ _ _ Hl Ht) as (y & Hy & Hd).
  rewrite last_lookup, <- Hlen.
  replace (pred (Z.to_nat (nr_servers lb))) with (Z.to_nat (nr_servers lb - 1)) by lia.
  congruence.
Qed.

Lemma zip_snd_elem {A B} (l : list A) (k : list B) x : x ∈ zip l k → x.2 ∈ k.
Proof. destruct x as [a b]. apply elem_of_zip_r. Qed.

Section Forwarding.

Variable hash_string : string → Z.
Variable hash_uint : Z → Z.

Local Abbreviation loader_forward_request := (loader_forward_request hash_string hash_uint).

(** Claim C1.  When the hash of the document name equals the hash of the last
    ring entry and no entry's hash exceeds it, [loader_forward_request]
    reaches the use of [target_server] without having assigned it: the first
    test, [hash > last hash], fails and the loop finds no entry.  The claim
    has the request go to the entry at index 0 there. *)
Theorem forward_leaves_target_unassigned (lb : load_balancer) (req : request)
    (l : list server) :
  let h := u32 (hash_string (doc_name req)) in
  ring_entries lb = Some l →
  (∀ sv, sv ∈ l → hash sv ≤ h) →
  (∃ sv, last l = Some sv ∧ hash sv = h) →
  loader_forward_request lb req = None.
Proof.
  intros h Hl Hall (sv & Hlast & Hh).
  unfold loader_forward_request. fold h.
  unfold forward_target.
  destruct (entry_at lb (nr_servers lb - 1)) as [last_sv|] eqn:He; [|done].
  pose proof (ring_entries_last lb l last_sv Hl He) as Hlast'.
  assert (last_sv = sv) as -> by congruence.
  simpl. destruct (Z.ltb_spec (hash sv) h); [lia|].
  unfold find_entry. rewrite Hl. simpl.
  rewrite (proj2 (list_find_None _ _)); [done|].
  apply Forall_forall. intros x Hx. apply zip_snd_elem in Hx.
  specialize (Hall _ Hx). destruct (Z.ltb_spec h (hash x.2)); [lia|done].
Qed.

(** Away from that case the target is the entry the specification names,
    as soon as no hash of the ring exceeds the hash of the last entry. *)
Lemma forward_target_owner (lb : load_balancer) (l : list server) (h : Z) sv :
  ring_entries lb = Some l → entry_at lb (nr_servers lb - 1) = Some sv →
  (∀ x, x ∈ l → hash x ≤ hash sv) → hash sv ≠ h →
  ∃ p, ring_owner lb l h = Some p ∧ forward_target lb h = Some (Some p).
Proof.
  intros Hl He Hmax Hne.
  pose proof (ring_entries_last lb l sv Hl He) as Hlast.
  unfold forward_target, ring_owner. rewrite He. simpl.
  destruct (Z.ltb_spec (hash sv) h) as [Hlt|Hge].
  - rewrite (proj2 (list_find_None _ _)).
    + unfold entry_at in He. unfold server_at in *.
      destruct (Z.leb_spec 0 (nr_servers lb - 1)) as [Hn|Hn]; [|done].
      destruct (servers lb !! Z.to_nat (nr_servers lb - 1)) as [p|] eqn:Hp; [|done].
      simpl. destruct (servers lb !! Z.to_nat 0) as [p0|] eqn:Hp0.
      * exists p0. done.
      * apply lookup_ge_None in Hp0. apply lookup_lt_Some in Hp. lia.
    + apply Forall_forall. intros x Hx. apply zip_snd_elem in Hx.
      specialize (Hmax _ Hx). lia.
  - unfold find_entry. rewrite Hl. simpl.
    assert (Hex : ∃ r, list_find (λ x, h < hash x.2) (zip (servers lb) l) = Some r).
    { apply mapM_Some_1 in Hl. pose proof (Forall2_length _ _ _ Hl) as Hlen.
      rewrite last_lookup in Hlast.
      assert (Hz : ∃ p, zip (servers lb) l !! pred (length l) = Some (p, sv)).
      { destruct (take (Z.to_nat (nr_servers lb)) (servers lb) !! pred (length l)) as [p|] eqn:Hp.
        - exists p. apply lookup_zip_Some. split; [|done].
          by apply lookup_take_Some in Hp as [? _].
        - apply lookup_ge_None in Hp. apply lookup_lt_Some in Hlast. lia. }
      destruct Hz as (p & Hz).
      destruct (list_find (λ x, h < hash x.2) (zip (servers lb) l)) as [r|] eqn:Hf; [eauto|].
      exfalso. apply list_find_None in Hf. rewrite Forall_forall in Hf.
      apply (Hf (p, sv)); [by eapply list_elem_of_lookup_2|]. simpl. lia. }
    destruct Hex as ([i x] & Hf). rewrite Hf. exists x.1. split; [done|].
    assert (Hf' : list_find (λ x, (h <? hash x.2) = true) (zip (servers lb) l) = Some (i, x)).
    { apply list_find_Some in Hf as (H1 & H2 & H3). apply list_find_Some. split_and!; [done|lia|].
      intros j y Hj Hji Hy. apply (H3 j y Hj Hji). lia. }
    by rewrite Hf'.
Qed.

End Forwarding.

(** * The insertion position *)

Lemma get_insert_poz_loop_hash_zero l id : ∀ i prev,
  0 ≤ prev → (∀ sv, sv ∈ l → 0 < hash sv) → get_insert_poz_loop l i prev 0 id = -1.
Proof.
  induction l as [|sv l IH]; intros i prev Hprev Hpos; simpl; [done|].
  assert (0 < hash sv) by (apply Hpos; left).
  destruct (Z.ltb_spec prev 0); [lia|]. rewrite andb_false_r.
  destruct (Z.eqb_spec (hash sv) 0); [lia|].
  apply IH; [lia|]. intros x Hx. apply Hpos. by right.
Qed.

(** A server whose hash is 0 is appended behind servers of positive
    hash. *)
Lemma get_insert_poz_hash_zero lb l sv id :
  ring_entries lb = Some l → entry_at lb (nr_servers lb - 1) = Some sv →
  (∀ x, x ∈ l → 0 < hash x) → get_insert_poz lb 0 id = Some (-1).
Proof.
  intros Hl He Hpos. unfold get_insert_poz. rewrite He. simpl.
  pose proof (ring_entries_last lb l sv Hl He) as Hlast.
  assert (0 < hash sv).
  { apply Hpos. rewrite last_lookup in Hlast. by eapply list_elem_of_lookup_2. }
  destruct (Z.ltb_spec (hash sv) 0); [lia|].
  destruct (Z.eqb_spec (hash sv) 0); [lia|].
  rewrite Hl. simpl. by rewrite get_insert_poz_loop_hash_zero.
Qed.

(** Inside the ring two entries of equal hash end up by descending id: the
    new entry goes in front of an entry with a smaller id. *)
Lemma get_insert_poz_loop_tie sv rest i prev h id :
  hash sv = h → server_id sv < id → get_insert_poz_loop (sv :: rest) i prev h id = i.
Proof.
  intros Hh Hid. simpl. rewrite Hh.
  destruct (Z.ltb_spec h h); [lia|]. simpl. rewrite Z.eqb_refl.
  destruct (Z.ltb_spec (server_id sv) id); [done|lia].
Qed.

(** The position is -1 or an index of the ring. *)
Lemma get_insert_poz_loop_range l h id : ∀ i prev,
  (∀ sv, last l = Some sv → hash sv ≠ h) →
  get_insert_poz_loop l i prev h id = -1
  ∨ i ≤ get_insert_poz_loop l i prev h id ≤ i + Z.of_nat (length l) - 1.
Proof.
  induction l as [|sv l IH]; intros i prev Hlast; simpl; [by left|].
  destruct ((h <? hash sv) && (prev <? h)); [right; lia|].
  destruct (Z.eqb_spec (hash sv) h) as [Heq|Hne].
  - destruct l as [|sv' l]; [by specialize (Hlast sv eq_refl)|].
    right. destruct (server_id sv <? id); simpl; lia.
  - destruct (IH (i + 1) (hash sv)) as [?|?]; [|by left|right; lia].
    intros sv' Hsv'. apply Hlast. destruct l; [done|]. done.
Qed.

Lemma get_insert_poz_range lb l h id :
  ring_entries lb = Some l → Z.of_nat (length l) = nr_servers lb →
  is_Some (entry_at lb (nr_servers lb - 1)) →
  ∃ poz, get_insert_poz lb h id = Some poz ∧ (poz = -1 ∨ 0 ≤ poz ≤ nr_servers lb - 1).
Proof.
  intros Hl Hlen [sv He]. unfold get_insert_poz. rewrite He. simpl.
  pose proof (ring_entries_last lb l sv Hl He) as Hlast.
  assert (0 < nr_servers lb).
  { destruct l; [done|]. simpl in Hlen. lia. }
  destruct (Z.ltb_spec (hash sv) h); [eauto|].
  destruct (Z.eqb_spec (hash sv) h).
  - destruct (server_id sv <? id); eexists; split; try done; [by left|right; lia].
  - rewrite Hl. simpl. eexists. split; [done|].
    destruct (get_insert_poz_loop_range l h id 0 0) as [?|?]; [|by left|right; lia].
    intros sv' Hsv'. congruence.
Qed.

Section Migration.

Variable hash_string : string → Z.

Local Abbreviation wf_cache := (wf_cache hash_string).
Local Abbreviation wf_server := (wf_server hash_string).
Local Abbreviation servers_ok := (servers_ok hash_string).
Local Abbreviation migrating := (migrating hash_string).
Local Abbreviation wf_balancer := (wf_balancer hash_string).
Local Abbreviation lru_cache_get := (lru_cache_get hash_string).
Local Abbreviation lru_cache_put := (lru_cache_put hash_string).
Local Abbreviation lru_cache_remove := (lru_cache_remove hash_string).
Local Abbreviation execute_edit_tasks_for_document := (execute_edit_tasks_for_document hash_string).
Local Abbreviation redistribute_key := (redistribute_key hash_string).
Local Abbreviation redistribute_keys_loop := (redistribute_keys_loop hash_string).
Local Abbreviation redistribute_keys := (redistribute_keys hash_string).
Local Abbreviation flush_tasks := (flush_tasks hash_string).
Local Abbreviation migrate_from := (migrate_from hash_string).
Local Abbreviation insert_server := (insert_server hash_string).

Lemma same_ring_refl lb : same_ring lb lb.
Proof. by repeat split. Qed.

Lemma same_ring_trans lb1 lb2 lb3 :
  same_ring lb1 lb2 → same_ring lb2 lb3 → same_ring lb1 lb3.
Proof.
  intros (? & ? & ? & ? & ?) (? & ? & ? & ? & ?). repeat split; congruence.
Qed.

Lemma same_identity_refl s : same_identity s s.
Proof. by repeat split. Qed.

Lemma same_identity_trans s1 s2 s3 :
  same_identity s1 s2 → same_identity s2 s3 → same_identity s1 s3.
Proof. intros (? & ? & ?) (? & ? & ?). repeat split; congruence. Qed.

(** ** Reads of the ring succeed *)

Lemma servers_ok_deref lb i p :
  servers_ok lb → servers lb !! i = Some p →
  ∃ s, deref (mem lb) p = Some s ∧ wf_server s ∧ original_server s = None.
Proof. intros [_ H] Hp. apply H. by eapply list_elem_of_lookup_2. Qed.

Lemma server_at_Some lb i :
  0 ≤ i < Z.of_nat (length (servers lb)) →
  ∃ p, server_at lb i = Some p ∧ servers lb !! Z.to_nat i = Some p ∧ p ∈ servers lb.
Proof.
  intros Hi. unfold server_at. destruct (Z.leb_spec 0 i); [|lia].
  destruct (lookup_lt_is_Some_2 (servers lb) (Z.to_nat i)) as [p Hp]; [lia|].
  exists p. split_and!; [done|done|]. by eapply list_elem_of_lookup_2.
Qed.

Lemma entry_at_Some lb i :
  servers_ok lb → 0 ≤ i < Z.of_nat (length (servers lb)) →
  ∃ p s, server_at lb i = Some p ∧ entry_at lb i = Some s ∧ deref (mem lb) p = Some s
         ∧ p ∈ servers lb.
Proof.
  intros Hok Hi. destruct (server_at_Some lb i Hi) as (p & Hp & Hl & Hin).
  destruct (servers_ok_deref lb _ p Hok Hl) as (s & Hs & _).
  exists p, s. unfold entry_at. rewrite Hp. simpl. done.
Qed.

Lemma ring_entries_Some lb :
  servers_ok lb → ∃ l, ring_entries lb = Some l.
Proof.
  intros [_ Hok]. unfold ring_entries.
  apply (mapM_is_Some_2 (deref (mem lb))). apply Forall_forall. intros p Hp.
  apply elem_of_take in Hp as (i & Hp & _).
  destruct (Hok p) as (s & Hs & _); [by eapply list_elem_of_lookup_2|].
  unfold compose. rewrite Hs. by eexists.
Qed.

Lemma find_entry_Some lb f : servers_ok lb → ∃ r, find_entry lb f = Some r.
Proof.
  intros Hok. destruct (ring_entries_Some lb Hok) as [l Hl].
  unfold find_entry. rewrite Hl. simpl. eauto.
Qed.

Lemma redistribute_owner_Some lb new_s h :
  migrating lb → ∃ r, redistribute_owner lb new_s h = Some r.
Proof.
  intros (_ & Hok & Hnr). unfold redistribute_owner.
  destruct (entry_at_Some lb (nr_servers lb - 1) Hok) as (p & s & _ & -> & _); [lia|].
  simpl. destruct (_ && _).
  - destruct (server_at_Some lb 0) as (p0 & -> & _); [lia|]. simpl. eauto.
  - by apply find_entry_Some.
Qed.

(** ** States in which only the servers at [D] and [N] changed *)

Lemma only_changed_servers_ok lb lb' D N d' n' :
  servers_ok lb → only_changed lb lb' D N →
  deref (mem lb') D = Some d' → wf_server d' → original_server d' = None →
  deref (mem lb') N = Some n' → wf_server n' → original_server n' = None →
  servers_ok lb'.
Proof.
  intros [Hnd Hok] [(Hs & _) Hfr] HD HwD HoD HN HwN HoN. split; rewrite Hs; [done|].
  intros p Hp. destruct (decide (p = D)) as [->|HpD]; [eauto|].
  destruct (decide (p = N)) as [->|HpN]; [eauto|].
  rewrite Hfr by done. by apply Hok.
Qed.

Lemma only_changed_migrating lb lb' D N d' n' :
  migrating lb → only_changed lb lb' D N →
  deref (mem lb') D = Some d' → wf_server d' → original_server d' = None →
  deref (mem lb') N = Some n' → wf_server n' → original_server n' = None →
  migrating lb'.
Proof.
  intros (Hv & Hok & Hnr) Hoc HD HwD HoD HN HwN HoN.
  pose proof (only_changed_servers_ok lb lb' D N d' n' Hok Hoc HD HwD HoD HN HwN HoN).
  destruct Hoc as [(Hs & Hn & _ & Hv' & _) _]. split_and!; try done; try congruence.
  all: rewrite ?Hn, ?Hs; lia.
Qed.

End Migration.

Section Migration2.

Variable hash_string : string → Z.

Local Abbreviation wf_cache := (wf_cache hash_string).
Local Abbreviation wf_server := (wf_server hash_string).
Local Abbreviation servers_ok := (servers_ok hash_string).
Local Abbreviation migrating := (migrating hash_string).
Local Abbreviation wf_balancer := (wf_balancer hash_string).
Local Abbreviation lru_cache_get := (lru_cache_get hash_string).
Local Abbreviation lru_cache_put := (lru_cache_put hash_string).
Local Abbreviation lru_cache_remove := (lru_cache_remove hash_string).
Local Abbreviation execute_edit_tasks_for_document := (execute_edit_tasks_for_document hash_string).
Local Abbreviation redistribute_key := (redistribute_key hash_string).
Local Abbreviation redistribute_keys_loop := (redistribute_keys_loop hash_string).
Local Abbreviation redistribute_keys := (redistribute_keys hash_string).
Local Abbreviation flush_tasks := (flush_tasks hash_string).

Lemma only_changed_refl lb D N : only_changed lb lb D N.
Proof. split; [apply same_ring_refl|done]. Qed.

Lemma only_changed_trans lb1 lb2 lb3 D N :
  only_changed lb1 lb2 D N → only_changed lb2 lb3 D N → only_changed lb1 lb3 D N.
Proof.
  intros [H1 F1] [H2 F2]. split; [by eapply same_ring_trans|].
  intros p HD HN. rewrite F2, F1 by done. done.
Qed.

(** Writing a server back keeps the ring. *)
Lemma store_only_changed lb D N s :
  only_changed lb (set_mem lb (store (mem lb) D s)) D N.
Proof.
  split; [repeat split; simpl; by rewrite ?length_store|].
  intros p HD HN. simpl. by rewrite deref_store_ne.
Qed.

(** [flush_tasks] on a server of the ring. *)
Lemma flush_tasks_spec lb D d :
  D ∈ servers lb → deref (mem lb) D = Some d → wf_server d → original_server d = None →
  ∃ lb' d', flush_tasks lb D = Some lb' ∧ only_changed lb lb' D D
            ∧ deref (mem lb') D = Some d' ∧ wf_server d' ∧ same_identity d d'
            ∧ pending (task_queue d') = []
            ∧ (∀ k, k ∈ held_keys d' → k ∈ held_keys d).
Proof.
  intros Hin Hd Hwf Ho. unfold flush_tasks. rewrite Hd. simpl.
  rewrite Ho. simpl. rewrite Hd. simpl.
  destruct (execute_edit_tasks_held hash_string d (server_id d) Hwf)
    as (Hwf' & Hp & (Ho' & Hid & Hh) & Hk).
  destruct (execute_edit_tasks_for_document d (server_id d)) as [d' out]. simpl in *.
  eexists _, d'. split; [reflexivity|].
  split_and!; try done.
  - split; [repeat split; simpl; by rewrite ?length_store|].
    intros p HD _. simpl. by rewrite deref_store_ne.
  - simpl. apply deref_store_eq. by eapply deref_lt.
Qed.

(** What moving the key [k] does to the donor [d] and the receiver [n]. *)
Lemma move_key_servers d n k :
  wf_server d → wf_server n → k ∈ get_all_keys d →
  ∃ v db1,
    lru_cache_get (local_db d) k = (db1, Some v) ∧
    let n' := set_local_db n (lru_cache_put (local_db n) k v false).1.1 in
    let d' := set_local_db (set_cache d (lru_cache_remove (cache d) k))
                           (lru_cache_remove db1 k) in
    wf_server d' ∧ wf_server n'
    ∧ (∀ x, x ∈ get_all_keys d' ↔ x ∈ get_all_keys d ∧ x ≠ k)
    ∧ (∀ x, x ∈ get_all_keys n' → x ∈ get_all_keys n ∨ x = k).
Proof.
  intros Hd Hn Hk.
  pose proof (wfs_db _ _ Hd) as Hdb. pose proof (wfs_cache _ _ Hd) as Hdc.
  pose proof (wfs_db _ _ Hn) as Hnb.
  apply (get_all_keys_recency hash_string d k Hdb) in Hk.
  destruct (get_Some hash_string _ k Hdb Hk) as [v Hv].
  destruct (lru_cache_get_wf hash_string _ k Hdb) as (Hw1 & Hc1 & _ & _).
  pose proof (get_keys hash_string (local_db d) k) as Hk1.
  destruct (lru_cache_get (local_db d) k) as [db1 r] eqn:Eg. simpl in *. subst r.
  exists v, db1. split; [done|].
  destruct (lru_cache_remove_wf hash_string db1 k Hw1) as (Hw2 & Hc2).
  destruct (lru_cache_remove_wf hash_string (cache d) k Hdc) as (Hw3 & Hc3).
  destruct (lru_cache_put_wf hash_string (local_db n) k v false Hnb) as (Hw4 & Hc4).
  split_and!.
  - constructor; simpl; try done.
    + apply (wfs_queue _ _ Hd).
    + apply (wfs_queue_max _ _ Hd).
    + rewrite Hc2, Hc1, Hc3. apply (wfs_db_capacity _ _ Hd).
  - constructor; simpl; try done.
    + apply (wfs_cache _ _ Hn).
    + apply (wfs_queue _ _ Hn).
    + apply (wfs_queue_max _ _ Hn).
    + rewrite Hc4. apply (wfs_db_capacity _ _ Hn).
  - intros x. rewrite (get_all_keys_recency hash_string _ x); [|done]. simpl.
    rewrite (remove_keys hash_string db1 k x Hw1), (Hk1 x Hdb).
    by rewrite (get_all_keys_recency hash_string d x Hdb).
  - intros x. rewrite (get_all_keys_recency hash_string _ x); [|done]. simpl.
    intros Hx. apply put_keys in Hx; [|done]. destruct Hx as [Hx|Hx]; [left|by right].
    by apply (get_all_keys_recency hash_string n x Hnb).
Qed.

(** One turn of the loop of [redistribute_keys], without virtual nodes. *)
Lemma redistribute_key_step lb k N D poz d n :
  migrating lb → N ≠ D →
  deref (mem lb) D = Some d → wf_server d → original_server d = None →
  deref (mem lb) N = Some n → wf_server n → original_server n = None →
  k ∈ get_all_keys d →
  ∃ lb' d' n', redistribute_key lb k N D poz = Some lb'
    ∧ only_changed lb lb' D N
    ∧ deref (mem lb') D = Some d' ∧ wf_server d' ∧ same_identity d d'
    ∧ deref (mem lb') N = Some n' ∧ wf_server n' ∧ same_identity n n'
    ∧ task_queue d' = task_queue d ∧ task_queue n' = task_queue n
    ∧ (∀ x, x ∈ get_all_keys d' → x ∈ get_all_keys d)
    ∧ (∀ x, x ∈ get_all_keys d → x ≠ k → x ∈ get_all_keys d')
    ∧ (∀ x, x ∈ get_all_keys n' →
            x ∈ get_all_keys n ∨ (x = k ∧ k ∉ get_all_keys d')).
Proof.
  intros Hm Hne HD Hwd Hod HN Hwn Hon Hk.
  pose proof Hm as (Hv & Hok & Hnr).
  unfold redistribute_key. rewrite HN, HD. simpl.
  destruct (redistribute_owner_Some hash_string lb n (u32 (hash_string k)) Hm) as [serv ->].
  simpl. rewrite Hv. simpl. rewrite andb_true_r.
  destruct (should_redistribute n d poz (u32 (hash_string k))).
  - rewrite Hod, Hon. simpl. rewrite HD. simpl.
    destruct (move_key_servers d n k Hwd Hwn Hk) as (v & db1 & Hg & Hwd' & Hwn' & Hkd & Hkn).
    rewrite Hg. simpl.
    pose proof (deref_lt _ _ _ HD) as HltD. pose proof (deref_lt _ _ _ HN) as HltN.
    rewrite deref_store_ne by done. rewrite HN. simpl.
    destruct (lru_cache_put (local_db n) k v false) as [[db2 ?] ?] eqn:Ep. simpl in *.
    rewrite deref_store_ne by done. rewrite deref_store_eq by done. simpl.
    rewrite deref_store_eq by (by rewrite !length_store). simpl.
    eexists _, _, _. split; [reflexivity|].
    split_and!.
    + split; [repeat split; simpl; by rewrite ?length_store|].
      intros p HpD HpN. simpl. by rewrite !deref_store_ne.
    + simpl. apply deref_store_eq. by rewrite !length_store.
    + exact Hwd'.
    + done.
    + simpl. rewrite !deref_store_ne by done. apply deref_store_eq. by rewrite length_store.
    + exact Hwn'.
    + done.
    + done.
    + done.
    + intros x Hx. by apply Hkd in Hx as [? _].
    + intros x Hx Hxk. by apply Hkd.
    + intros x Hx. apply Hkn in Hx as [?| ->]; [by left|right].
      split; [done|]. intros Hin. by apply Hkd in Hin as [_ ?].
  - exists lb, d, n. split_and!; try done; try apply only_changed_refl.
    intros x Hx. by left.
Qed.

End Migration2.

Section Migration3.

Variable hash_string : string → Z.

Local Abbreviation wf_cache := (wf_cache hash_string).
Local Abbreviation wf_server := (wf_server hash_string).
Local Abbreviation servers_ok := (servers_ok hash_string).
Local Abbreviation migrating := (migrating hash_string).
Local Abbreviation wf_balancer := (wf_balancer hash_string).
Local Abbreviation redistribute_key := (redistribute_key hash_string).
Local Abbreviation redistribute_keys_loop := (redistribute_keys_loop hash_string).
Local Abbreviation redistribute_keys := (redistribute_keys hash_string).
Local Abbreviation flush_tasks := (flush_tasks hash_string).
Local Abbreviation migrate_from := (migrate_from hash_string).
Local Abbreviation insert_server := (insert_server hash_string).

(** The loop of [redistribute_keys]: keys leave the donor for the
    receiver, none is in both afterwards. *)
Lemma redistribute_keys_loop_spec key_list N D poz : ∀ n i lb d0 n0,
  migrating lb → N ≠ D →
  deref (mem lb) D = Some d0 → wf_server d0 → original_server d0 = None →
  deref (mem lb) N = Some n0 → wf_server n0 → original_server n0 = None →
  NoDup key_list → (i + n = length key_list)%nat →
  (∀ j k, (i ≤ j)%nat → key_list !! j = Some k → k ∈ get_all_keys d0) →
  ∃ lb' d' n', redistribute_keys_loop lb key_list n i N D poz = Some lb'
    ∧ only_changed lb lb' D N
    ∧ deref (mem lb') D = Some d' ∧ wf_server d' ∧ same_identity d0 d'
    ∧ deref (mem lb') N = Some n' ∧ wf_server n' ∧ same_identity n0 n'
    ∧ task_queue d' = task_queue d0 ∧ task_queue n' = task_queue n0
    ∧ (∀ x, x ∈ get_all_keys d' → x ∈ get_all_keys d0)
    ∧ (∀ x, x ∈ get_all_keys n' →
            x ∈ get_all_keys n0 ∨ (x ∈ get_all_keys d0 ∧ x ∉ get_all_keys d')).
Proof.
  induction n as [|n IH]; intros i lb d0 n0 Hm Hne HD Hwd Hod HN Hwn Hon Hnd Hlen Hrest.
  - simpl. exists lb, d0, n0. split_and!; try done; try apply only_changed_refl.
    intros x Hx. by left.
  - simpl.
    destruct (lookup_lt_is_Some_2 key_list i) as [k Hk]; [lia|]. rewrite Hk. simpl.
    destruct (redistribute_key_step hash_string lb k N D poz d0 n0)
      as (lb1 & d1 & n1 & -> & Hoc & HD1 & Hwd1 & Hid1 & HN1 & Hwn1 & Hin1 & Hqd & Hqn
          & HA & HB & HC); try done.
    { by apply (Hrest i k). }
    simpl.
    assert (Hm1 : migrating lb1).
    { apply (only_changed_migrating hash_string lb lb1 D N d1 n1); try done.
      - destruct Hid1 as (_ & _ & ->). done.
      - destruct Hin1 as (_ & _ & ->). done. }
    destruct (IH (S i) lb1 d1 n1) as (lb2 & d2 & n2 & -> & Hoc2 & HD2 & Hwd2 & Hid2 & HN2
                                      & Hwn2 & Hin2 & Hqd2 & Hqn2 & HA2 & HC2); try done.
    { destruct Hid1 as (_ & _ & ->). done. }
    { destruct Hin1 as (_ & _ & ->). done. }
    { lia. }
    { intros j k' Hj Hk'. apply HB; [apply (Hrest j k'); [lia|done]|].
      intros ->. assert (j = i); [|lia].
      by eapply NoDup_lookup. }
    exists lb2, d2, n2. split_and!; try done.
    + by eapply only_changed_trans.
    + by eapply same_identity_trans.
    + by eapply same_identity_trans.
    + congruence.
    + congruence.
    + intros x Hx. auto.
    + intros x Hx. destruct (HC2 x Hx) as [Hx1|[Hx1 Hx2]].
      * destruct (HC x Hx1) as [?|[-> Hkn]]; [by left|right].
        split; [by apply (Hrest i k)|]. intros Hin. apply Hkn. auto.
      * right. split; [auto|done].
Qed.

Lemma redistribute_keys_spec lb N D poz d0 n0 :
  migrating lb → N ≠ D →
  deref (mem lb) D = Some d0 → wf_server d0 → original_server d0 = None →
  deref (mem lb) N = Some n0 → wf_server n0 → original_server n0 = None →
  ∃ lb' d' n', redistribute_keys lb (get_all_keys d0) N D poz = Some lb'
    ∧ only_changed lb lb' D N
    ∧ deref (mem lb') D = Some d' ∧ wf_server d' ∧ same_identity d0 d'
    ∧ deref (mem lb') N = Some n' ∧ wf_server n' ∧ same_identity n0 n'
    ∧ task_queue d' = task_queue d0 ∧ task_queue n' = task_queue n0
    ∧ (∀ x, x ∈ get_all_keys d' → x ∈ get_all_keys d0)
    ∧ (∀ x, x ∈ get_all_keys n' →
            x ∈ get_all_keys n0 ∨ (x ∈ get_all_keys d0 ∧ x ∉ get_all_keys d')).
Proof.
  intros Hm Hne HD Hwd Hod HN Hwn Hon.
  unfold redistribute_keys. rewrite HD. simpl. rewrite Hod. simpl.
  rewrite HD. simpl.
  pose proof (get_all_keys_length hash_string d0 (wfs_db _ _ Hwd)) as Hlen.
  apply redistribute_keys_loop_spec; try done.
  - by apply (get_all_keys_NoDup hash_string), (wfs_db _ _ Hwd).
  - lia.
  - intros j k _ Hk. by eapply list_elem_of_lookup_2.
Qed.

(** The migration of [insert_server] without virtual nodes. *)
Lemma migrate_from_spec lb N D poz d0 n0 :
  migrating lb → N ≠ D → D ∈ servers lb →
  deref (mem lb) D = Some d0 → wf_server d0 → original_server d0 = None →
  deref (mem lb) N = Some n0 → wf_server n0 → original_server n0 = None →
  ∃ lb' d' n', migrate_from lb N D poz = Some lb'
    ∧ only_changed lb lb' D N
    ∧ deref (mem lb') D = Some d' ∧ wf_server d' ∧ original_server d' = None
    ∧ deref (mem lb') N = Some n' ∧ wf_server n' ∧ original_server n' = None
    ∧ pending (task_queue d') = [] ∧ task_queue n' = task_queue n0
    ∧ (∀ x, x ∈ get_all_keys d' → x ∈ held_keys d0)
    ∧ (∀ x, x ∈ get_all_keys n' →
            x ∈ get_all_keys n0 ∨ (x ∈ held_keys d0 ∧ x ∉ get_all_keys d')).
Proof.
  intros Hm Hne HinD HD Hwd Hod HN Hwn Hon.
  pose proof Hm as (Hv & Hok & Hnr).
  unfold migrate_from.
  destruct (flush_tasks_spec hash_string lb D d0 HinD HD Hwd Hod)
    as (lb1 & d1 & -> & Hoc1 & HD1 & Hwd1 & Hid1 & Hp1 & Hk1).
  simpl. rewrite HD1. simpl.
  assert (Hv1 : enable_vnodes lb1 = false).
  { destruct Hoc1 as [(_ & _ & _ & -> & _) _]. done. }
  rewrite Hv. rewrite HD1. simpl.
  assert (Hod1 : original_server d1 = None) by (destruct Hid1 as (_ & _ & ->); done).
  assert (HN1 : deref (mem lb1) N = Some n0).
  { destruct Hoc1 as [_ Hfr]. rewrite Hfr; done. }
  assert (Hm1 : migrating lb1).
  { by apply (only_changed_migrating hash_string lb lb1 D N d1 n0);
      try done; destruct Hoc1 as [? Hfr]; split; [done|intros p ? ?; by apply Hfr]. }
  destruct (redistribute_keys_spec lb1 N D poz d1 n0)
    as (lb2 & d2 & n2 & -> & Hoc2 & HD2 & Hwd2 & Hid2 & HN2 & Hwn2 & Hin2 & Hqd & Hqn
        & HA & HC); try done.
  exists lb2, d2, n2. split; [done|].
  assert (Hkd1 : ∀ x, x ∈ get_all_keys d1 → x ∈ held_keys d0).
  { intros x Hx. apply Hk1. unfold held_keys. apply elem_of_app. by left. }
  split_and!; try done.
  - eapply only_changed_trans; [|exact Hoc2].
    destruct Hoc1 as [? Hfr]. split; [done|]. intros p ? ?. by apply Hfr.
  - destruct Hid2 as (_ & _ & ->). done.
  - destruct Hin2 as (_ & _ & ->). done.
  - by rewrite Hqd.
  - intros x Hx. auto.
  - intros x Hx. destruct (HC x Hx) as [?|[? ?]]; [by left|right]. auto.
Qed.

(** Disjointness after a migration from [D] to the new server [N]. *)
Lemma held_once_migrated lb0 lb' D N d0 d' n' :
  held_once lb0 → D ∈ servers lb0 →
  (∀ p, p ∈ servers lb' → p = N ∨ p ∈ servers lb0) →
  (∀ p, p ≠ D → p ≠ N → deref (mem lb') p = deref (mem lb0) p) →
  deref (mem lb0) D = Some d0 →
  deref (mem lb') D = Some d' → deref (mem lb') N = Some n' →
  (∀ k, k ∈ held_keys d' → k ∈ held_keys d0 ∧ k ∈ get_all_keys d') →
  (∀ k, k ∈ held_keys n' → k ∈ held_keys d0 ∧ k ∉ get_all_keys d') →
  held_once lb'.
Proof.
  intros Hho HinD Hsrv Hfr HD0 HD' HN' Hd Hn k p1 p2 s1 s2 Hp1 Hp2 Hs1 Hs2 Hk1 Hk2.
  destruct (decide (p1 = p2)) as [|Hne]; [done|]. exfalso.
  assert (Hcase : ∀ p s, p ∈ servers lb' → deref (mem lb') p = Some s → k ∈ held_keys s →
            (p = N ∧ k ∈ held_keys d0 ∧ k ∉ get_all_keys d')
            ∨ (p ≠ N ∧ p = D ∧ k ∈ held_keys d0 ∧ k ∈ get_all_keys d')
            ∨ (p ≠ N ∧ p ≠ D ∧ p ∈ servers lb0 ∧ deref (mem lb0) p = Some s)).
  { intros p s Hp Hs Hk.
    destruct (decide (p = N)) as [->|HpN].
    - left. assert (s = n') as -> by congruence. split; [done|]. by apply Hn.
    - right. destruct (decide (p = D)) as [->|HpD].
      + left. assert (s = d') as -> by congruence. split_and!; try done; by apply Hd.
      + right. split_and!; try done.
        * destruct (Hsrv p Hp); [done|done].
        * by rewrite <- Hfr. }
  destruct (Hcase p1 s1 Hp1 Hs1 Hk1) as [(E1 & Ha1 & Hb1)|[(N1 & E1 & Ha1 & Hb1)|(N1 & D1 & Hi1 & Hd1)]];
  destruct (Hcase p2 s2 Hp2 Hs2 Hk2) as [(E2 & Ha2 & Hb2)|[(N2 & E2 & Ha2 & Hb2)|(N2 & D2 & Hi2 & Hd2)]].
  - congruence.
  - done.
  - apply D2. by apply (Hho k p2 D s2 d0).
  - done.
  - congruence.
  - apply D2. by apply (Hho k p2 D s2 d0).
  - apply D1. by apply (Hho k p1 D s1 d0).
  - apply D1. by apply (Hho k p1 D s1 d0).
  - apply Hne. by apply (Hho k p1 p2 s1 s2).
Qed.

Lemma held_once_db_disjoint lb :
  servers_ok lb → held_once lb → db_disjoint lb.
Proof.
  intros _ Hho k p1 p2 Hp1 Hp2 (s1 & Hs1 & _ & Hk1) (s2 & Hs2 & _ & Hk2).
  apply (Hho k p1 p2 s1 s2); try done; unfold held_keys; apply elem_of_app; by left.
Qed.

End Migration3.

Section AddServer.

Variable hash_string : string → Z.
Variable hash_uint : Z → Z.
Variable MAX_SERVERS : Z.

Local Abbreviation wf_cache := (wf_cache hash_string).
Local Abbreviation wf_server := (wf_server hash_string).
Local Abbreviation servers_ok := (servers_ok hash_string).
Local Abbreviation migrating := (migrating hash_string).
Local Abbreviation wf_balancer := (wf_balancer hash_string).
Local Abbreviation migrate_from := (migrate_from hash_string).
Local Abbreviation insert_server := (insert_server hash_string).
Local Abbreviation loader_add_server := (loader_add_server hash_string hash_uint).

Lemma ring_entries_length lb l :
  ring_entries lb = Some l → nr_servers lb = Z.of_nat (length (servers lb)) →
  Z.of_nat (length l) = nr_servers lb.
Proof.
  intros Hl Hnr. apply mapM_Some_1, Forall2_length in Hl.
  rewrite length_take_le in Hl by lia. lia.
Qed.

(** The migration into a server that was just put into the ring array. *)
Lemma migrate_new_spec lb srv1 s D poz sv d0 :
  wf_balancer lb → held_once lb → 1 ≤ nr_servers lb →
  s ∉ servers lb → deref (mem lb) s = Some sv → wf_server sv →
  original_server sv = None → held_keys sv = [] →
  D ∈ servers lb → deref (mem lb) D = Some d0 →
  srv1 ≡ₚ s :: servers lb →
  ∃ lb2, migrate_from (set_servers lb srv1) s D poz = Some lb2
         ∧ wf_balancer (set_nr_servers lb2 (nr_servers lb2 + 1))
         ∧ held_once (set_nr_servers lb2 (nr_servers lb2 + 1)).
Proof.
  intros Hwf Hho Hnr Hs Hsv Hwsv Hosv Hheld HD Hd0 Hperm.
  destruct Hwf as [Hv Hn [Hnd Hok]].
  destruct (Hok D HD) as (d0' & Hd0' & Hwd0 & Hod0).
  assert (d0' = d0) as -> by congruence.
  assert (HsD : s ≠ D) by (intros ->; done).
  set (lb1 := set_servers lb srv1).
  assert (Hok1 : servers_ok lb1).
  { split; simpl.
    - rewrite Hperm. by apply NoDup_cons.
    - intros p Hp. rewrite Hperm in Hp. apply elem_of_cons in Hp as [->|Hp]; [eauto|].
      by apply Hok. }
  assert (Hm1 : migrating lb1).
  { split_and!; simpl; try done. rewrite Hperm. simpl. lia. }
  destruct (migrate_from_spec hash_string lb1 s D poz d0 sv)
    as (lb2 & d' & n' & Hmig & Hoc & HD' & Hwd' & Hod' & HN' & Hwn' & Hon' & Hpd & Hqn
        & HA & HC); try done.
  { simpl. rewrite Hperm. by right. }
  exists lb2. split; [done|].
  pose proof (only_changed_servers_ok hash_string lb1 lb2 D s d' n' Hok1 Hoc
                HD' Hwd' Hod' HN' Hwn' Hon') as Hok2.
  destruct Hoc as [(Hs2 & Hn2 & _ & Hv2 & _) Hfr].
  split.
  - constructor; simpl.
    + by rewrite Hv2.
    + rewrite Hn2, Hs2. simpl. rewrite Hperm. simpl. lia.
    + exact Hok2.
  - assert (Hsrv : ∀ p, p ∈ servers (set_nr_servers lb2 (nr_servers lb2 + 1)) →
                        p = s ∨ p ∈ servers lb).
    { intros p Hp. simpl in Hp. rewrite Hs2 in Hp. simpl in Hp. rewrite Hperm in Hp.
      by apply elem_of_cons in Hp. }
    assert (Hfr' : ∀ p, p ≠ D → p ≠ s →
              deref (mem (set_nr_servers lb2 (nr_servers lb2 + 1))) p = deref (mem lb) p).
    { intros p HpD Hps. simpl. by rewrite Hfr. }
    assert (Hd : ∀ k, k ∈ held_keys d' → k ∈ held_keys d0 ∧ k ∈ get_all_keys d').
    { intros k Hk. unfold held_keys in Hk. rewrite Hpd in Hk. simpl in Hk.
      rewrite app_nil_r in Hk. auto. }
    assert (Hnk : ∀ k, k ∈ held_keys n' → k ∈ held_keys d0 ∧ k ∉ get_all_keys d').
    { intros k Hk. unfold held_keys in Hk, Hheld. rewrite Hqn in Hk.
      apply app_eq_nil in Hheld as [Hk0 Hp0]. rewrite Hp0, app_nil_r in Hk.
      destruct (HC k Hk) as [Hin|?]; [|done].
      rewrite Hk0 in Hin. by apply elem_of_nil in Hin. }
    exact (held_once_migrated lb _ D s d0 d' n' Hho HD Hsrv Hfr' Hd0 HD' HN' Hd Hnk).
Qed.

(** [insert_server] without virtual nodes. *)
Lemma insert_server_spec lb s sv :
  wf_balancer lb → held_once lb → 1 ≤ nr_servers lb →
  s ∉ servers lb → deref (mem lb) s = Some sv → wf_server sv →
  original_server sv = None → held_keys sv = [] →
  ∃ lb', insert_server lb s = Some lb' ∧ wf_balancer lb' ∧ held_once lb'.
Proof.
  intros Hwf Hho Hnr Hs Hsv Hwsv Hosv Hheld.
  pose proof Hwf as [Hv Hn [Hnd Hok]].
  unfold insert_server. rewrite Hsv. simpl.
  destruct (ring_entries_Some hash_string lb (conj Hnd Hok)) as [l Hl].
  pose proof (ring_entries_length lb l Hl Hn) as Hlen.
  destruct (get_insert_poz_range lb l (hash sv) (server_id sv) Hl Hlen) as (poz & -> & Hpoz).
  { destruct (entry_at_Some hash_string lb (nr_servers lb - 1) (conj Hnd Hok))
      as (p & e & _ & -> & _); [lia|]. by eexists. }
  simpl. rewrite Hv. simpl.
  destruct (Z.eqb_spec poz (-1)) as [->|Hne].
  - rewrite take_ge by lia.
    destruct (server_at_Some lb 0) as (D & HD & HDl & HDin); [lia|].
    assert (HD1 : server_at (set_servers lb (servers lb ++ [s])) 0 = Some D).
    { unfold server_at in *. simpl in *. rewrite lookup_app_l; [done|]. lia. }
    rewrite HD1. simpl.
    destruct (Hok D HDin) as (d0 & Hd0 & _).
    destruct (migrate_new_spec lb (servers lb ++ [s]) s D (-1) sv d0)
      as (lb2 & -> & Hwf2 & Hho2); try done.
    { by rewrite <- Permutation_cons_append. }
    simpl. eauto.
  - assert (Hr : 0 ≤ poz ≤ nr_servers lb - 1) by (destruct Hpoz; [done|lia]).
    destruct (server_at_Some lb poz) as (D & HD & HDl & HDin); [lia|].
    set (srv1 := take (Z.to_nat poz) (servers lb) ++ s :: drop (Z.to_nat poz) (servers lb)).
    assert (HD1 : server_at (set_servers lb srv1) (poz + 1) = Some D).
    { unfold server_at. simpl. destruct (Z.leb_spec 0 (poz + 1)); [|lia].
      unfold srv1. rewrite lookup_app_r by (rewrite length_take; lia).
      rewrite length_take_le by lia.
      replace (Z.to_nat (poz + 1) - Z.to_nat poz)%nat with 1%nat by lia.
      simpl. rewrite lookup_drop. by rewrite Nat.add_0_r. }
    rewrite HD1. simpl.
    destruct (Hok D HDin) as (d0 & Hd0 & _).
    destruct (migrate_new_spec lb srv1 s D poz sv d0)
      as (lb2 & -> & Hwf2 & Hho2); try done.
    { unfold srv1. rewrite <- Permutation_middle. by rewrite take_drop. }
    simpl. eauto.
Qed.

(** A server fresh from [init_server] holds nothing. *)
Lemma new_server_wf cache_size id :
  0 < cache_size < UINT_MOD → 0 < u32 (cache_size * 1000) →
  wf_server (new_server hash_uint cache_size id None)
  ∧ original_server (new_server hash_uint cache_size id None) = None
  ∧ held_keys (new_server hash_uint cache_size id None) = [].
Proof.
  intros Hc Hd. split_and!; try done.
  - constructor; simpl.
    + by apply init_lru_cache_wf.
    + apply init_lru_cache_wf. split; [done|]. unfold u32. apply Z.mod_pos_bound.
      by unfold UINT_MOD.
    + apply q_create_wf. by unfold MAX_TASK_QUEUE_SIZE, UINT_MOD.
    + done.
    + done.
  - unfold held_keys, get_all_keys. simpl.
    assert (H : ∀ n, concat (replicate n ([] : list info)) = []).
    { induction n; simpl; auto. }
    by rewrite H.
Qed.

Lemma add_server_keeps_keys_apart (lb : load_balancer) (id cache_size : Z) :
  wf_balancer lb → held_once lb →
  0 < cache_size < UINT_MOD → 0 < u32 (cache_size * 1000) →
  ∃ lb', loader_add_server lb id cache_size = Some lb'
         ∧ wf_balancer lb' ∧ held_once lb' ∧ db_disjoint lb'.
Proof.
  intros Hwf Hho Hc Hd.
  pose proof Hwf as [Hv Hn [Hnd Hok]].
  destruct (new_server_wf cache_size id Hc Hd) as (Hwn & Hon & Hhn).
  set (sv := new_server hash_uint cache_size id None) in *.
  assert (Hfresh : length (mem lb) ∉ servers lb).
  { intros Hin. destruct (Hok _ Hin) as (s & Hs & _). apply deref_lt in Hs. lia. }
  assert (Hres : ∃ lb', loader_add_server lb id cache_size = Some lb'
                        ∧ wf_balancer lb' ∧ held_once lb').
  { unfold loader_add_server, alloc. fold sv. rewrite Hv. simpl.
    destruct (Z.eqb_spec (nr_servers lb) 0) as [H0|H0].
    - eexists. split; [reflexivity|].
      assert (Hsrv : servers lb = []).
      { destruct (servers lb); [done|]. simpl in Hn. lia. }
      split.
      + constructor; simpl; try done; [lia|].
        split; simpl; [apply NoDup_singleton|].
        intros p Hp. apply list_elem_of_singleton in Hp as ->.
        exists sv. split_and!; try done. apply deref_alloc_new.
      + intros k p1 p2 s1 s2 Hp1 Hp2 _ _ _ _. simpl in *.
        apply list_elem_of_singleton in Hp1, Hp2. congruence.
    - set (lb1 := if max_servers (set_mem lb (mem lb ++ [Some sv])) <=?
                     nr_servers (set_mem lb (mem lb ++ [Some sv])) + 3
                  then set_max_servers (set_mem lb (mem lb ++ [Some sv]))
                         (max_servers (set_mem lb (mem lb ++ [Some sv])) * 2)
                  else set_mem lb (mem lb ++ [Some sv])).
      assert (Hlb1 : servers lb1 = servers lb ∧ nr_servers lb1 = nr_servers lb
                     ∧ enable_vnodes lb1 = enable_vnodes lb
                     ∧ mem lb1 = mem lb ++ [Some sv]).
      { unfold lb1. by destruct (_ <=? _). }
      destruct Hlb1 as (Hs1 & Hn1 & Hv1 & Hm1).
      apply (insert_server_spec lb1 (length (mem lb)) sv).
      + constructor; try congruence. split; rewrite Hs1; [done|].
        intros p Hp. destruct (Hok p Hp) as (s & Hs & ?). exists s. split; [|done].
        rewrite Hm1. by apply deref_alloc_old.
      + intros k p1 p2 s1 s2 Hp1 Hp2 Hd1 Hd2. rewrite Hs1 in Hp1, Hp2.
        rewrite Hm1 in Hd1, Hd2.
        destruct (Hok p1 Hp1) as (s1' & Hs1' & _). destruct (Hok p2 Hp2) as (s2' & Hs2' & _).
        rewrite (deref_alloc_old _ _ _ _ Hs1') in Hd1.
        rewrite (deref_alloc_old _ _ _ _ Hs2') in Hd2.
        apply (Hho k p1 p2); congruence.
      + rewrite Hn1. lia.
      + by rewrite Hs1.
      + rewrite Hm1. apply deref_alloc_new.
      + done.
      + done.
      + done. }
  destruct Hres as (lb' & Hadd & Hwf' & Hho'). exists lb'. split_and!; try done.
  apply (held_once_db_disjoint hash_string); [apply (wfb_servers _ _ Hwf')|done].
Qed.

End AddServer.

Section RemoveServer.

Variable hash_string : string → Z.

Local Abbreviation wf_cache := (wf_cache hash_string).
Local Abbreviation wf_server := (wf_server hash_string).
Local Abbreviation servers_ok := (servers_ok hash_string).
Local Abbreviation wf_balancer := (wf_balancer hash_string).
Local Abbreviation lru_cache_get := (lru_cache_get hash_string).
Local Abbreviation lru_cache_put := (lru_cache_put hash_string).
Local Abbreviation flush_tasks := (flush_tasks hash_string).
Local Abbreviation copy_keys_loop := (copy_keys_loop hash_string).
Local Abbreviation copy_keys := (copy_keys hash_string).
Local Abbreviation loader_remove_server_loop := (loader_remove_server_loop hash_string).
Local Abbreviation loader_remove_server := (loader_remove_server hash_string).

(** Writing a key the cache holds keeps its keys and its size. *)
Lemma put_present_keys c k v b :
  wf_cache c → k ∈ recency_keys c →
  size (lru_cache_put c k v b).1.1 = size c
  ∧ ∀ x, x ∈ recency_keys (lru_cache_put c k v b).1.1 ↔ x ∈ recency_keys c.
Proof.
  intros Hwf Hk. destruct (contents_lookup_cases c k) as [(p1 & v0 & p2 & Hc)|Hn]; [|done].
  destruct (lru_cache_put_hit hash_string c p1 p2 k v0 v b Hwf Hc) as (c' & -> & _ & Hc' & _ & Hs).
  simpl. split; [done|]. intros x. rewrite !recency_keys_contents, Hc', Hc.
  rewrite !fmap_app, !fmap_cons, !elem_of_app, !elem_of_cons. simpl.
  rewrite elem_of_nil. tauto.
Qed.

Lemma set_local_db_wf s c :
  wf_server s → wf_cache c → capacity c = capacity (local_db s) →
  wf_server (set_local_db s c).
Proof.
  intros Hs Hc Hcap. destruct Hs. constructor; simpl; try done. congruence.
Qed.

Local Abbreviation copying := (copying hash_string).

Lemma copy_keys_loop_spec lb0 p next t0 x0 : ∀ n j lb,
  copying lb0 lb p next t0 x0 →
  (Z.of_nat j ≤ size (local_db t0)) → (Z.to_nat (size (local_db t0)) < j + n)%nat →
  Z.of_nat (length (get_all_keys t0)) = size (local_db t0) →
  ∃ lb', copy_keys_loop n lb (get_all_keys t0) j p (Some next) false false = Some lb'
         ∧ copying lb0 lb' p next t0 x0.
Proof.
  induction n as [|n IH]; intros j lb Hc Hj Hn Hlen; [lia|].
  destruct Hc as (Hoc & t & x & Ht & Hwt & Hot & Hsz & Hkt & Hx & Hwx & Hox & Hqx & Hkx).
  simpl. rewrite Ht. simpl. rewrite Hsz.
  destruct (Z.ltb_spec (Z.of_nat j) (size (local_db t0))) as [Hlt|Hge].
  - destruct (lookup_lt_is_Some_2 (get_all_keys t0) j) as [k Hk]; [lia|].
    rewrite Hk. simpl.
    assert (Hkin : k ∈ get_all_keys t) by (apply Hkt; by eapply list_elem_of_lookup_2).
    pose proof (wfs_db _ _ Hwt) as Hdbt.
    apply (get_all_keys_recency hash_string t k Hdbt) in Hkin.
    destruct (get_Some hash_string _ k Hdbt Hkin) as [v Hv].
    destruct (lru_cache_get_wf hash_string _ k Hdbt) as (Hw1 & Hc1 & Hs1 & _).
    pose proof (get_keys hash_string (local_db t) k) as Hk1.
    destruct (lru_cache_get (local_db t) k) as [db1 r] eqn:Eg. simpl in *. subst r.
    pose proof (deref_lt _ _ _ Ht) as Hltp. pose proof (deref_lt _ _ _ Hx) as Hltn.
    set (t1 := set_local_db t db1).
    assert (Hwt1 : wf_server t1) by (by apply set_local_db_wf).
    assert (Hkt1 : ∀ y, y ∈ get_all_keys t1 ↔ y ∈ get_all_keys t).
    { intros y. rewrite (get_all_keys_recency hash_string t1 y Hw1). simpl.
      rewrite (Hk1 y Hdbt). by rewrite (get_all_keys_recency hash_string t y Hdbt). }
    destruct (decide (next = p)) as [->|Hne].
    + assert (x = t) as -> by congruence.
      rewrite deref_store_eq by done. simpl.
      destruct (put_present_keys db1 k v false Hw1) as (Hs2 & Hk2).
      { by apply (Hk1 k Hdbt). }
      destruct (lru_cache_put_wf hash_string db1 k v false Hw1) as (Hw2 & Hc2).
      destruct (lru_cache_put db1 k v false) as [[db2 ?] ?] eqn:Ep. simpl in *.
      apply IH; try lia.
      split.
      * eapply only_changed_trans; [exact Hoc|].
        split; [repeat split; simpl; by rewrite ?length_store|].
        intros q Hq _. simpl. by rewrite !deref_store_ne.
      * assert (Hkt2 : ∀ y, y ∈ get_all_keys (set_local_db t1 db2) ↔ y ∈ get_all_keys t).
        { intros y. rewrite (get_all_keys_recency hash_string _ y); [|done]. simpl.
          rewrite Hk2. rewrite (Hk1 y Hdbt).
          by rewrite (get_all_keys_recency hash_string t y Hdbt). }
        exists (set_local_db t1 db2), (set_local_db t1 db2). simpl.
        split_and!; try done.
        -- apply deref_store_eq. by rewrite length_store.
        -- apply set_local_db_wf; [done|done|]. simpl. congruence.
        -- congruence.
        -- intros y Hy. apply Hkt2. auto.
        -- apply deref_store_eq. by rewrite length_store.
        -- apply set_local_db_wf; [done|done|]. simpl. congruence.
        -- intros y Hy. apply Hkt2 in Hy. auto.
    + rewrite deref_store_ne by done. rewrite Hx. simpl.
      pose proof (wfs_db _ _ Hwx) as Hdbx.
      destruct (lru_cache_put_wf hash_string (local_db x) k v false Hdbx) as (Hw2 & Hc2).
      pose proof (put_keys hash_string (local_db x) k v false) as Hk2.
      destruct (lru_cache_put (local_db x) k v false) as [[db2 ?] ?] eqn:Ep. simpl in *.
      apply IH; try lia.
      split.
      * eapply only_changed_trans; [exact Hoc|].
        split; [repeat split; simpl; by rewrite ?length_store|].
        intros q Hq Hq'. simpl. by rewrite !deref_store_ne.
      * exists t1, (set_local_db x db2). simpl.
        split_and!; try done.
        -- rewrite deref_store_ne by done. by apply deref_store_eq.
        -- congruence.
        -- intros y Hy. apply Hkt1. auto.
        -- apply deref_store_eq. by rewrite length_store.
        -- by apply set_local_db_wf.
        -- intros y Hy.
           apply (get_all_keys_recency hash_string (set_local_db x db2) y Hw2) in Hy.
           simpl in Hy. apply Hk2 in Hy; [|done]. destruct Hy as [Hy| ->].
           ++ apply Hkx. by apply (get_all_keys_recency hash_string x y Hdbx).
           ++ right. by eapply list_elem_of_lookup_2.
  - exists lb. split; [done|]. split; [done|].
    exists t, x. split_and!; done.
Qed.

End RemoveServer.

Section RemoveServer2.

Variable hash_string : string → Z.

Local Abbreviation wf_cache := (wf_cache hash_string).
Local Abbreviation wf_server := (wf_server hash_string).
Local Abbreviation servers_ok := (servers_ok hash_string).
Local Abbreviation wf_balancer := (wf_balancer hash_string).
Local Abbreviation flush_tasks := (flush_tasks hash_string).
Local Abbreviation copy_keys_loop := (copy_keys_loop hash_string).
Local Abbreviation copy_keys := (copy_keys hash_string).
Local Abbreviation copying := (copying hash_string).
Local Abbreviation loader_remove_server_loop := (loader_remove_server_loop hash_string).
Local Abbreviation loader_remove_server := (loader_remove_server hash_string).

(** Flushing the departing server and copying its keys to its neighbour. *)
Lemma flush_and_copy_spec lb p next t0 x0 :
  wf_balancer lb → p ∈ servers lb → next ∈ servers lb →
  deref (mem lb) p = Some t0 → deref (mem lb) next = Some x0 →
  ∃ lb1 lb2 x,
    flush_tasks lb p = Some lb1 ∧ copy_keys lb1 p (Some next) false false = Some lb2
    ∧ only_changed lb lb2 p next
    ∧ deref (mem lb2) next = Some x ∧ wf_server x ∧ original_server x = None
    ∧ (∀ k, k ∈ held_keys x → k ∈ held_keys x0 ∨ k ∈ held_keys t0).
Proof.
  intros Hwf Hp Hnext Ht0 Hx0.
  destruct Hwf as [Hv Hn [Hnd Hok]].
  destruct (Hok p Hp) as (t0' & Ht0' & Hwt0 & Hot0).
  assert (t0' = t0) as -> by congruence.
  destruct (Hok next Hnext) as (x0' & Hx0' & Hwx0 & Hox0).
  assert (x0' = x0) as -> by congruence.
  destruct (flush_tasks_spec hash_string lb p t0 Hp Ht0 Hwt0 Hot0)
    as (lb1 & t1 & Hfl & Hoc1 & Ht1 & Hwt1 & Hid1 & Hp1 & Hk1).
  assert (Hot1 : original_server t1 = None) by (destruct Hid1 as (_ & _ & ->); done).
  (* the neighbour as the flush leaves it *)
  assert (Hx1 : ∃ x1, deref (mem lb1) next = Some x1 ∧ wf_server x1
                      ∧ original_server x1 = None
                      ∧ (∀ k, k ∈ held_keys x1 → k ∈ held_keys x0 ∨ k ∈ held_keys t0)).
  { destruct (decide (next = p)) as [->|Hne].
    - exists t1. split_and!; try done. intros k Hk. right. auto.
    - exists x0. destruct Hoc1 as [_ Hfr]. rewrite Hfr by done.
      split_and!; try done. intros k Hk. by left. }
  destruct Hx1 as (x1 & Hx1 & Hwx1 & Hox1 & Hkx1).
  exists lb1. unfold copy_keys. rewrite Ht1. simpl.
  pose proof (get_all_keys_length hash_string t1 (wfs_db _ _ Hwt1)) as Hlen.
  destruct (copy_keys_loop_spec hash_string lb1 p next t1 x1
              (S (Z.to_nat (size (local_db t1)))) 0%nat lb1)
    as (lb2 & Hloop & Hoc2 & t2 & x2 & Ht2 & Hwt2 & Hot2 & Hsz & Hkt & Hx2 & Hwx2 & Hox2
        & Hqx & Hkx); try done; try lia.
  { split; [apply only_changed_refl|]. exists t1, x1. split_and!; try done. intros k Hk. by left. }
  exists lb2, x2. split_and!; try done.
  - eapply only_changed_trans; [|exact Hoc2].
    destruct Hoc1 as [? Hfr]. split; [done|]. intros q ? ?. by apply Hfr.
  - intros k Hk. unfold held_keys in Hk. rewrite Hqx in Hk.
    apply elem_of_app in Hk as [Hk|Hk].
    + destruct (Hkx k Hk) as [Hk'|Hk'].
      * apply Hkx1. unfold held_keys. apply elem_of_app. by left.
      * right. apply Hk1. unfold held_keys. apply elem_of_app. by left.
    + apply Hkx1. unfold held_keys. apply elem_of_app. by right.
Qed.

(** One entry leaves the ring. *)
Lemma remove_entry_spec lb i p next :
  wf_balancer lb → held_once lb →
  servers lb !! i = Some p → next ∈ servers lb →
  ∃ lb1 lb2,
    flush_tasks lb p = Some lb1 ∧ copy_keys lb1 p (Some next) false false = Some lb2
    ∧ nr_servers lb2 = nr_servers lb
    ∧ let lb3 := set_servers (set_mem lb2 (free_server (mem lb2) p))
                   (delete i (servers (set_mem lb2 (free_server (mem lb2) p)))) in
      wf_balancer (set_nr_servers lb3 (nr_servers lb3 - 1))
      ∧ held_once (set_nr_servers lb3 (nr_servers lb3 - 1)).
Proof.
  intros Hwf Hho Hi Hnext.
  pose proof Hwf as [Hv Hn [Hnd Hok]].
  assert (Hp : p ∈ servers lb) by (by eapply list_elem_of_lookup_2).
  destruct (Hok p Hp) as (t0 & Ht0 & Hwt0 & Hot0).
  destruct (Hok next Hnext) as (x0 & Hx0 & Hwx0 & Hox0).
  destruct (flush_and_copy_spec lb p next t0 x0 Hwf Hp Hnext Ht0 Hx0)
    as (lb1 & lb2 & x & Hfl & Hcp & Hoc & Hx & Hwx & Hox & Hkx).
  exists lb1, lb2. split; [done|]. split; [done|].
  destruct Hoc as [(Hs2 & Hn2 & _ & Hv2 & _) Hfr]. split; [done|]. simpl.
  assert (Hdel : ∀ q, q ∈ delete i (servers lb) → q ∈ servers lb ∧ q ≠ p).
  { intros q Hq. rewrite <- (take_drop_middle _ _ _ Hi) in Hnd.
    rewrite delete_take_drop in Hq.
    apply NoDup_app in Hnd as (_ & H1 & H2). apply NoDup_cons in H2 as [H2 _].
    split.
    - rewrite <- (take_drop_middle _ _ _ Hi). apply elem_of_app in Hq as [?|?];
        apply elem_of_app; [by left|right; by right].
    - intros ->. apply elem_of_app in Hq as [Hq|Hq]; [|done].
      apply (H1 _ Hq). left. }
  assert (Hder : ∀ q, q ∈ delete i (servers lb) →
            ∃ s, deref (free_server (mem lb2) p) q = Some s ∧ wf_server s
                 ∧ original_server s = None
                 ∧ ∀ k, k ∈ held_keys s →
                     (∃ s0, deref (mem lb) q = Some s0 ∧ k ∈ held_keys s0)
                     ∨ (q = next ∧ k ∈ held_keys t0)).
  { intros q Hq. destruct (Hdel q Hq) as [Hq1 Hq2].
    rewrite deref_free_ne by done.
    destruct (decide (q = next)) as [->|Hqn].
    - exists x. split_and!; try done. intros k Hk.
      destruct (Hkx k Hk); [left; eauto|right; done].
    - rewrite Hfr by done. destruct (Hok q Hq1) as (s & Hs & ? & ?).
      exists s. split_and!; try done. intros k Hk. left. eauto. }
  split.
  - constructor; simpl.
    + by rewrite Hv2.
    + rewrite Hn2, Hs2, Hn. rewrite length_delete by eauto.
      apply lookup_lt_Some in Hi. lia.
    + split; simpl; rewrite Hs2.
      * rewrite delete_take_drop. rewrite <- (take_drop_middle _ _ _ Hi) in Hnd.
        apply NoDup_app in Hnd as (H1 & H2 & H3). apply NoDup_cons in H3 as [_ H3].
        apply NoDup_app. split_and!; try done.
        intros y Hy Hy'. apply (H2 y Hy). by right.
      * intros q Hq. destruct (Hder q Hq) as (s & ? & ? & ? & _). eauto.
  - intros k q1 q2 s1 s2 Hq1 Hq2 Hd1 Hd2 Hk1 Hk2. simpl in *.
    rewrite Hs2 in Hq1, Hq2.
    destruct (Hder q1 Hq1) as (s1' & Hs1' & _ & _ & Hh1).
    destruct (Hder q2 Hq2) as (s2' & Hs2' & _ & _ & Hh2).
    assert (s1' = s1) as -> by congruence. assert (s2' = s2) as -> by congruence.
    destruct (Hdel q1 Hq1) as [Hi1 Hn1]. destruct (Hdel q2 Hq2) as [Hi2 Hn2'].
    destruct (Hh1 k Hk1) as [(a1 & Ha1 & Hka1)|[-> Hka1]];
    destruct (Hh2 k Hk2) as [(a2 & Ha2 & Hka2)|[-> Hka2]].
    + by apply (Hho k q1 q2 a1 a2).
    + exfalso. apply Hn1. by apply (Hho k q1 p a1 t0).
    + exfalso. apply Hn2'. by apply (Hho k q2 p a2 t0).
    + done.
Qed.

End RemoveServer2.

Section RemoveServer3.

Variable hash_string : string → Z.
Variable hash_uint : Z → Z.

Local Abbreviation wf_server := (wf_server hash_string).
Local Abbreviation servers_ok := (servers_ok hash_string).
Local Abbreviation wf_balancer := (wf_balancer hash_string).
Local Abbreviation flush_tasks := (flush_tasks hash_string).
Local Abbreviation copy_keys := (copy_keys hash_string).
Local Abbreviation loader_remove_server_loop := (loader_remove_server_loop hash_string).
Local Abbreviation loader_remove_server := (loader_remove_server hash_string).
Local Abbreviation loader_add_server := (loader_add_server hash_string hash_uint).

Lemma loader_remove_server_loop_spec id : ∀ n lb i ok,
  wf_balancer lb → held_once lb → 0 ≤ i ≤ nr_servers lb →
  (Z.to_nat (nr_servers lb - i) < n)%nat →
  ∃ lb', loader_remove_server_loop n lb id i ok = Some lb'
         ∧ wf_balancer lb' ∧ held_once lb'.
Proof.
  induction n as [|n IH]; intros lb i ok Hwf Hho Hi Hn; [lia|].
  pose proof Hwf as [Hv Hnr [Hnd Hok]].
  simpl. destruct (Z.ltb_spec i (nr_servers lb)) as [Hlt|Hge]; [|eauto].
  destruct (server_at_Some lb i) as (p & -> & Hpl & Hpin); [lia|]. simpl.
  destruct (Hok p Hpin) as (sv & -> & _). simpl.
  destruct (family (server_id sv) =? id).
  - assert (Hnext : ∃ next, (if i =? nr_servers lb - 1 then server_at lb 0
                             else server_at lb (i + 1)) = Some next ∧ next ∈ servers lb).
    { destruct (Z.eqb_spec i (nr_servers lb - 1)).
      - destruct (server_at_Some lb 0) as (q & ? & _ & ?); [lia|]. eauto.
      - destruct (server_at_Some lb (i + 1)) as (q & ? & _ & ?); [lia|]. eauto. }
    destruct Hnext as (next & -> & Hnin). simpl.
    rewrite Hv. simpl.
    destruct (remove_entry_spec hash_string lb (Z.to_nat i) p next Hwf Hho Hpl Hnin)
      as (lb1 & lb2 & -> & Hcp & Hnr2 & Hwf3 & Hho3).
    simpl. rewrite Hcp. simpl. simpl in Hwf3, Hho3.
    apply IH; try done; simpl; lia.
  - apply IH; try done; lia.
Qed.

Lemma remove_server_keeps_keys_apart (lb : load_balancer) (id : Z) :
  wf_balancer lb → held_once lb →
  ∃ lb', loader_remove_server lb id = Some lb'
         ∧ wf_balancer lb' ∧ held_once lb' ∧ db_disjoint lb'.
Proof.
  intros Hwf Hho. unfold loader_remove_server.
  destruct (loader_remove_server_loop_spec id (S (Z.to_nat (nr_servers lb))) lb 0 false)
    as (lb1 & -> & Hwf1 & Hho1); try done.
  { destruct Hwf as [_ Hn _]. lia. }
  { lia. }
  simpl. eexists. split; [reflexivity|].
  assert (H : wf_balancer (if nr_servers lb1 <? max_servers lb1 `quot` 2
                           then set_max_servers lb1 (max_servers lb1 `quot` 2) else lb1)
              ∧ held_once (if nr_servers lb1 <? max_servers lb1 `quot` 2
                           then set_max_servers lb1 (max_servers lb1 `quot` 2) else lb1)).
  { destruct (_ <? _); [|done]. split; [by destruct Hwf1|exact Hho1]. }
  destruct H as [H1 H2]. split_and!; try done.
  apply (held_once_db_disjoint hash_string); [apply (wfb_servers _ _ H1)|done].
Qed.

Lemma init_load_balancer_wf max : 
  wf_balancer (init_load_balancer max false) ∧ held_once (init_load_balancer max false).
Proof.
  split.
  - constructor; simpl; try done. split; simpl; [constructor|].
    intros p Hp. by apply elem_of_nil in Hp.
  - intros k p1 p2 s1 s2 Hp1. by apply elem_of_nil in Hp1.
Qed.


End RemoveServer3.

(** * The migration moves documents, not servers *)

Lemma same_ids_refl h : same_ids h h.
Proof. done. Qed.

Lemma same_ids_trans h1 h2 h3 : same_ids h1 h2 → same_ids h2 h3 → same_ids h1 h3.
Proof. intros H1 H2 p. by rewrite H2, H1. Qed.

Lemma store_same_ids (h : heap) p s s' :
  deref h p = Some s → identity s' = identity s → same_ids h (store h p s').
Proof.
  intros Hp Hid q. destruct (decide (p = q)) as [<-|Hne].
  - rewrite deref_store_eq by (by eapply deref_lt). rewrite Hp. simpl. by rewrite Hid.
  - by rewrite deref_store_ne.
Qed.

Lemma same_entries_refl lb : same_entries lb lb.
Proof. by repeat split. Qed.

Lemma same_entries_trans lb1 lb2 lb3 :
  same_entries lb1 lb2 → same_entries lb2 lb3 → same_entries lb1 lb3.
Proof.
  intros (? & ? & ? & ? & Hm1) (? & ? & ? & ? & Hm2).
  repeat split; first [congruence | by eapply same_ids_trans].
Qed.

Lemma set_mem_same_entries lb m :
  same_ids (mem lb) m → same_entries lb (set_mem lb m).
Proof. intros H. by repeat split. Qed.

Lemma mapM_fmap_compose {A B C} (f : B → C) (g : A → option B) (l : list A) :
  (fmap f <$> mapM g l : option (list C)) = mapM (λ x, f <$> g x) l.
Proof.
  induction l as [|x l IH]; simpl; [done|].
  destruct (g x) as [y|]; simpl; [|done].
  rewrite <- IH. by destruct (mapM g l).
Qed.

Lemma ring_keys_mapM lb :
  ring_keys lb
  = mapM (λ p, (λ s, (hash s, server_id s)) <$> deref (mem lb) p)
         (take (Z.to_nat (nr_servers lb)) (servers lb)).
Proof.
  unfold ring_keys, ring_entries. rewrite <- mapM_fmap_compose.
  by destruct (mapM _ _).
Qed.

(** The ring order is read off the identities. *)
Lemma same_entries_ring_keys lb lb' :
  same_entries lb lb' → ring_keys lb' = ring_keys lb.
Proof.
  intros (Hs & Hn & _ & _ & Hid). rewrite !ring_keys_mapM, Hs, Hn.
  apply mapM_ext. intros p. specialize (Hid p).
  destruct (deref (mem lb') p) as [s'|], (deref (mem lb) p) as [s|]; simpl in *; try done.
  unfold identity in Hid. congruence.
Qed.

Section Frame.

Variable hash_string : string → Z.

Local Abbreviation server_edit_document := (server_edit_document hash_string).
Local Abbreviation execute_edit_tasks_loop := (execute_edit_tasks_loop hash_string).
Local Abbreviation execute_edit_tasks_for_document := (execute_edit_tasks_for_document hash_string).
Local Abbreviation flush_tasks := (flush_tasks hash_string).
Local Abbreviation redistribute_key := (redistribute_key hash_string).
Local Abbreviation redistribute_keys_loop := (redistribute_keys_loop hash_string).
Local Abbreviation redistribute_keys := (redistribute_keys hash_string).
Local Abbreviation migrate_from := (migrate_from hash_string).
Local Abbreviation copy_keys_loop := (copy_keys_loop hash_string).
Local Abbreviation copy_keys := (copy_keys hash_string).

Lemma server_edit_document_identity s id name content :
  identity (server_edit_document s id name content).1 = identity s.
Proof.
  destruct (server_edit_document_original hash_string s id name content) as (H1 & H2 & H3).
  unfold identity. by rewrite H1, H2, H3.
Qed.

Lemma execute_edit_tasks_loop_identity n : ∀ s id,
  identity (execute_edit_tasks_loop n s id).1 = identity s.
Proof.
  induction n as [|n IH]; intros s id; simpl; [done|].
  destruct (q_size (task_queue s) =? 0); [done|].
  destruct (q_dequeue (task_queue s)) as [q' [req|]]; [|done].
  pose proof (server_edit_document_identity (set_task_queue s q') id (doc_name req)
                (doc_content req)) as H1.
  destruct (server_edit_document _ id _ _) as [s1 resp]. simpl in H1.
  specialize (IH s1 id). destruct (execute_edit_tasks_loop n s1 id) as [s2 out].
  simpl in *. by rewrite IH, H1.
Qed.

Lemma flush_tasks_same_entries lb p lb' :
  flush_tasks lb p = Some lb' → same_entries lb lb'.
Proof.
  unfold flush_tasks. intros H.
  destruct (deref (mem lb) p) as [sv|] eqn:Hsv; simpl in H; [|done].
  destruct (deref (mem lb) (default p (original_server sv))) as [s|] eqn:Hs;
    simpl in H; [|done].
  pose proof (execute_edit_tasks_loop_identity
                (Z.to_nat (q_size (task_queue s))) s (server_id sv)) as Hid.
  unfold execute_edit_tasks_for_document in H.
  destruct (execute_edit_tasks_loop _ s (server_id sv)) as [s' out].
  injection H as <-. simpl in Hid.
  repeat split; simpl; try done. by eapply store_same_ids.
Qed.

Lemma redistribute_key_same_entries lb k new_p next_p poz lb' :
  redistribute_key lb k new_p next_p poz = Some lb' → same_entries lb lb'.
Proof.
  unfold redistribute_key. intros H.
  destruct (deref (mem lb) new_p) as [new_s|]; simpl in H; [|done].
  destruct (deref (mem lb) next_p) as [next_s|]; simpl in H; [|done].
  destruct (redistribute_owner lb new_s _) as [serv|]; simpl in H; [|done].
  destruct (_ && _); [|injection H as <-; apply same_entries_refl].
  set (next := default next_p (original_server next_s)) in *.
  set (new := default new_p (original_server new_s)) in *.
  destruct (deref (mem lb) next) as [next_sv|] eqn:E1; simpl in H; [|done].
  destruct (lru_cache_get hash_string (local_db next_sv) k) as [db1 [v|]]; simpl in H; [|done].
  set (m1 := store (mem lb) next (set_local_db next_sv db1)) in *.
  assert (H1 : same_ids (mem lb) m1) by (by eapply store_same_ids).
  destruct (deref m1 new) as [new_sv|] eqn:E2; simpl in H; [|done].
  destruct (lru_cache_put hash_string (local_db new_sv) k v false) as [[db2 ?] ?].
  set (m2 := store m1 new (set_local_db new_sv db2)) in *.
  assert (H2 : same_ids m1 m2) by (by eapply store_same_ids).
  destruct (deref m2 next) as [next_sv2|] eqn:E3; simpl in H; [|done].
  set (m3 := store m2 next _) in *.
  assert (H3 : same_ids m2 m3) by (by eapply store_same_ids).
  destruct (deref m3 next) as [next_sv3|] eqn:E4; simpl in H; [|done].
  injection H as <-. apply set_mem_same_entries.
  eapply same_ids_trans; [|by eapply store_same_ids].
  eapply same_ids_trans; [|exact H3]. by eapply same_ids_trans.
Qed.

Lemma redistribute_keys_loop_same_entries key_list new_p next_p poz : ∀ n i lb lb',
  redistribute_keys_loop lb key_list n i new_p next_p poz = Some lb' →
  same_entries lb lb'.
Proof.
  induction n as [|n IH]; intros i lb lb' H; simpl in H.
  - injection H as <-. apply same_entries_refl.
  - destruct (key_list !! i) as [k|]; simpl in H; [|done].
    destruct (redistribute_key lb k new_p next_p poz) as [lb1|] eqn:E; simpl in H; [|done].
    eapply same_entries_trans; [by eapply redistribute_key_same_entries|by eapply IH].
Qed.

Lemma migrate_from_same_entries lb s next_p poz lb' :
  migrate_from lb s next_p poz = Some lb' → same_entries lb lb'.
Proof.
  unfold migrate_from. intros H.
  destruct (flush_tasks lb next_p) as [lb1|] eqn:E1; simpl in H; [|done].
  destruct (deref (mem lb1) next_p) as [next_s|]; simpl in H; [|done].
  destruct (deref (mem lb1) _) as [holder|]; simpl in H; [|done].
  unfold redistribute_keys in H.
  destruct (deref (mem lb1) next_p) as [n1|]; simpl in H; [|done].
  destruct (deref (mem lb1) _) as [n2|]; simpl in H; [|done].
  eapply same_entries_trans; [by eapply flush_tasks_same_entries|].
  by eapply redistribute_keys_loop_same_entries.
Qed.

Lemma copy_keys_loop_same_entries keys target next_server resolve remove :
  ∀ n lb j lb',
  copy_keys_loop n lb keys j target next_server resolve remove = Some lb' →
  same_entries lb lb'.
Proof.
  induction n as [|n IH]; intros lb j lb' H; simpl in H; [done|].
  destruct (deref (mem lb) target) as [t|] eqn:Et; simpl in H; [|done].
  destruct (Z.of_nat j <? size (local_db t)); [|injection H as <-; apply same_entries_refl].
  destruct (keys !! j) as [k|]; simpl in H; [|done].
  destruct (lru_cache_get hash_string (local_db t) k) as [db1 [v|]]; simpl in H; [|done].
  set (m1 := store (mem lb) target (set_local_db t db1)) in *.
  assert (H1 : same_ids (mem lb) m1) by (by eapply store_same_ids).
  destruct next_server as [next_p|]; simpl in H; [|done].
  destruct (deref m1 next_p) as [next_s|]; simpl in H; [|done].
  set (dest := if resolve then default next_p (original_server next_s) else next_p) in *.
  destruct (deref m1 dest) as [d|] eqn:Ed; simpl in H; [|done].
  destruct (lru_cache_put hash_string (local_db d) k v false) as [[db2 ?] ?].
  set (m2 := store m1 dest (set_local_db d db2)) in *.
  assert (H2 : same_ids m1 m2) by (by eapply store_same_ids).
  destruct remove.
  - destruct (deref m2 target) as [t2|] eqn:Et2; simpl in H; [|done].
    apply IH in H. eapply same_entries_trans; [|exact H].
    apply set_mem_same_entries.
    eapply same_ids_trans; [|by eapply store_same_ids].
    by eapply same_ids_trans.
  - simpl in H. apply IH in H. eapply same_entries_trans; [|exact H].
    apply set_mem_same_entries. by eapply same_ids_trans.
Qed.

Lemma copy_keys_same_entries lb target next_server resolve remove lb' :
  copy_keys lb target next_server resolve remove = Some lb' → same_entries lb lb'.
Proof.
  unfold copy_keys. intros H.
  destruct (deref (mem lb) target) as [t|]; [|done].
  exact (copy_keys_loop_same_entries _ _ _ _ _ _ _ _ _ H).
Qed.

End Frame.

(** * Where a new server goes *)

(** Away from a hash of 0 and from ties the search loop stops at the first
    entry whose hash exceeds the new one. *)
Lemma get_insert_poz_loop_first l h id : ∀ i prev,
  prev < h → (∀ sv, sv ∈ l → hash sv ≠ h) →
  get_insert_poz_loop l i prev h id
  = match list_find (λ sv, h < hash sv) l with
    | Some (j, _) => i + Z.of_nat j
    | None => -1
    end.
Proof.
  induction l as [|sv l IH]; intros i prev Hprev Hne; [done|].
  assert (Hsv : hash sv ≠ h) by (apply Hne; left).
  cbn [get_insert_poz_loop list_find]. 
  destruct (decide (h < hash sv)) as [Hlt|Hge].
  - destruct (Z.ltb_spec h (hash sv)); [|lia].
    destruct (Z.ltb_spec prev h); [|lia]. simpl. lia.
  - destruct (Z.ltb_spec h (hash sv)); [lia|]. simpl.
    destruct (Z.eqb_spec (hash sv) h); [done|].
    rewrite IH; [|lia|intros x Hx; apply Hne; by right].
    destruct (list_find _ l) as [[j x]|]; simpl; lia.
Qed.

Lemma ring_entries_entry_at lb l i sv :
  ring_entries lb = Some l → l !! i = Some sv → entry_at lb (Z.of_nat i) = Some sv.
Proof.
  intros Hl Hi. apply mapM_Some_1 in Hl.
  destruct (Forall2_lookup_r _ _ _ _ _ Hl Hi) as (p & Hp & Hd).
  apply lookup_take_Some in Hp as [Hp _].
  unfold entry_at, server_at. destruct (Z.leb_spec 0 (Z.of_nat i)); [|lia].
  rewrite Nat2Z.id, Hp. done.
Qed.

(** [get_insert_poz] on a ring whose last entry has the largest hash, for
    a new hash that is positive and not in the ring. *)
Lemma get_insert_poz_first lb l last_sv h id :
  ring_entries lb = Some l → Z.of_nat (length l) = nr_servers lb →
  last l = Some last_sv → (∀ x, x ∈ l → hash x ≤ hash last_sv) →
  0 < h → (∀ sv, sv ∈ l → hash sv ≠ h) →
  get_insert_poz lb h id
  = Some (match list_find (λ sv, h < hash sv) l with
          | Some (j, _) => Z.of_nat j
          | None => -1
          end).
Proof.
  intros Hl Hlen Hlast Hmax Hpos Hne.
  assert (Hin : last_sv ∈ l).
  { rewrite last_lookup in Hlast. by eapply list_elem_of_lookup_2. }
  assert (He : entry_at lb (nr_servers lb - 1) = Some last_sv).
  { rewrite last_lookup in Hlast.
    replace (nr_servers lb - 1) with (Z.of_nat (pred (length l))).
    - by eapply ring_entries_entry_at.
    - destruct l; [done|]. simpl in *. lia. }
  unfold get_insert_poz. rewrite He. simpl.
  destruct (Z.ltb_spec (hash last_sv) h) as [Hlt|Hge].
  - rewrite (proj2 (list_find_None _ _)); [done|].
    apply Forall_forall. intros x Hx. specialize (Hmax x Hx). lia.
  - destruct (Z.eqb_spec (hash last_sv) h) as [Heq|Hneq]; [by apply Hne in Heq|].
    rewrite Hl. simpl. rewrite (get_insert_poz_loop_first l h id 0 0 Hpos Hne).
    destruct (list_find _ l) as [[j x]|] eqn:Hf; [done|].
    exfalso. apply list_find_None in Hf. rewrite Forall_forall in Hf.
    apply (Hf last_sv Hin). lia.
Qed.

(** ** The ring array after [insert_server] *)

Lemma ring_keys_Forall2 lb ks :
  ring_keys lb = Some ks
  ↔ Forall2 (λ p y, key_at (mem lb) p = Some y)
            (take (Z.to_nat (nr_servers lb)) (servers lb)) ks.
Proof. rewrite ring_keys_mapM. apply mapM_Some. Qed.

Lemma same_ids_key_at h h' p : same_ids h h' → key_at h' p = key_at h p.
Proof.
  intros Hid. specialize (Hid p). unfold key_at.
  destruct (deref h' p) as [s'|], (deref h p) as [s|]; simpl in *; try done.
  unfold identity in Hid. congruence.
Qed.

Section InsertServer.

Variable hash_string : string → Z.

Local Abbreviation insert_server := (insert_server hash_string).
Local Abbreviation migrate_from := (migrate_from hash_string).

Lemma insert_server_ring_keys lb s sv poz ks lb' :
  enable_vnodes lb = false → nr_servers lb = Z.of_nat (length (servers lb)) →
  deref (mem lb) s = Some sv →
  get_insert_poz lb (hash sv) (server_id sv) = Some poz →
  poz = -1 ∨ 0 ≤ poz ≤ nr_servers lb - 1 →
  ring_keys lb = Some ks →
  insert_server lb s = Some lb' →
  nr_servers lb' = nr_servers lb + 1
  ∧ ring_keys lb'
    = Some (if poz =? -1 then ks ++ [(hash sv, server_id sv)]
            else take (Z.to_nat poz) ks
                 ++ (hash sv, server_id sv) :: drop (Z.to_nat poz) ks).
Proof.
  intros Hv Hn Hsv Hpoz Hr Hks Hins.
  apply ring_keys_Forall2 in Hks. rewrite take_ge in Hks by lia.
  pose proof (Forall2_length _ _ _ Hks) as Hlen.
  assert (Hkey : key_at (mem lb) s = Some (hash sv, server_id sv)).
  { unfold key_at. by rewrite Hsv. }
  unfold insert_server in Hins. rewrite Hsv in Hins. simpl in Hins.
  rewrite Hpoz in Hins. simpl in Hins. rewrite Hv in Hins. simpl in Hins.
  assert (Hfin : ∀ srv1 next lb2 ks1,
            migrate_from (set_servers lb srv1) s next poz = Some lb2 →
            Z.of_nat (length srv1) = nr_servers lb + 1 →
            Forall2 (λ p y, key_at (mem lb) p = Some y) srv1 ks1 →
            nr_servers (set_nr_servers lb2 (nr_servers lb2 + 1)) = nr_servers lb + 1
            ∧ ring_keys (set_nr_servers lb2 (nr_servers lb2 + 1)) = Some ks1).
  { intros srv1 next lb2 ks1 Hmig Hl1 Hf.
    apply migrate_from_same_entries in Hmig as (Hs2 & Hn2 & _ & _ & Hid).
    simpl in *. split; [lia|].
    apply ring_keys_Forall2. simpl. rewrite Hs2, Hn2.
    rewrite take_ge by lia.
    eapply Forall2_impl; [exact Hf|]. intros p y Hp. simpl.
    by rewrite (same_ids_key_at _ _ _ Hid). }
  destruct (Z.eqb_spec poz (-1)) as [->|Hne].
  - rewrite take_ge in Hins by lia.
    destruct (server_at _ 0) as [first|]; simpl in Hins; [|done].
    destruct (migrate_from _ s first (-1)) as [lb2|] eqn:Hmig; simpl in Hins; [|done].
    injection Hins as <-.
    apply (Hfin _ _ _ _ Hmig).
    + rewrite length_app. simpl. lia.
    + apply Forall2_app; [done|]. by constructor.
  - destruct Hr as [?|Hr]; [done|].
    destruct (server_at _ (poz + 1)) as [next|]; simpl in Hins; [|done].
    destruct (migrate_from _ s next poz) as [lb2|] eqn:Hmig; simpl in Hins; [|done].
    injection Hins as <-.
    apply (Hfin _ _ _ _ Hmig).
    + rewrite length_app, length_take. simpl. rewrite length_drop. lia.
    + apply Forall2_app; [by apply Forall2_take|].
      constructor; [done|]. by apply Forall2_drop.
Qed.

End InsertServer.

(** ** The ring order after an insertion *)

Lemma ring_sorted_insert (ks : list (Z * Z)) (h id : Z) :
  ring_sorted ks → (∀ x, x ∈ ks → x.1 ≠ h) →
  ∃ ks1 ks2,
    ks = ks1 ++ ks2
    ∧ (match list_find (λ x, h < x.1) ks with
       | Some (j, _) => take j ks ++ (h, id) :: drop j ks
       | None => ks ++ [(h, id)]
       end) = ks1 ++ (h, id) :: ks2
    ∧ (∀ x, x ∈ ks1 → x.1 < h) ∧ (∀ x, x ∈ ks2 → h < x.1)
    ∧ ring_sorted (ks1 ++ (h, id) :: ks2).
Proof.
  intros Hs Hne. apply Sorted_StronglySorted in Hs; [|apply _].
  assert (Hres : ∀ ks1 ks2, ks = ks1 ++ ks2 →
            (∀ x, x ∈ ks1 → x.1 < h) → (∀ x, x ∈ ks2 → h < x.1) →
            ring_sorted (ks1 ++ (h, id) :: ks2)).
  { intros ks1 ks2 -> H1 H2. apply StronglySorted_Sorted.
    apply StronglySorted_app in Hs as (H12 & Hs1 & Hs2).
    apply StronglySorted_app_2; [|done|].
    - intros x1 x2 Hx1 Hx2. apply elem_of_cons in Hx2 as [->|Hx2].
      + left. simpl. by apply H1.
      + by apply H12.
    - apply StronglySorted_cons. split; [|done].
      apply Forall_forall. intros x Hx. left. simpl. by apply H2. }
  destruct (list_find (λ x, h < x.1) ks) as [[j y]|] eqn:Hf.
  - apply list_find_Some in Hf as (Hj & Hy & Hbefore).
    exists (take j ks), (drop j ks).
    assert (H1 : ∀ x, x ∈ take j ks → x.1 < h).
    { intros x Hx. apply list_elem_of_lookup in Hx as [i Hi].
      apply lookup_take_Some in Hi as [Hi Hlt].
      pose proof (Hbefore i x Hi Hlt). 
      assert (x.1 ≠ h) by (apply Hne; by eapply list_elem_of_lookup_2). lia. }
    assert (H2 : ∀ x, x ∈ drop j ks → h < x.1).
    { intros x Hx. rewrite <- (take_drop j ks) in Hs.
      apply StronglySorted_app_1_r in Hs.
      rewrite (drop_S _ _ _ Hj) in Hx, Hs.
      apply elem_of_cons in Hx as [->|Hx]; [done|].
      apply StronglySorted_cons in Hs as [Hall _]. rewrite Forall_forall in Hall.
      specialize (Hall x Hx). unfold ring_le in Hall. lia. }
    split_and!; try done; [by rewrite take_drop|].
    apply Hres; [by rewrite take_drop|done|done].
  - apply list_find_None in Hf. rewrite Forall_forall in Hf.
    exists ks, []. 
    assert (H1 : ∀ x, x ∈ ks → x.1 < h).
    { intros x Hx. specialize (Hf x Hx). specialize (Hne x Hx). lia. }
    split_and!; try done; [by rewrite app_nil_r| |].
    + intros x Hx. by apply elem_of_nil in Hx.
    + apply Hres; [by rewrite app_nil_r|done|].
      intros x Hx. by apply elem_of_nil in Hx.
Qed.

Lemma ring_keys_entries lb ks :
  ring_keys lb = Some ks →
  ∃ l, ring_entries lb = Some l ∧ ks = (λ sv, (hash sv, server_id sv)) <$> l.
Proof.
  unfold ring_keys. destruct (ring_entries lb) as [l|]; [|done].
  intros [= <-]. eauto.
Qed.

Lemma ring_sorted_last_max (l : list server) last_sv :
  ring_sorted ((λ sv, (hash sv, server_id sv)) <$> l) → last l = Some last_sv →
  ∀ x, x ∈ l → hash x ≤ hash last_sv.
Proof.
  intros Hs Hlast x Hx. apply Sorted_StronglySorted in Hs; [|apply _].
  apply last_Some in Hlast as [l' ->]. rewrite fmap_app in Hs.
  apply elem_of_app in Hx as [Hx|Hx].
  - pose proof (StronglySorted_app_1_elem_of _ _ _
                  (hash x, server_id x) (hash last_sv, server_id last_sv) Hs) as H.
    unfold ring_le in H. simpl in H.
    assert (hash x < hash last_sv ∨ hash x = hash last_sv ∧ server_id x ≤ server_id last_sv);
      [|lia].
    apply H; [|simpl; left].
    apply list_elem_of_fmap. by exists x.
  - apply list_elem_of_singleton in Hx as ->. lia.
Qed.

Section AddServerOrder.

Variable hash_string : string → Z.
Variable hash_uint : Z → Z.

Local Abbreviation wf_balancer := (wf_balancer hash_string).
Local Abbreviation loader_add_server := (loader_add_server hash_string hash_uint).


End AddServerOrder.

(** * What a removal leaves of the ring *)

Lemma key_at_free_ne (h : heap) p q : p ≠ q → key_at (free_server h p) q = key_at h q.
Proof. intros Hne. unfold key_at. by rewrite deref_free_ne. Qed.

Lemma elem_of_delete_NoDup {A} (l : list A) i p x :
  NoDup l → l !! i = Some p → x ∈ delete i l → x ≠ p.
Proof.
  intros Hnd Hi Hx ->.
  rewrite <- (take_drop_middle l i p Hi) in Hnd.
  rewrite delete_take_drop in Hx.
  apply NoDup_app in Hnd as (_ & H1 & H2). apply NoDup_cons in H2 as [H2 _].
  apply elem_of_app in Hx as [Hx|Hx]; [|done].
  apply (H1 _ Hx). left.
Qed.

Lemma NoDup_delete {A} (l : list A) i : NoDup l → NoDup (delete i l).
Proof.
  intros Hnd. eapply sublist_NoDup; [exact Hnd|]. apply sublist_delete.
Qed.

Lemma StronglySorted_filter {A} (R : relation A) (P : A → Prop)
    `{!∀ x, Decision (P x)} (l : list A) :
  StronglySorted R l → StronglySorted R (filter P l).
Proof.
  induction 1 as [|x l Hs IH Hall]; [constructor|].
  rewrite filter_cons. destruct (decide (P x)); [|done].
  constructor; [done|].
  rewrite Forall_forall in *. intros y Hy. apply Hall.
  by apply list_elem_of_filter in Hy as [_ ?].
Qed.

Lemma ring_sorted_filter (P : Z * Z → Prop) `{!∀ x, Decision (P x)} ks :
  ring_sorted ks → ring_sorted (filter P ks).
Proof.
  intros Hs. apply StronglySorted_Sorted, StronglySorted_filter.
  apply Sorted_StronglySorted; [apply _|done].
Qed.

Section RemoveServerRing.

Variable hash_string : string → Z.

Local Abbreviation wf_balancer := (wf_balancer hash_string).
Local Abbreviation flush_tasks := (flush_tasks hash_string).
Local Abbreviation copy_keys := (copy_keys hash_string).
Local Abbreviation loader_remove_server := (loader_remove_server hash_string).

Lemma loader_remove_server_loop_ring id : ∀ n lb i ok ks lb',
  enable_vnodes lb = false → NoDup (servers lb) →
  nr_servers lb = Z.of_nat (length (servers lb)) → 0 ≤ i →
  ring_keys lb = Some ks →
  loader_remove_server_loop hash_string n lb id i ok = Some lb' →
  nr_servers lb' = Z.of_nat (length (servers lb'))
  ∧ ring_keys lb'
    = Some (take (Z.to_nat i) ks
            ++ filter (λ x, family x.2 ≠ id) (drop (Z.to_nat i) ks)).
Proof.
  induction n as [|n IH]; intros lb i ok ks lb' Hv Hnd Hn Hi Hks Hloop; [done|].
  pose proof Hks as Hf. apply ring_keys_Forall2 in Hf. rewrite take_ge in Hf by lia.
  pose proof (Forall2_length _ _ _ Hf) as Hlen.
  cbn [loader_remove_server_loop] in Hloop.
  destruct (Z.ltb_spec i (nr_servers lb)) as [Hlt|Hge].
  2:{ injection Hloop as <-. split; [done|].
      rewrite take_ge, drop_ge by lia. by rewrite app_nil_r. }
  destruct (server_at lb i) as [p|] eqn:Hp; simpl in Hloop; [|done].
  unfold server_at in Hp. destruct (Z.leb_spec 0 i); [|lia].
  destruct (Forall2_lookup_l _ _ _ _ _ Hf Hp) as (x & Hx & Hkey).
  destruct (deref (mem lb) p) as [sv|] eqn:Hsv; simpl in Hloop; [|done].
  assert (x = (hash sv, server_id sv)) as ->.
  { unfold key_at in Hkey. rewrite Hsv in Hkey. by injection Hkey. }
  rewrite (drop_S _ _ _ Hx), filter_cons. simpl.
  destruct (Z.eqb_spec (family (server_id sv)) id) as [Heq|Hneq].
  - rewrite decide_False by (intros ?; done).
    destruct (if i =? nr_servers lb - 1 then server_at lb 0 else server_at lb (i + 1))
      as [next_s|]; simpl in Hloop; [|done].
    rewrite Hv in Hloop. simpl in Hloop.
    destruct (flush_tasks lb p) as [lbf|] eqn:Hfl; simpl in Hloop; [|done].
    destruct (copy_keys lbf p (Some next_s) false false) as [lb1|] eqn:Hcp;
      simpl in Hloop; [|done].
    assert (Hse : same_entries lb lb1).
    { eapply same_entries_trans; [by eapply flush_tasks_same_entries|].
      by eapply copy_keys_same_entries. }
    destruct Hse as (Hs1 & Hn1 & _ & Hv1 & Hid).
    apply IH with (ks := delete (Z.to_nat i) ks) in Hloop; simpl.
    + destruct Hloop as [Hnr' Hring]. split; [done|]. rewrite Hring.
      rewrite delete_take_drop.
      rewrite take_app_le by (rewrite length_take; lia).
      rewrite take_take, Nat.min_id.
      rewrite drop_app_length' by (rewrite length_take; lia). done.
    + by rewrite Hv1.
    + rewrite Hs1. by apply NoDup_delete.
    + rewrite Hs1, Hn1, length_delete by (by eexists). 
      apply lookup_lt_Some in Hp. lia.
    + done.
    + apply ring_keys_Forall2. simpl. rewrite Hs1, Hn1.
      rewrite take_ge by (rewrite length_delete by (by eexists);
                          apply lookup_lt_Some in Hp; lia).
      assert (Hf1 : Forall2 (λ q y, key_at (mem lb1) q = Some y) (servers lb) ks).
      { eapply Forall2_impl; [exact Hf|]. intros q y Hq. simpl in *.
        by rewrite (same_ids_key_at _ _ _ Hid). }
      apply (Forall2_delete _ _ _ (Z.to_nat i)) in Hf1.
      apply Forall2_same_length_lookup. split.
      { by eapply Forall2_length. }
      intros j q y Hq Hy.
      rewrite key_at_free_ne.
      * exact (Forall2_lookup_lr _ _ _ _ _ _ Hf1 Hq Hy).
      * intros ->. eapply (elem_of_delete_NoDup (servers lb)); [done|exact Hp| |done].
        by eapply list_elem_of_lookup_2.
  - rewrite decide_True by done.
    apply IH with (ks := ks) in Hloop; try done; [|lia].
    destruct Hloop as [Hnr' Hring]. split; [done|]. rewrite Hring.
    replace (Z.to_nat (i + 1)) with (S (Z.to_nat i)) by lia.
    rewrite (take_S_r _ _ _ Hx), <- app_assoc. simpl.
    done.
Qed.


Lemma loader_remove_server_loop_absent lb l id ok : ∀ n i,
  ring_entries lb = Some l → Z.of_nat (length l) = nr_servers lb →
  (∀ sv, sv ∈ l → family (server_id sv) ≠ id) →
  0 ≤ i → (Z.to_nat (nr_servers lb - i) < n)%nat →
  loader_remove_server_loop hash_string n lb id i ok = Some lb.
Proof.
  induction n as [|n IH]; intros i Hl Hlen Hne Hi Hn; [lia|].
  cbn [loader_remove_server_loop].
  destruct (Z.ltb_spec i (nr_servers lb)) as [Hlt|Hge]; [|done].
  destruct (lookup_lt_is_Some_2 l (Z.to_nat i)) as [sv Hsv]; [lia|].
  pose proof (ring_entries_entry_at lb l _ sv Hl Hsv) as He.
  rewrite Z2Nat.id in He by lia. unfold entry_at in He.
  destruct (server_at lb i) as [p|]; simpl in He; [|done].
  simpl. rewrite He. simpl.
  destruct (Z.eqb_spec (family (server_id sv)) id) as [Heq|_].
  - exfalso. apply (Hne sv); [|done]. by eapply list_elem_of_lookup_2.
  - apply IH; try done; lia.
Qed.

(** [loader_remove_server] for an id that no entry of the ring carries
    moves no document and frees no server; only [max_servers] is halved
    when the ring fills less than half of it. *)
Theorem remove_absent_server_keeps_state (lb : load_balancer) (l : list server)
    (id : Z) :
  ring_entries lb = Some l → Z.of_nat (length l) = nr_servers lb →
  (∀ sv, sv ∈ l → family (server_id sv) ≠ id) →
  loader_remove_server lb id
  = Some (if nr_servers lb <? max_servers lb `quot` 2
          then set_max_servers lb (max_servers lb `quot` 2) else lb).
Proof.
  intros Hl Hlen Hne. unfold loader_remove_server.
  rewrite (loader_remove_server_loop_absent lb l id false _ 0 Hl Hlen Hne); [done|lia|lia].
Qed.

End RemoveServerRing.

(** * Where a request goes *)

Section ForwardRequest.

Variable hash_string : string → Z.
Variable hash_uint : Z → Z.

Local Abbreviation wf_server := (wf_server hash_string).
Local Abbreviation wf_balancer := (wf_balancer hash_string).
Local Abbreviation server_get_document := (server_get_document hash_string).
Local Abbreviation server_handle_request := (server_handle_request hash_string).
Local Abbreviation loader_forward_request := (loader_forward_request hash_string hash_uint).

Lemma server_get_document_identity s id name :
  identity (server_get_document s id name).1 = identity s.
Proof.
  unfold server_get_document.
  repeat (match goal with
          | |- context [let '(_, _) := ?x in _] => destruct x
          | |- context [match ?x with Some _ => _ | None => _ end] => destruct x
          end; simpl); done.
Qed.

Lemma server_handle_request_identity s id req :
  identity (server_handle_request s id req).1.1 = identity s.
Proof.
  unfold server_handle_request. destruct (type req).
  - by destruct (q_enqueue (task_queue s) req).
  - unfold execute_edit_tasks_for_document.
    pose proof (execute_edit_tasks_loop_identity hash_string
                  (Z.to_nat (q_size (task_queue s))) s id) as H1.
    destruct (execute_edit_tasks_loop hash_string _ s id) as [s1 out]. simpl in H1.
    pose proof (server_get_document_identity s1 id (doc_name req)) as H2.
    destruct (server_get_document s1 id (doc_name req)) as [s2 res]. simpl in *.
    by rewrite H2.
Qed.

Lemma ring_owner_in_ring lb l h p :
  nr_servers lb = Z.of_nat (length (servers lb)) → 1 ≤ nr_servers lb →
  ring_owner lb l h = Some p → p ∈ servers lb.
Proof.
  intros Hn H1. unfold ring_owner.
  destruct (list_find _ _) as [[j x]|] eqn:Hf.
  - intros [= <-]. apply list_find_Some in Hf as (Hj & _).
    apply list_elem_of_lookup_2 in Hj. destruct x as [q y]. by apply elem_of_zip_l in Hj.
  - unfold server_at. simpl. intros H. by eapply list_elem_of_lookup_2.
Qed.

(** Without virtual nodes, on a ring whose last entry has the largest
    hash, a request for a document whose hash differs from that of the
    last entry is handled by the first entry whose hash exceeds the
    document's, or by the entry at index 0 when there is none: the answer
    is the one [server_handle_request] gives on that server, whose new
    state is stored in its place; no other server changes and the ring
    is as before. *)
Theorem forward_reaches_ring_owner (lb : load_balancer) (req : request)
    (l : list server) (last_sv : server) :
  wf_balancer lb → ring_entries lb = Some l → last l = Some last_sv →
  (∀ x, x ∈ l → hash x ≤ hash last_sv) →
  hash last_sv ≠ u32 (hash_string (doc_name req)) →
  ∃ p s lb',
    ring_owner lb l (u32 (hash_string (doc_name req))) = Some p
    ∧ deref (mem lb) p = Some s
    ∧ loader_forward_request lb req
      = Some (lb', (server_handle_request s (server_id s) req).2)
    ∧ deref (mem lb') p = Some (server_handle_request s (server_id s) req).1.1
    ∧ (∀ q, q ≠ p → deref (mem lb') q = deref (mem lb) q)
    ∧ ring_keys lb' = ring_keys lb
    ∧ wf_balancer lb'.
Proof.
  intros Hwf Hl Hlast Hmax Hne.
  set (h := u32 (hash_string (doc_name req))) in *.
  pose proof Hwf as [Hv Hn [Hnd Hok]].
  pose proof (ring_entries_length lb l Hl Hn) as Hlen.
  assert (H1 : 1 ≤ nr_servers lb).
  { destruct l; [done|]. simpl in Hlen. lia. }
  assert (He : entry_at lb (nr_servers lb - 1) = Some last_sv).
  { rewrite last_lookup in Hlast.
    replace (nr_servers lb - 1) with (Z.of_nat (pred (length l))).
    - by eapply ring_entries_entry_at.
    - destruct l; [done|]. simpl in *. lia. }
  destruct (forward_target_owner lb l h last_sv Hl He Hmax Hne) as (p & Hown & Htarget).
  pose proof (ring_owner_in_ring lb l h p Hn H1 Hown) as Hin.
  destruct (Hok p Hin) as (s & Hs & Hws & Hos).
  exists p, s.
  unfold loader_forward_request. fold h.
  rewrite Htarget. simpl. rewrite Hs. simpl. rewrite Hv, andb_false_r.
  simpl. rewrite Hs. simpl. rewrite Hos. simpl. rewrite Hs. simpl.
  pose proof (server_handle_request_wf hash_string s (server_id s) req Hws) as Hws'.
  pose proof (server_handle_request_identity s (server_id s) req) as Hid.
  destruct (server_handle_request s (server_id s) req) as [[s' out] res]. simpl in *.
  eexists. split; [done|]. split; [done|]. split; [reflexivity|].
  assert (Hp : (p < length (mem lb))%nat) by (by eapply deref_lt).
  split_and!; simpl.
  - by apply deref_store_eq.
  - intros q Hq. by apply deref_store_ne.
  - apply same_entries_ring_keys. repeat split; simpl; try done.
    by eapply store_same_ids.
  - constructor; simpl; try done. split; [done|]. simpl.
    intros q Hq. destruct (decide (q = p)) as [->|Hqp].
    + exists s'. rewrite deref_store_eq by done. split_and!; [done|done|].
      unfold identity in Hid. congruence.
    + rewrite deref_store_ne by done. by apply Hok.
Qed.

End ForwardRequest.

(** * The next server of another family *)

Lemma mod_shift (cur d nr : Z) :
  0 ≤ cur < nr → 0 ≤ d ≤ nr →
  (cur + d) mod nr = if cur + d <? nr then cur + d else cur + d - nr.
Proof.
  intros Hc Hd. destruct (Z.ltb_spec (cur + d) nr).
  - apply Z.mod_small. lia.
  - symmetry. apply (Z.mod_unique_pos _ _ 1); lia.
Qed.

Lemma rem_step (cur d nr : Z) :
  0 ≤ cur < nr → 0 ≤ d < nr →
  ((cur + d) mod nr + 1) `rem` nr = (cur + (d + 1)) mod nr.
Proof.
  intros Hc Hd. rewrite !mod_shift by lia.
  rewrite Z.rem_mod_nonneg.
  2:{ destruct (Z.ltb_spec (cur + d) nr); lia. }
  2:{ lia. }
  destruct (Z.ltb_spec (cur + d) nr), (Z.ltb_spec (cur + (d + 1)) nr); try lia.
  - rewrite Z.mod_small; lia.
  - replace (cur + d + 1) with nr by lia. rewrite Z.mod_same by lia. lia.
  - rewrite Z.mod_small; lia.
Qed.

Lemma ring_entries_server_at lb l i sv :
  ring_entries lb = Some l → l !! i = Some sv →
  ∃ p, server_at lb (Z.of_nat i) = Some p ∧ deref (mem lb) p = Some sv.
Proof.
  intros Hl Hi. apply mapM_Some_1 in Hl.
  destruct (Forall2_lookup_r _ _ _ _ _ Hl Hi) as (p & Hp & Hd).
  apply lookup_take_Some in Hp as [Hp _].
  exists p. split; [|done].
  unfold server_at. destruct (Z.leb_spec 0 (Z.of_nat i)); [|lia].
  by rewrite Nat2Z.id.
Qed.

Lemma find_next_server_loop_spec lb l cur c :
  ring_entries lb = Some l → Z.of_nat (length l) = nr_servers lb →
  0 ≤ cur < nr_servers lb → l !! Z.to_nat cur = Some c →
  ∀ n d,
    1 ≤ d ≤ nr_servers lb → (Z.to_nat (nr_servers lb - d) < n)%nat →
    (∀ d' sv, 1 ≤ d' < d → l !! Z.to_nat ((cur + d') mod nr_servers lb) = Some sv →
              family (server_id sv) = family (server_id c)) →
    ∃ r, find_next_server_loop lb n ((cur + d) mod nr_servers lb) cur = Some r
      ∧ match r with
        | None => ∀ sv, sv ∈ l → family (server_id sv) = family (server_id c)
        | Some p =>
            ∃ e sv, d ≤ e < nr_servers lb
              ∧ server_at lb ((cur + e) mod nr_servers lb) = Some p
              ∧ deref (mem lb) p = Some sv
              ∧ family (server_id sv) ≠ family (server_id c)
              ∧ ∀ d' sv', 1 ≤ d' < e →
                  l !! Z.to_nat ((cur + d') mod nr_servers lb) = Some sv' →
                  family (server_id sv') = family (server_id c)
        end.
Proof.
  intros Hl Hlen Hcur Hc. set (nr := nr_servers lb) in *.
  induction n as [|n IH]; intros d Hd Hn Hsame; [lia|].
  cbn [find_next_server_loop]. fold nr.
  destruct (decide (d = nr)) as [->|Hdn].
  - replace ((cur + nr) mod nr) with cur by (rewrite mod_shift by lia;
      destruct (Z.ltb_spec (cur + nr) nr); lia).
    rewrite Z.eqb_refl. eexists. split; [done|]. simpl.
    intros sv Hsv. apply list_elem_of_lookup in Hsv as [j Hj].
    pose proof (lookup_lt_Some _ _ _ Hj) as Hjlt.
    destruct (decide (Z.of_nat j = cur)) as [Hjc|Hjc].
    + replace (Z.to_nat cur) with j in Hc by lia. congruence.
    + apply (Hsame (if cur <? Z.of_nat j then Z.of_nat j - cur
                    else Z.of_nat j - cur + nr) sv).
      * destruct (Z.ltb_spec cur (Z.of_nat j)); lia.
      * rewrite mod_shift by (destruct (Z.ltb_spec cur (Z.of_nat j)); lia).
        destruct (Z.ltb_spec cur (Z.of_nat j)).
        -- destruct (Z.ltb_spec (cur + (Z.of_nat j - cur)) nr); [|lia].
           replace (Z.to_nat (cur + (Z.of_nat j - cur))) with j by lia. done.
        -- destruct (Z.ltb_spec (cur + (Z.of_nat j - cur + nr)) nr); [lia|].
           replace (Z.to_nat (cur + (Z.of_nat j - cur + nr) - nr)) with j by lia. done.
  - assert (Hidx : 0 ≤ (cur + d) mod nr < nr) by (apply Z.mod_pos_bound; lia).
    assert (Hneq : (cur + d) mod nr ≠ cur).
    { rewrite mod_shift by lia. destruct (Z.ltb_spec (cur + d) nr); lia. }
    destruct (Z.eqb_spec ((cur + d) mod nr) cur); [done|].
    destruct (lookup_lt_is_Some_2 l (Z.to_nat ((cur + d) mod nr))) as [sv Hsv]; [lia|].
    destruct (ring_entries_server_at lb l _ sv Hl Hsv) as (p & Hp & Hdp).
    rewrite Z2Nat.id in Hp by lia.
    destruct (ring_entries_server_at lb l _ c Hl Hc) as (pc & Hpc & Hdc).
    rewrite Z2Nat.id in Hpc by lia.
    unfold entry_at. rewrite Hp, Hpc. simpl. rewrite Hdp, Hdc. simpl.
    destruct (Z.eqb_spec (family (server_id sv)) (family (server_id c))) as [Heq|Hdiff];
      simpl.
    + rewrite rem_step by lia.
      destruct (IH (d + 1)) as (r & Hr & Hspec); [lia|lia| |].
      { intros d' sv' Hd' Hsv'. destruct (decide (d' = d)) as [->|?].
        - congruence.
        - apply (Hsame d'); [lia|done]. }
      exists r. split; [done|]. destruct r as [q|]; [|done].
      destruct Hspec as (e & sve & He & ?). exists e, sve. split; [lia|done].
    + eexists. split; [done|]. simpl. exists d, sv. split_and!; try done. lia.
Qed.

(** [find_next_server] walks the ring from the entry after
    [current_index], around the end, and returns the first entry whose id
    is of another family than the entry at [current_index]; every entry it
    passed is of that family.  It returns NULL when it comes back to
    [current_index], and then the whole ring is of one family. *)
Theorem find_next_server_other_family (lb : load_balancer) (l : list server)
    (cur : Z) (c : server) :
  ring_entries lb = Some l → Z.of_nat (length l) = nr_servers lb →
  0 ≤ cur < nr_servers lb → l !! Z.to_nat cur = Some c →
  ∃ r, find_next_server lb cur = Some r
    ∧ match r with
      | None => ∀ sv, sv ∈ l → family (server_id sv) = family (server_id c)
      | Some p =>
          ∃ e sv, 1 ≤ e < nr_servers lb
            ∧ server_at lb ((cur + e) mod nr_servers lb) = Some p
            ∧ deref (mem lb) p = Some sv
            ∧ family (server_id sv) ≠ family (server_id c)
            ∧ ∀ d' sv', 1 ≤ d' < e →
                l !! Z.to_nat ((cur + d') mod nr_servers lb) = Some sv' →
                family (server_id sv') = family (server_id c)
      end.
Proof.
  intros Hl Hlen Hcur Hc. unfold find_next_server.
  destruct (Z.eqb_spec (nr_servers lb) 0); [lia|].
  replace ((cur + 1) `rem` nr_servers lb) with ((cur + 1) mod nr_servers lb)
    by (symmetry; apply Z.rem_mod_nonneg; lia).
  apply (find_next_server_loop_spec lb l cur c Hl Hlen Hcur Hc _ 1); [lia|lia|].
  intros d' sv Hd'. lia.
Qed.

(** * Further properties of the cache *)

Section CacheOperations.

Variable hash_string : string → Z.

Local Abbreviation wf_cache := (wf_cache hash_string).
Local Abbreviation lru_cache_get := (lru_cache_get hash_string).
Local Abbreviation lru_cache_put := (lru_cache_put hash_string).
Local Abbreviation lru_cache_remove := (lru_cache_remove hash_string).

(** [lru_cache_get] of a key the cache holds returns its value and
    makes the pair the most recently used one: the other pairs keep their
    order, and size and capacity stay as they are. *)
Theorem lru_cache_get_promotes (c : lru_cache) (k v : string) :
  wf_cache c → (k, v) ∈ contents c →
  ∃ c', lru_cache_get c k = (c', Some v)
        ∧ contents c' = filter (λ x, x.1 ≠ k) (contents c) ++ [(k, v)]
        ∧ size c' = size c ∧ capacity c' = capacity c
        ∧ lru_invariant c'.
Proof.
  intros Hwf Hin.
  destruct (lru_cache_get_contents hash_string c k Hwf) as (Hc & _ & Hv).
  apply Hv in Hin.
  destruct (lru_cache_get_wf hash_string c k Hwf) as (Hw & Hcap & Hsz & _).
  destruct (lru_cache_get c k) as [c' r] eqn:E. simpl in *. subst r.
  exists c'. split_and!; try done. by apply wf_lru_invariant with hash_string.
Qed.

(** [lru_cache_put] of a new key into a cache that has room evicts
    nothing: the pair is added as the most recently used one, behind the
    pairs the cache held, and the size grows by one. *)
Theorem lru_cache_put_fresh_appends (c : lru_cache) (k v : string) (b : bool) :
  wf_cache c → k ∉ (fst <$> contents c) → size c < capacity c →
  ∃ c', lru_cache_put c k v b = (c', true, None)
        ∧ contents c' = contents c ++ [(k, v)]
        ∧ size c' = size c + 1 ∧ capacity c' = capacity c
        ∧ lru_invariant c'.
Proof.
  intros Hwf Hk Hroom. rewrite <- recency_keys_contents in Hk.
  destruct (lru_cache_put_new hash_string c k v b Hwf Hk Hroom)
    as (c' & Hput & Hw & Hc & Hcap & Hsz).
  exists c'. split_and!; try done. by apply wf_lru_invariant with hash_string.
Qed.

(** [lru_cache_remove] of a key the cache holds takes out that pair
    and no other: the remaining pairs keep their order, the size drops by
    one, and the key is not found afterwards. *)
Theorem lru_cache_remove_present (c : lru_cache) (k v : string) :
  wf_cache c → (k, v) ∈ contents c →
  contents (lru_cache_remove c k) = filter (λ x, x.1 ≠ k) (contents c)
  ∧ size (lru_cache_remove c k) = size c - 1
  ∧ capacity (lru_cache_remove c k) = capacity c
  ∧ lru_cache_get (lru_cache_remove c k) k = (lru_cache_remove c k, None)
  ∧ lru_invariant (lru_cache_remove c k).
Proof.
  intros Hwf Hin. apply list_elem_of_split in Hin as (p1 & p2 & Hc).
  destruct (lru_cache_remove_hit hash_string c p1 p2 k v Hwf Hc) as (Hw & Hc' & Hcap & Hsz).
  rewrite (contents_filter_split hash_string c p1 p2 k v Hwf Hc).
  split_and!; try done.
  - apply lru_cache_get_miss; [done|].
    rewrite recency_keys_contents, Hc'.
    pose proof (wf_contents_keys hash_string c Hwf) as Hnd. rewrite Hc in Hnd.
    rewrite fmap_app, fmap_cons in Hnd. apply NoDup_app in Hnd as (_ & H1 & H2).
    apply NoDup_cons in H2 as [H2 _]. rewrite fmap_app, elem_of_app.
    intros [H|H]; [|done]. apply (H1 _ H). left.
  - by apply wf_lru_invariant with hash_string.
Qed.


(** What [lru_cache_put] stores, [lru_cache_get] reads back: whether
    the key was new, already present, or took the place of an evicted
    one. *)
Theorem lru_cache_put_then_get (c : lru_cache) (k v : string) (b : bool) :
  wf_cache c →
  (lru_cache_get (lru_cache_put c k v b).1.1 k).2 = Some v.
Proof.
  intros Hwf.
  destruct (lru_cache_put_wf hash_string c k v b Hwf) as [Hw _].
  destruct (lru_cache_get_contents hash_string _ k Hw) as (_ & _ & Hv).
  apply Hv. rewrite (lru_cache_put_contents hash_string c k v b Hwf).
  apply elem_of_app. right. left.
Qed.

(** [lru_cache_put] of key [k] leaves the other keys alone: a pair
    with another key that the cache holds afterwards was there before, and
    when [k] was present or the cache had room every pair with another
    key is still there. *)
Theorem lru_cache_put_other_keys (c : lru_cache) (k v : string) (b : bool)
    (k' v' : string) :
  wf_cache c → k' ≠ k →
  ((k', v') ∈ contents (lru_cache_put c k v b).1.1 → (k', v') ∈ contents c)
  ∧ (k ∈ (fst <$> contents c) ∨ size c < capacity c →
     (k', v') ∈ contents c → (k', v') ∈ contents (lru_cache_put c k v b).1.1).
Proof.
  intros Hwf Hne. rewrite (lru_cache_put_contents hash_string c k v b Hwf).
  rewrite <- recency_keys_contents.
  split.
  - rewrite elem_of_app, list_elem_of_singleton. intros [H|H]; [|congruence].
    destruct (decide (k ∈ recency_keys c)).
    + by apply list_elem_of_filter in H as [_ H].
    + destruct (decide (size c < capacity c)); [done|].
      destruct (contents c); [done|]. simpl in H. by right.
  - intros Hcase Hin. apply elem_of_app. left.
    destruct (decide (k ∈ recency_keys c)).
    + apply list_elem_of_filter. split; [simpl; congruence|done].
    + destruct Hcase as [?|?]; [done|]. by rewrite decide_True.
Qed.

(** [lru_cache_get] loses nothing: whatever key is asked for, found or
    not, the cache holds the same pairs afterwards, and as many. *)
Theorem lru_cache_get_keeps_pairs (c : lru_cache) (k : string) :
  wf_cache c →
  contents (lru_cache_get c k).1 ≡ₚ contents c
  ∧ size (lru_cache_get c k).1 = size c
  ∧ capacity (lru_cache_get c k).1 = capacity c
  ∧ lru_invariant (lru_cache_get c k).1.
Proof.
  intros Hwf. destruct (lru_cache_get_wf hash_string c k Hwf) as (Hw & Hcap & Hsz & Hp).
  split_and!; try done. by apply wf_lru_invariant with hash_string.
Qed.

End CacheOperations.

(** * The recency list on its own *)

(** [dll_add_nth_node] puts the new node at position [n], or behind the
    last node when [n] is past the end, and counts it. *)
Lemma dll_add_nth_node_position (l : list_t) (n : Z) (d : info) (a : node_ptr) :
  lsize l = Z.of_nat (length (nodes l)) → lsize l + 1 < UINT_MOD → 0 ≤ n →
  nodes (dll_add_nth_node l n d a)
    = take (Z.to_nat n) (nodes l) ++ mk_node a d :: drop (Z.to_nat n) (nodes l)
  ∧ lsize (dll_add_nth_node l n d a) = lsize l + 1.
Proof.
  intros Hsz Hmax Hn. unfold dll_add_nth_node.
  assert (Hu : u32 (lsize l + 1) = lsize l + 1) by (apply u32_small; lia).
  destruct (Z.eqb_spec (lsize l) 0) as [H0|H0].
  - simpl. destruct (nodes l); [|simpl in Hsz; lia].
    by rewrite take_nil, drop_nil.
  - destruct (Z.leb_spec (lsize l) n) as [Hle|Hlt]; simpl.
    + rewrite take_ge, drop_ge by lia. done.
    + rewrite Z.mod_small by lia. done.
Qed.

(** Taking out the node that was just put in at a position of the list
    gives back the node and the list as it was. *)
Theorem dll_add_then_remove_nth (l : list_t) (n : Z) (d : info) (a : node_ptr) :
  lsize l = Z.of_nat (length (nodes l)) → lsize l + 1 < UINT_MOD →
  0 ≤ n ≤ lsize l →
  dll_remove_nth_node (dll_add_nth_node l n d a) n = (l, Some (mk_node a d)).
Proof.
  intros Hsz Hmax Hn.
  destruct (dll_add_nth_node_position l n d a Hsz Hmax) as [Hnodes Hsize]; [lia|].
  destruct (dll_add_nth_node l n d a) as [ns sz] eqn:E. simpl in Hnodes, Hsize. subst.
  clear E.
  assert (Hlen : length (take (Z.to_nat n) (nodes l)) = Z.to_nat n)
    by (rewrite length_take; lia).
  unfold dll_remove_nth_node. cbn [nodes lsize].
  destruct (Z.eqb_spec (lsize l + 1) 1) as [H1|H1].
  - destruct l as [ns sz]. simpl in *.
    destruct ns; simpl in *; [|lia].
    assert (sz = 0) by lia. subst sz. by rewrite take_nil, drop_nil.
  - destruct (take (Z.to_nat n) (nodes l) ++ mk_node a d :: drop (Z.to_nat n) (nodes l))
      as [|hd tl] eqn:Hl.
    { by destruct (take (Z.to_nat n) (nodes l)). }
    rewrite <- Hl. clear hd tl Hl.
    destruct (Z.leb_spec (lsize l + 1) n); [lia|].
    rewrite Z.mod_small by lia.
    rewrite lookup_app_r by lia. rewrite Hlen, Nat.sub_diag. simpl.
    rewrite <- Hlen at 1. rewrite delete_middle. rewrite take_drop.
    replace (lsize l + 1 - 1) with (lsize l) by lia.
    rewrite u32_small by lia. by destruct l.
Qed.

(** [dll_remove_nth_node] returns NULL on an empty list and changes
    nothing; an index past the end takes out the last node. *)
Theorem dll_remove_nth_node_clamps (l : list_t) (n : Z) :
  lsize l = Z.of_nat (length (nodes l)) → lsize l < UINT_MOD → lsize l ≤ n →
  match last (nodes l) with
  | None => dll_remove_nth_node l n = (l, None)
  | Some x =>
      dll_remove_nth_node l n
        = (mk_list (take (pred (length (nodes l))) (nodes l)) (lsize l - 1), Some x)
  end.
Proof.
  intros Hsz Hmax Hn. unfold dll_remove_nth_node.
  destruct (nodes l) as [|hd tl] eqn:Hl; [done|].
  destruct (Z.leb_spec (lsize l) n); [|lia].
  simpl length in Hsz.
  assert (Hu : u32 (lsize l - 1) = lsize l - 1) by (apply u32_small; lia).
  rewrite Hu.
  destruct (Z.eqb_spec (lsize l) 1) as [H1|H1].
  - destruct tl; [|simpl in Hsz; lia]. simpl. by rewrite H1.
  - rewrite Z.mod_small by lia.
    replace (Z.to_nat (lsize l - 1)) with (pred (length (hd :: tl))) by (simpl; lia).
    rewrite <- last_lookup.
    destruct (last (hd :: tl)) as [x|] eqn:Hlast; [|by apply last_None in Hlast].
    f_equal. f_equal.
    apply last_Some in Hlast as [l' Hl']. rewrite Hl'.
    rewrite length_app. simpl. rewrite Nat.add_1_r. simpl.
    rewrite take_app_length.
    rewrite delete_middle. by rewrite app_nil_r.
Qed.

(** * The task queue is first in, first out *)

(** [q_enqueue] on a queue that is not full returns 1 and puts the request
    behind the ones that wait. *)
Theorem q_enqueue_appends (q : queue_t) (r : request) :
  wf_queue q → q_size q < max_size q →
  ∃ q', q_enqueue q r = (q', 1) ∧ pending q' = pending q ++ [r]
        ∧ q_size q' = q_size q + 1 ∧ wf_queue q'.
Proof.
  intros Hwf Hlt.
  destruct (q_enqueue_pending q r Hwf Hlt) as (q' & ? & ? & ? & ? & _). eauto.
Qed.

(** [q_dequeue] on a queue that is not empty returns the request that has
    waited longest and leaves the others, in their order. *)
Theorem q_dequeue_oldest (q : queue_t) :
  wf_queue q → 0 < q_size q →
  ∃ r rest q', pending q = r :: rest ∧ q_dequeue q = (q', Some r)
               ∧ pending q' = rest ∧ q_size q' = q_size q - 1 ∧ wf_queue q'.
Proof.
  intros Hwf Hlt.
  destruct (q_dequeue_pending q Hwf Hlt) as (r & rest & q' & ? & ? & ? & ? & _ & ?).
  exists r, rest, q'. done.
Qed.

(** [q_front] shows the request [q_dequeue] would return next, NULL when
    none waits. *)
Theorem q_front_oldest (q : queue_t) :
  wf_queue q → q_front q = head (pending q) ∧ q_front q = (q_dequeue q).2.
Proof.
  intros Hwf. unfold q_front, q_dequeue.
  pose proof (wfq_size _ Hwf) as Hs.
  destruct (Z.eqb_spec (q_size q) 0) as [H0|H0].
  - split; [|done]. unfold pending. by rewrite H0.
  - split; [|done].
    destruct (q_dequeue_pending q Hwf) as (r & rest & q' & Hp & Hd & _); [lia|].
    rewrite Hp. simpl. unfold q_dequeue in Hd.
    destruct (Z.eqb_spec (q_size q) 0); [lia|]. by injection Hd as _ ->.
Qed.

Lemma q_enqueue_all_pending (l : list request) : ∀ q,
  wf_queue q → q_size q + Z.of_nat (length l) ≤ max_size q →
  wf_queue (q_enqueue_all q l)
  ∧ pending (q_enqueue_all q l) = pending q ++ l
  ∧ q_size (q_enqueue_all q l) = q_size q + Z.of_nat (length l).
Proof.
  induction l as [|r l IH]; intros q Hwf Hroom; simpl.
  - rewrite app_nil_r. split_and!; [done|done|lia].
  - simpl length in Hroom.
    destruct (q_enqueue_pending q r Hwf) as (q' & Hq & Hw' & Hp' & Hs' & Hm'); [lia|].
    rewrite Hq. simpl.
    destruct (IH q' Hw') as (? & Hp & Hs); [lia|].
    split_and!; [done| |lia].
    rewrite Hp, Hp', <- app_assoc. done.
Qed.

Lemma q_dequeue_n_pending (n : nat) : ∀ q,
  wf_queue q → n = length (pending q) →
  (q_dequeue_n n q).2 = Some <$> pending q
  ∧ pending (q_dequeue_n n q).1 = []
  ∧ q_size (q_dequeue_n n q).1 = 0.
Proof.
  induction n as [|n IH]; intros q Hwf Hn; simpl.
  - symmetry in Hn. apply length_zero_iff_nil in Hn. rewrite Hn.
    split_and!; [done|done|].
    pose proof (pending_length q Hwf) as Hl. rewrite Hn in Hl. simpl in Hl.
    pose proof (wfq_size _ Hwf). lia.
  - pose proof (pending_length q Hwf) as Hl.
    destruct (q_dequeue_pending q Hwf) as (r & rest & q' & Hp & Hd & Hw' & Hp' & _ & Hs'); [lia|].
    rewrite Hd. rewrite Hp in Hn. simpl in Hn.
    destruct (IH q' Hw') as (H1 & H2 & H3); [rewrite Hp'; lia|].
    destruct (q_dequeue_n n q') as [q2 rs]. simpl in *.
    rewrite Hp, H1, Hp'. done.
Qed.

(** Requests come out of the queue in the order they went in: after the
    requests of [l] were enqueued, with room for all of them, as many
    calls of [q_dequeue] as requests wait return the ones that waited
    before and then those of [l], and leave the queue empty. *)
Theorem q_first_in_first_out (q : queue_t) (l : list request) :
  wf_queue q → q_size q + Z.of_nat (length l) ≤ max_size q →
  let out := q_dequeue_n (length (pending q) + length l) (q_enqueue_all q l) in
  out.2 = Some <$> (pending q ++ l) ∧ q_size out.1 = 0.
Proof.
  intros Hwf Hroom out.
  destruct (q_enqueue_all_pending l q Hwf Hroom) as (Hw & Hp & _).
  destruct (q_dequeue_n_pending (length (pending q) + length l) (q_enqueue_all q l) Hw)
    as (H1 & _ & H3).
  { by rewrite Hp, length_app. }
  unfold out. by rewrite H1, Hp.
Qed.

(** * What a server answers *)

Section ServerAnswers.

Variable hash_string : string → Z.

Local Abbreviation wf_cache := (wf_cache hash_string).
Local Abbreviation wf_server := (wf_server hash_string).
Local Abbreviation lru_cache_get := (lru_cache_get hash_string).
Local Abbreviation lru_cache_put := (lru_cache_put hash_string).
Local Abbreviation server_edit_document := (server_edit_document hash_string).
Local Abbreviation server_get_document := (server_get_document hash_string).
Local Abbreviation server_handle_request := (server_handle_request hash_string).
Local Abbreviation execute_edit_tasks_for_document := (execute_edit_tasks_for_document hash_string).
Local Abbreviation apply_edits := (apply_edits hash_string).
Local Abbreviation handle_requests := (handle_requests hash_string).

Lemma set_caches_id s : set_local_db (set_cache s (cache s)) (local_db s) = s.
Proof. by destruct s. Qed.

(** An EDIT is lazy: while the queue has room, [server_handle_request]
    only puts the request behind the waiting ones and acknowledges it with
    the new depth of the queue; the cache and the database are not
    touched and nothing is printed. *)
Theorem edit_request_is_queued (s : server) (id : Z) (name content : string) :
  wf_server s → q_size (task_queue s) < MAX_TASK_QUEUE_SIZE →
  ∃ s', server_handle_request s id (mk_request EDIT_DOCUMENT name content)
        = (s', [], mk_response (LOG_LAZY_EXEC (q_size (task_queue s) + 1))
                               (Some (MSG_A "EDIT" name)) id)
        ∧ pending (task_queue s')
          = pending (task_queue s) ++ [mk_request EDIT_DOCUMENT name content]
        ∧ cache s' = cache s ∧ local_db s' = local_db s.
Proof.
  intros Hwf Hroom. unfold server_handle_request. simpl.
  pose proof (wfs_queue _ _ Hwf) as Hq.
  rewrite <- (wfs_queue_max _ _ Hwf) in Hroom.
  destruct (q_enqueue_pending (task_queue s) (mk_request EDIT_DOCUMENT name content) Hq Hroom)
    as (q' & -> & _ & Hp & Hs & _).
  exists (set_task_queue s q'). split; [|split; [exact Hp|done]].
  unfold q_get_size, create_response. by rewrite Hs.
Qed.




(** The answer to an edit tells what was there: the log line reports a hit
    exactly when the cache held the document, and the response is the
    "created" message exactly when neither the cache nor the database
    held it, the "updated" one otherwise. *)
Theorem edit_response_tells_history (s : server) (id : Z) (name content : string) :
  wf_server s →
  let r := (server_edit_document s id name content).2 in
  response_id r = id
  ∧ (server_log r = LOG_HIT name ↔ name ∈ (fst <$> contents (cache s)))
  ∧ server_response r
    = Some (if decide (name ∈ (fst <$> contents (cache s))
                       ∨ name ∈ (fst <$> contents (local_db s)))
            then MSG_B name else MSG_C name).
Proof.
  intros Hwf r. unfold r, server_edit_document. clear r.
  pose proof (wfs_cache _ _ Hwf) as Hwc. pose proof (wfs_db _ _ Hwf) as Hwd.
  destruct (lru_cache_get_contents hash_string (cache s) name Hwc) as (_ & Hn & _).
  destruct (lru_cache_get_contents hash_string (local_db s) name Hwd) as (_ & Hnd & _).
  rewrite recency_keys_contents in Hn, Hnd.
  destruct (lru_cache_get (cache s) name) as [c1 [x|]]; simpl in Hn.
  - assert (Hin : name ∈ (fst <$> contents (cache s))).
    { destruct (decide (name ∈ (fst <$> contents (cache s)))) as [?|Hno]; [done|].
      apply Hn in Hno. done. }
    destruct (lru_cache_put c1 name content true) as [[c2 ?] ?].
    destruct (lru_cache_put (local_db s) name content false) as [[d2 ?] ?]. simpl.
    split_and!; [done|done|]. rewrite decide_True; [done|by left].
  - assert (Hout : name ∉ (fst <$> contents (cache s))) by by apply Hn.
    destruct (lru_cache_get (local_db s) name) as [d1 [y|]]; simpl in Hnd.
    + assert (Hin : name ∈ (fst <$> contents (local_db s))).
      { destruct (decide (name ∈ (fst <$> contents (local_db s)))) as [?|Hno]; [done|].
        apply Hnd in Hno. done. }
      destruct (lru_cache_put c1 name content true) as [[c2 ?] [ev|]];
        destruct (lru_cache_put d1 name content false) as [[d2 ?] ?]; simpl;
        (split_and!; [done|split; [done|intros; contradiction]|
                      rewrite decide_True; [done|by right]]).
    + assert (Hout' : name ∉ (fst <$> contents (local_db s))) by by apply Hnd.
      destruct (lru_cache_put d1 name content false) as [[d2 ?] ?].
      destruct (lru_cache_put c1 name content true) as [[c2 ?] [ev|]]; simpl;
        (split_and!; [done|split; [done|intros; contradiction]|
                      rewrite decide_False; [done|by intros [?|?]]]).
Qed.

(** ** The capacity of the cache is fixed *)

Lemma server_edit_document_capacity s id name content :
  wf_server s →
  capacity (cache (server_edit_document s id name content).1) = capacity (cache s).
Proof.
  intros Hwf.
  destruct (server_edit_document_caches hash_string
              (λ c, wf_cache c ∧ capacity c = capacity (cache s)) s id name content)
    as [Hc _].
  - intros c [H1 H2]. destruct (lru_cache_get_wf hash_string c name H1) as (? & ? & _).
    split; [done|congruence].
  - intros c b [H1 H2].
    destruct (lru_cache_put_wf hash_string c name content b H1) as (? & ?).
    split; [done|congruence].
  - apply Hc. split; [apply (wfs_cache _ _ Hwf)|done].
Qed.

Lemma apply_edits_capacity l : ∀ s id,
  wf_server s → capacity (cache (apply_edits l s id).1) = capacity (cache s).
Proof.
  induction l as [|r l IH]; intros s id Hwf; simpl; [done|].
  pose proof (server_edit_document_wf hash_string s id (doc_name r) (doc_content r) Hwf) as H1.
  pose proof (server_edit_document_capacity s id (doc_name r) (doc_content r) Hwf) as H2.
  destruct (server_edit_document s id (doc_name r) (doc_content r)) as [s1 resp].
  simpl in H1, H2. specialize (IH s1 id H1).
  destruct (apply_edits l s1 id). simpl in *. congruence.
Qed.

Lemma server_get_document_capacity s id name :
  wf_server s →
  capacity (cache (server_get_document s id name).1) = capacity (cache s).
Proof.
  intros Hwf. unfold server_get_document.
  destruct (lru_cache_get_wf hash_string (cache s) name (wfs_cache _ _ Hwf)) as (Hw1 & Hc1 & _).
  destruct (lru_cache_get (cache s) name) as [c1 [d|]]; simpl in *; [done|].
  destruct (lru_cache_get (local_db s) name) as [d1 [r|]]; simpl in *; [|done].
  destruct (lru_cache_put_wf hash_string c1 name r true Hw1) as (Hw3 & Hc3).
  destruct (lru_cache_put c1 name r true) as [[c2 ?] [ev|]]; simpl in *; congruence.
Qed.

Lemma server_handle_request_capacity s id req :
  wf_server s →
  capacity (cache (server_handle_request s id req).1.1) = capacity (cache s).
Proof.
  intros Hwf. unfold server_handle_request. destruct (type req).
  - by destruct (q_enqueue (task_queue s) req).
  - rewrite (execute_edit_tasks_spec hash_string s id (wfs_queue _ _ Hwf)).
    pose proof (wfs_queue _ _ Hwf) as Hq.
    assert (Hwf0 : wf_server (set_task_queue s (drained (task_queue s)))).
    { destruct Hwf. constructor; simpl; try done. by apply drained_wf. }
    pose proof (apply_edits_wf hash_string (pending (task_queue s)) _ id Hwf0) as H1.
    pose proof (apply_edits_capacity (pending (task_queue s)) _ id Hwf0) as H2.
    destruct (apply_edits _ _ id) as [s1 out]. simpl in H1, H2.
    pose proof (server_get_document_capacity s1 id (doc_name req) H1) as H3.
    destruct (server_get_document s1 id (doc_name req)). simpl in *. congruence.
Qed.

Lemma handle_requests_wf reqs : ∀ s id,
  wf_server s →
  wf_server (handle_requests s id reqs)
  ∧ capacity (cache (handle_requests s id reqs)) = capacity (cache s).
Proof.
  induction reqs as [|r reqs IH]; intros s id Hwf; simpl; [done|].
  pose proof (server_handle_request_wf hash_string s id r Hwf) as H1.
  pose proof (server_handle_request_capacity s id r Hwf) as H2.
  destruct (IH _ id H1) as [H3 H4]. split; [done|congruence].
Qed.


End ServerAnswers.

(** * Listing the keys of a database *)

Section AllKeys.

Variable hash_string : string → Z.

Local Abbreviation wf_cache := (wf_cache hash_string).

(** [get_all_keys] fills the array it allocated, no more and no less: it
    lists every key of the database exactly once, and that makes
    [local_db->size] keys. *)
Theorem get_all_keys_lists_each_key_once (s : server) :
  wf_cache (local_db s) →
  Z.of_nat (length (get_all_keys s)) = size (local_db s)
  ∧ NoDup (get_all_keys s)
  ∧ ∀ k, k ∈ get_all_keys s ↔ k ∈ (fst <$> contents (local_db s)).
Proof.
  intros Hwf. split_and!.
  - by apply (get_all_keys_length hash_string).
  - by apply (get_all_keys_NoDup hash_string).
  - intros k. rewrite <- recency_keys_contents.
    by apply (get_all_keys_recency hash_string).
Qed.

End AllKeys.

Lemma ring_5_0_keys : (ring_5_0 ≫= ring_keys) = Some [(5, 5); (0, 0)].
Proof. vm_compute. reflexivity. Qed.

(** Claim C8.  Adding server 5 and then server 0, under a server hash that
    maps each id to itself, leaves the ring as [(5, 5); (0, 0)]: the entry
    of hash 0 is appended after the entry of hash 5, so the ring is not
    sorted by hash. *)
Theorem add_server_hash_zero_breaks_order :
  ∃ l, (ring_5_0 ≫= ring_keys) = Some l ∧ ¬ ring_sorted l.
Proof.
  exists [(5, 5); (0, 0)]. split; [apply ring_5_0_keys|].
  intros H. inversion H as [|a l _ Hhd]; subst.
  inversion Hhd as [|b l' Hle]; subst.
  unfold ring_le in Hle. simpl in Hle. lia.
Qed.

Lemma ring_100_forward :
  (ring_100 ≫= forward identity_hash GET_DOCUMENT "d" "") = None.
Proof. vm_compute. reflexivity. Qed.

(** Claim C4.  Without virtual nodes, add servers 90, 110, 0 and 130 under
    the identity hash, store document "d" (it goes to server 110), then
    remove server 110.  Before the removal a GET of "d" returns its content;
    after it the GET is answered by server 130 with a fault: the document
    was moved to another server. *)
Theorem remove_server_loses_document :
  (snd <$> ring_before_remove)
    = Some (mk_response (LOG_HIT "d") (Some (DOC "v")) 110)
  ∧ (snd <$> ring_after_remove)
    = Some (mk_response (LOG_FAULT "d") None 130).
Proof. split; vm_compute; reflexivity. Qed.


(** * The theorems at concrete states *)

Ltac by_evaluation := refine (bool_decide_unpack _ _); vm_compute; exact I.

Lemma cache_ab_wf : wf_cache first_byte_hash cache_ab.
Proof. apply run_ops_wf, init_lru_cache_wf. by unfold UINT_MOD. Qed.

Lemma lru_invariant_always_witness :
  0 < 2 < UINT_MOD
  ∧ lru_invariant (run_ops first_byte_hash (init_lru_cache 2)
                     [OpPut "A" "1" true; OpPut "B" "2" true; OpGet "A";
                      OpPut "C" "3" true; OpRemove "A"]).
Proof.
  split; [split; reflexivity|].
  apply (lru_invariant_always first_byte_hash 2). split; reflexivity.
Defined.

Lemma lru_cache_put_full_evicts_lru_witness :
  size cache_ab = capacity cache_ab
  ∧ ("C" ∉ key <$> entries cache_ab)
  ∧ ∃ c', lru_cache_put first_byte_hash cache_ab "C" "3" true = (c', true, Some "A")
          ∧ contents c' = [("B", "2"); ("C", "3")].
Proof.
  assert (H1 : size cache_ab = capacity cache_ab) by reflexivity.
  assert (H2 : "C" ∉ (key <$> entries cache_ab)) by by_evaluation.
  split; [done|]. split; [done|].
  destruct (lru_cache_put_full_evicts_lru first_byte_hash cache_ab "C" "3" cache_ab_wf H1 H2)
    as (k0 & v0 & rest & c' & Hc & Hput & Hc' & _).
  exists c'. vm_compute in Hc. injection Hc as <- <- <-. done.
Defined.

Lemma lru_cache_put_existing_returns_true_witness :
  "A" ∈ (key <$> entries cache_ab)
  ∧ ∃ c', lru_cache_put first_byte_hash cache_ab "A" "9" true = (c', true, None)
          ∧ contents c' = [("B", "2"); ("A", "9")].
Proof.
  assert (H1 : "A" ∈ (key <$> entries cache_ab)) by by_evaluation.
  split; [done|].
  destruct (lru_cache_put_existing_returns_true first_byte_hash cache_ab "A" "9" cache_ab_wf H1)
    as (p1 & v1 & p2 & c' & Hc & Hput & Hc' & _).
  exists c'. split; [done|]. rewrite Hc'.
  change (contents cache_ab) with ([] ++ ("A", "1") :: [("B", "2")]) in Hc.
  assert (Hnd : NoDup (fst <$> contents cache_ab)).
  { rewrite <- recency_keys_contents. apply (wf_keys _ _ cache_ab_wf). }
  destruct p1 as [|x p1].
  - simpl in Hc. by injection Hc as <- <-.
  - exfalso. simpl in Hc. injection Hc as <- Hc.
    destruct p1 as [|y p1]; simpl in Hc; [discriminate|].
    injection Hc as <- Hc. by destruct p1.
Defined.


Lemma edit_on_full_queue_dropped_witness :
  max_size (task_queue server_full_queue) = MAX_TASK_QUEUE_SIZE
  ∧ q_size (task_queue server_full_queue) = 1000
  ∧ server_handle_request first_byte_hash server_full_queue 7
      (mk_request EDIT_DOCUMENT "late" "x")
    = (server_full_queue, [],
       mk_response (LOG_LAZY_EXEC 1000) (Some (MSG_A "EDIT" "late")) 7).
Proof.
  split; [reflexivity|]. split; [reflexivity|].
  apply (edit_on_full_queue_dropped first_byte_hash server_full_queue 7 "late" "x");
    reflexivity.
Defined.

Lemma server_two_edits_wf : wf_server first_byte_hash server_two_edits.
Proof.
  unfold server_two_edits. cbv zeta.
  apply server_handle_request_wf, server_handle_request_wf, init_server_wf.
  - by unfold UINT_MOD.
  - reflexivity.
Qed.


Lemma forward_leaves_target_unassigned_witness :
  loader_forward_request first_byte_hash identity_hash balancer_100
    (mk_request GET_DOCUMENT "d" "") = None.
Proof.
  eapply (forward_leaves_target_unassigned first_byte_hash identity_hash balancer_100
            (mk_request GET_DOCUMENT "d" "")).
  - vm_compute. reflexivity.
  - intros sv Hsv. apply list_elem_of_singleton in Hsv. subst sv.
    vm_compute. discriminate.
  - eexists. split; reflexivity.
Defined.


(** * The further properties at concrete states *)

Lemma cache_a_wf : wf_cache first_byte_hash cache_a.
Proof. apply run_ops_wf, init_lru_cache_wf. by unfold UINT_MOD. Qed.

Lemma server_ab_wf : wf_server first_byte_hash server_ab.
Proof.
  apply handle_requests_wf, init_server_wf.
  - by unfold UINT_MOD.
  - reflexivity.
Qed.

Lemma balancer_two_wf :
  wf_balancer first_byte_hash balancer_two ∧ held_once balancer_two.
Proof.
  destruct (init_load_balancer_wf first_byte_hash 8) as [Hwf0 Hho0].
  destruct (add_server_keeps_keys_apart first_byte_hash identity_hash
              (init_load_balancer 8 false) 100 2 Hwf0 Hho0)
    as (lb1 & Hlb1 & Hwf1 & Hho1 & _); [by unfold UINT_MOD|reflexivity|].
  destruct (add_server_keeps_keys_apart first_byte_hash identity_hash
              lb1 50 2 Hwf1 Hho1)
    as (lb2 & Hlb2 & Hwf2 & Hho2 & _); [by unfold UINT_MOD|reflexivity|].
  assert (Hb : balancer_two = lb2).
  { unfold balancer_two, ring_100, add_server. rewrite Hlb1. simpl. by rewrite Hlb2. }
  by rewrite Hb.
Qed.

Lemma lru_cache_get_promotes_witness :
  ∃ c', lru_cache_get first_byte_hash cache_ab "A" = (c', Some "1")
        ∧ contents c' = [("B", "2"); ("A", "1")].
Proof.
  destruct (lru_cache_get_promotes first_byte_hash cache_ab "A" "1" cache_ab_wf)
    as (c' & Hget & Hc & _); [by_evaluation|].
  exists c'. split; [done|]. rewrite Hc. reflexivity.
Defined.

Lemma lru_cache_put_fresh_appends_witness :
  ∃ c', lru_cache_put first_byte_hash cache_a "B" "2" true = (c', true, None)
        ∧ contents c' = [("A", "1"); ("B", "2")].
Proof.
  destruct (lru_cache_put_fresh_appends first_byte_hash cache_a "B" "2" true cache_a_wf)
    as (c' & Hput & Hc & _); [by_evaluation|reflexivity|].
  exists c'. split; [done|]. rewrite Hc. reflexivity.
Defined.

Lemma lru_cache_remove_present_witness :
  contents (lru_cache_remove first_byte_hash cache_ab "A") = [("B", "2")]
  ∧ size (lru_cache_remove first_byte_hash cache_ab "A") = 1.
Proof.
  destruct (lru_cache_remove_present first_byte_hash cache_ab "A" "1" cache_ab_wf)
    as (Hc & Hs & _); [by_evaluation|].
  split; [rewrite Hc|rewrite Hs]; reflexivity.
Defined.


Lemma lru_cache_put_then_get_witness :
  (lru_cache_get first_byte_hash
     (lru_cache_put first_byte_hash cache_ab "C" "3" true).1.1 "C").2 = Some "3".
Proof.
  apply (lru_cache_put_then_get first_byte_hash cache_ab "C" "3" true cache_ab_wf).
Defined.

Lemma lru_cache_put_other_keys_witness :
  ("B", "2") ∈ contents (lru_cache_put first_byte_hash cache_ab "A" "9" true).1.1.
Proof.
  destruct (lru_cache_put_other_keys first_byte_hash cache_ab "A" "9" true "B" "2"
              cache_ab_wf) as [_ H]; [done|].
  apply H; [left|]; by_evaluation.
Defined.

Lemma lru_cache_get_keeps_pairs_witness :
  contents (lru_cache_get first_byte_hash cache_ab "A").1 ≡ₚ contents cache_ab.
Proof.
  apply (lru_cache_get_keeps_pairs first_byte_hash cache_ab "A" cache_ab_wf).
Defined.

Lemma dll_add_then_remove_nth_witness :
  dll_remove_nth_node
    (dll_add_nth_node (index cache_ab) 1 (mk_info "C" "3" None) 2%nat) 1
  = (index cache_ab, Some (mk_node 2%nat (mk_info "C" "3" None))).
Proof.
  apply (dll_add_then_remove_nth (index cache_ab) 1); [reflexivity|reflexivity|].
  split; intros H; discriminate H.
Defined.

Lemma dll_remove_nth_node_clamps_witness :
  (dll_remove_nth_node (index cache_ab) 5).2
  = Some (mk_node 1%nat (mk_info "B" "2" None)).
Proof.
  pose proof (dll_remove_nth_node_clamps (index cache_ab) 5) as H.
  change (last (nodes (index cache_ab)))
    with (Some (mk_node 1%nat (mk_info "B" "2" None))) in H.
  rewrite H; [reflexivity|reflexivity|reflexivity|]. intros E. discriminate E.
Defined.

Lemma two_edits_queue_wf : wf_queue (task_queue server_two_edits).
Proof. apply (wfs_queue _ _ server_two_edits_wf). Qed.

Lemma q_enqueue_appends_witness :
  ∃ q', q_enqueue (task_queue server_two_edits) (mk_request EDIT_DOCUMENT "n" "c")
        = (q', 1)
        ∧ pending q'
          = [mk_request EDIT_DOCUMENT "doc" "hi"; mk_request EDIT_DOCUMENT "doc" "bye";
             mk_request EDIT_DOCUMENT "n" "c"].
Proof.
  destruct (q_enqueue_appends (task_queue server_two_edits)
              (mk_request EDIT_DOCUMENT "n" "c") two_edits_queue_wf)
    as (q' & Hq & Hp & _); [reflexivity|].
  exists q'. split; [done|]. rewrite Hp. reflexivity.
Defined.

Lemma q_dequeue_oldest_witness :
  ∃ q', q_dequeue (task_queue server_two_edits)
        = (q', Some (mk_request EDIT_DOCUMENT "doc" "hi"))
        ∧ pending q' = [mk_request EDIT_DOCUMENT "doc" "bye"].
Proof.
  destruct (q_dequeue_oldest (task_queue server_two_edits) two_edits_queue_wf)
    as (r & rest & q' & Hp & Hq & Hp' & _); [reflexivity|].
  change (pending (task_queue server_two_edits))
    with [mk_request EDIT_DOCUMENT "doc" "hi"; mk_request EDIT_DOCUMENT "doc" "bye"] in Hp.
  injection Hp as <- <-. exists q'. done.
Defined.

Lemma q_front_oldest_witness :
  q_front (task_queue server_two_edits) = Some (mk_request EDIT_DOCUMENT "doc" "hi").
Proof.
  destruct (q_front_oldest (task_queue server_two_edits) two_edits_queue_wf) as [H _].
  rewrite H. reflexivity.
Defined.

Lemma q_first_in_first_out_witness :
  (q_dequeue_n 3
     (q_enqueue_all (task_queue server_two_edits)
                    [mk_request EDIT_DOCUMENT "n" "c"])).2
  = [Some (mk_request EDIT_DOCUMENT "doc" "hi");
     Some (mk_request EDIT_DOCUMENT "doc" "bye");
     Some (mk_request EDIT_DOCUMENT "n" "c")].
Proof.
  destruct (q_first_in_first_out (task_queue server_two_edits)
              [mk_request EDIT_DOCUMENT "n" "c"] two_edits_queue_wf) as [H _].
  - intros E. discriminate E.
  - exact H.
Defined.

Lemma edit_request_is_queued_witness :
  ∃ s', server_handle_request first_byte_hash server_two_edits 7
          (mk_request EDIT_DOCUMENT "n" "c")
        = (s', [], mk_response (LOG_LAZY_EXEC 3) (Some (MSG_A "EDIT" "n")) 7)
        ∧ cache s' = cache server_two_edits.
Proof.
  destruct (edit_request_is_queued first_byte_hash server_two_edits 7 "n" "c"
              server_two_edits_wf) as (s' & Hs & _ & Hc & _); [reflexivity|].
  exists s'. split; [exact Hs|exact Hc].
Defined.




Lemma edit_response_tells_history_witness :
  server_response (server_edit_document first_byte_hash server_ab 7 "c" "w").2
  = Some (MSG_C "c").
Proof.
  destruct (edit_response_tells_history first_byte_hash server_ab 7 "c" "w" server_ab_wf)
    as (_ & _ & H).
  rewrite H. reflexivity.
Defined.


Lemma get_all_keys_lists_each_key_once_witness :
  Z.of_nat (length (get_all_keys server_ab)) = size (local_db server_ab)
  ∧ NoDup (get_all_keys server_ab).
Proof.
  destruct (get_all_keys_lists_each_key_once first_byte_hash server_ab
              (wfs_db _ _ server_ab_wf)) as (H1 & H2 & _).
  split; [exact H1|exact H2].
Defined.

Lemma balancer_two_keys : ring_keys balancer_two = Some [(50, 50); (100, 100)].
Proof. vm_compute. reflexivity. Qed.

Lemma balancer_two_sorted : ring_sorted [(50, 50); (100, 100)].
Proof.
  apply Sorted_cons; [apply Sorted_cons; constructor|].
  constructor. left. simpl. lia.
Qed.

Lemma balancer_two_entries :
  ring_entries balancer_two = Some (default [] (ring_entries balancer_two)).
Proof. vm_compute. reflexivity. Qed.



Lemma remove_absent_server_keeps_state_witness :
  loader_remove_server first_byte_hash balancer_two 7
  = Some (set_max_servers balancer_two 4).
Proof.
  rewrite (remove_absent_server_keeps_state first_byte_hash balancer_two
             (default [] (ring_entries balancer_two)) 7).
  - reflexivity.
  - exact balancer_two_entries.
  - reflexivity.
  - apply Forall_forall. by_evaluation.
Defined.

Lemma forward_reaches_ring_owner_witness :
  ∃ lb', loader_forward_request first_byte_hash identity_hash balancer_two
           (mk_request GET_DOCUMENT "a" "")
         = Some (lb', mk_response (LOG_FAULT "a") None 100)
         ∧ ring_keys lb' = ring_keys balancer_two.
Proof.
  destruct balancer_two_wf as [Hwf _].
  destruct (forward_reaches_ring_owner first_byte_hash identity_hash balancer_two
              (mk_request GET_DOCUMENT "a" "")
              (default [] (ring_entries balancer_two))
              (default (init_server 1) (last (default [] (ring_entries balancer_two))))
              Hwf balancer_two_entries)
    as (p & s & lb' & Hown & Hs & Hfw & _ & _ & Hks & _).
  - vm_compute. reflexivity.
  - apply Forall_forall. by_evaluation.
  - intros E. discriminate E.
  - vm_compute in Hown. injection Hown as <-.
    vm_compute in Hs. injection Hs as <-.
    exists lb'. split; [|exact Hks]. rewrite Hfw. reflexivity.
Defined.

Lemma find_next_server_other_family_witness :
  ∃ p, find_next_server balancer_two 0 = Some (Some p).
Proof.
  destruct (find_next_server_other_family balancer_two
              (default [] (ring_entries balancer_two)) 0
              (default (init_server 1) (head (default [] (ring_entries balancer_two))))
              balancer_two_entries) as (r & Hr & Hspec).
  - reflexivity.
  - split; [intros E; discriminate E|reflexivity].
  - vm_compute. reflexivity.
  - destruct r as [p|]; [by exists p|]. exfalso.
    assert (Hall : Forall (λ sv, family (server_id sv) = 50)
                          (default [] (ring_entries balancer_two))).
    { apply Forall_forall. exact Hspec. }
    revert Hall. by_evaluation.
Defined.
